(** * rustplus.js-typed: the request/response correlation engine

    A shallow embedding of [src/rustplus.ts] (class [RustPlus]) and of the
    older [rustplus.js] it was typed from, together with the properties of
    the sequence allocator, the callback registry, the response router, the
    promise facade and the connection handle. *)

From Stdlib Require Import ZArith Lia Sorted.
From stdpp Require Import gmap strings list fin_maps.

Local Open Scope string_scope.
Local Open Scope Z_scope.

(** ** JavaScript values that travel through the client *)

(** Plain data found in request payloads.  Numbers are the integer-valued
    ones (sequence numbers, entity ids, button masks); [VNaN] is what
    [Number(...)] gives for text that is not a number. *)
Inductive JsVal : Type :=
| VUndefined
| VNull
| VBool (b : bool)
| VNum (z : Z)
| VNaN
| VStr (s : string)
| VObj (fields : JsFields)
with JsFields : Type :=
| FNil
| FCons (key : string) (value : JsVal) (rest : JsFields).

(** [new Error(message)] and the [TypeError] of a property read on
    [undefined]. *)
Inductive JsError : Type :=
| Error (message : string)
| TypeError (message : string).

(** Outcome of running a piece of code: it returns or it throws. *)
Inductive Completion (A : Type) : Type :=
| Normal (a : A)
| Throw (e : JsError).
Arguments Normal {A} a.
Arguments Throw {A} e.

(** ** The protobuf message shapes the core looks into ([./proto]) *)
Module Proto.

(** An [AppRequest] literal is an object: a finite map from field name to
    value.  The core only ever builds it with object spread. *)
Abbreviation AppRequest := (gmap string JsVal).

Record AppError : Type := { error_code : string }.

(** [AppResponse]: [seq] is a [uint32] decoded as a number, [error] is
    set on failure, the other fields carry the payload. *)
Record AppResponse : Type := {
  seq : Z;
  error : option AppError;
  payload : JsFields
}.

Record AppMessage : Type := {
  response : option AppResponse;
  broadcast : option JsVal
}.

End Proto.

(** ** The transport handle *)

Inductive ReadyState : Type := CONNECTING | OPEN | CLOSING | CLOSED.

Definition ReadyState_eqb (a b : ReadyState) : bool :=
  match a, b with
  | CONNECTING, CONNECTING | OPEN, OPEN | CLOSING, CLOSING | CLOSED, CLOSED => true
  | _, _ => false
  end.

Record WebSocket : Type := {
  socket_id : nat;
  address : string;
  readyState : ReadyState
}.

(** [protected websocket: WebSocket | null | undefined] *)
Inductive Handle : Type :=
| HUndefined
| HNull
| HSocket (ws : WebSocket).

(** What lives outside the class: the codec generated from the schema,
    the one conversion of the host language the constructor uses, and
    the [send] of the socket library.  The frame type is whatever the
    codec produces ([Uint8Array]).  Each of them may throw: the encoder
    on a value that does not fit its field, a decoder on bytes it cannot
    read, [send] on a socket that does not take frames. *)
Class Platform : Type := {
  Wire : Type;
  AppRequest_toBinary : Proto.AppRequest -> Completion Wire;
  AppRequest_fromBinary : Wire -> Completion Proto.AppRequest;
  AppMessage_fromBinary : Wire -> Completion Proto.AppMessage;
  Number : string -> JsVal;
  WebSocket_send : WebSocket -> Wire -> Completion unit
}.

(** The two imported type objects, [Proto.AppRequest] and
    [Proto.AppMessage], as stored in the fields of the same name. *)
Inductive AppRequestType : Type := Proto_AppRequest.
Inductive AppMessageType : Type := Proto_AppMessage.

(** ** Callbacks, timers and promises *)

Definition TimerId := nat.
Definition PromiseId := nat.

(** [type sendRequestReturnType = Promisable<void> | boolean] *)
Inductive sendRequestReturnType : Type :=
| RetVoid
| RetPromise
| RetBool (b : bool).

(** JavaScript truthiness of a callback's return value: [undefined] and
    [false] are falsy, [true] and every Promise object are truthy. *)
Definition truthy (r : sendRequestReturnType) : bool :=
  match r with
  | RetVoid => false
  | RetPromise => true
  | RetBool b => b
  end.

(** What a public method of the client hands back to its caller:
    [undefined], a Promise, or a boolean. *)
Inductive Returned : Type :=
| Undefined
| PromiseOf (promise : PromiseId)
| Boolean (b : bool).

(** A registered callback is a closure.  [AsyncFn timeout promise] is the
    arrow function written inside [sendRequestAsync], closed over its timer
    and over the [resolve]/[reject] pair of its promise.  [UserFn f] is a
    caller's function at its declared type.  Given the message, its body
    is a [Script]: it may call back into the public methods of the
    client, sees of each call what it returned or threw, and in the end
    returns a value or throws. *)
Inductive callbackFn : Type :=
| UserFn (f : Proto.AppMessage -> Script)
| AsyncFn (timeout : TimerId) (promise : PromiseId)
with Script : Type :=
| Return (value : sendRequestReturnType)
| Raise (e : JsError)
| Do (c : Call) (next : Completion Returned -> Script)
with Call : Type :=
| CallSendRequest (data : Proto.AppRequest) (callback : option callbackFn)
| CallSendRequestAsync (data : Proto.AppRequest) (timeoutMilliseconds : option Z)
| CallConnect
| CallDisconnect
| CallIsConnected.

(** What a promise was rejected with: a thrown [Error] or the [AppError]
    of a response. *)
Inductive Rejection : Type :=
| RejError (e : JsError)
| RejAppError (e : Proto.AppError).

Inductive PromiseState : Type :=
| Pending
| Fulfilled (value : Proto.AppResponse)
| Rejected (reason : Rejection).

(** A timer armed by [setTimeout]; the only function the core hands to it
    rejects a promise with the timeout error. *)
Record Timer : Type := {
  delay : Z;
  rejects : PromiseId
}.

(** ** The client object and the world around it *)

(** [++x] on a number: integers are exact up to [2^53]; from there on
    [x + 1] is not representable and rounds back to [x]. *)
Definition MAX_EXACT : Z := 2 ^ 53.

Definition pre_increment (x : Z) : Z :=
  if x <? MAX_EXACT then x + 1 else x.

(** Truthiness of a number: everything but zero. *)
Definition number_truthy (x : Z) : bool := negb (x =? 0).

(** Truthiness of the handle: an object is truthy, [null] and
    [undefined] are not. *)
Definition handle_truthy (h : Handle) : bool :=
  match h with
  | HSocket _ => true
  | HUndefined | HNull => false
  end.

(** [h != null]: the loose comparison also catches [undefined]. *)
Definition loosely_not_null (h : Handle) : bool :=
  match h with
  | HSocket _ => true
  | HUndefined | HNull => false
  end.

(** [h.readyState]: a property read, which throws on [null] and
    [undefined]. *)
Definition get_readyState (h : Handle) : Completion ReadyState :=
  match h with
  | HSocket ws => Normal (readyState ws)
  | HNull => Throw (TypeError "Cannot read properties of null")
  | HUndefined => Throw (TypeError "Cannot read properties of undefined")
  end.

(** The fields of [class RustPlus]. *)
Record RustPlus : Type := {
  seq : Z;
  seqCallbacks : gmap Z callbackFn;
  server : string;
  port : string;
  playerId : string;
  playerToken : string;
  _playerId : string;
  _playerToken : JsVal;
  useFacepunchProxy : bool;
  websocket : Handle;
  AppRequest : option AppRequestType;
  AppMessage : option AppMessageType
}.

Definition with_seq (n : Z) (c : RustPlus) : RustPlus :=
  {| seq := n; seqCallbacks := seqCallbacks c; server := server c;
     port := port c; playerId := playerId c; playerToken := playerToken c;
     _playerId := _playerId c; _playerToken := _playerToken c;
     useFacepunchProxy := useFacepunchProxy c; websocket := websocket c;
     AppRequest := AppRequest c; AppMessage := AppMessage c |}.

Definition with_seqCallbacks (m : gmap Z callbackFn) (c : RustPlus) : RustPlus :=
  {| seq := seq c; seqCallbacks := m; server := server c;
     port := port c; playerId := playerId c; playerToken := playerToken c;
     _playerId := _playerId c; _playerToken := _playerToken c;
     useFacepunchProxy := useFacepunchProxy c; websocket := websocket c;
     AppRequest := AppRequest c; AppMessage := AppMessage c |}.

Definition with_websocket (h : Handle) (c : RustPlus) : RustPlus :=
  {| seq := seq c; seqCallbacks := seqCallbacks c; server := server c;
     port := port c; playerId := playerId c; playerToken := playerToken c;
     _playerId := _playerId c; _playerToken := _playerToken c;
     useFacepunchProxy := useFacepunchProxy c; websocket := h;
     AppRequest := AppRequest c; AppMessage := AppMessage c |}.

Definition with_proto (c : RustPlus) : RustPlus :=
  {| seq := seq c; seqCallbacks := seqCallbacks c; server := server c;
     port := port c; playerId := playerId c; playerToken := playerToken c;
     _playerId := _playerId c; _playerToken := _playerToken c;
     useFacepunchProxy := useFacepunchProxy c; websocket := websocket c;
     AppRequest := Some Proto_AppRequest; AppMessage := Some Proto_AppMessage |}.

Section Client.

Context `{P : Platform}.

(** Notifications of the [EventEmitter] ([RustPlusEvents]). *)
Inductive Emitted : Type :=
| EvError (e : JsError)
| EvConnected
| EvConnecting
| EvDisconnected
| EvMessage (message : Proto.AppMessage)
| EvRequest (request : Proto.AppRequest).

(** Everything the client does to the outside, in the order it does
    it: notifications, transport calls and callback invocations. *)
Inductive Effect : Type :=
| Emit (e : Emitted)
| OpenSocket (socket : nat) (addr : string)
| Send (socket : nat) (frame : Wire)
| Terminate (socket : nat)
| Invoke (callback : callbackFn) (message : Proto.AppMessage).

(** The client, the promises and timers its facade created, the number
    of sockets opened so far, and the effects so far. *)
Record World : Type := {
  this : RustPlus;
  promises : gmap PromiseId PromiseState;
  timers : gmap TimerId (Timer * bool);
  sockets : nat;
  trace : list Effect
}.

Definition with_this (f : RustPlus -> RustPlus) (w : World) : World :=
  {| this := f (this w); promises := promises w; timers := timers w;
     sockets := sockets w; trace := trace w |}.

Definition with_promises (f : gmap PromiseId PromiseState -> gmap PromiseId PromiseState)
    (w : World) : World :=
  {| this := this w; promises := f (promises w); timers := timers w;
     sockets := sockets w; trace := trace w |}.

Definition with_timers (f : gmap TimerId (Timer * bool) -> gmap TimerId (Timer * bool))
    (w : World) : World :=
  {| this := this w; promises := promises w; timers := f (timers w);
     sockets := sockets w; trace := trace w |}.

Definition with_sockets (n : nat) (w : World) : World :=
  {| this := this w; promises := promises w; timers := timers w;
     sockets := n; trace := trace w |}.

Definition with_trace (t : list Effect) (w : World) : World :=
  {| this := this w; promises := promises w; timers := timers w;
     sockets := sockets w; trace := t |}.

(** *** State and exceptions *)

Definition M (A : Type) : Type := World -> Completion A * World.

Definition ret {A} (a : A) : M A := fun w => (Normal a, w).

Definition bind {A B} (m : M A) (k : A -> M B) : M B :=
  fun w =>
    match m w with
    | (Normal a, w') => k a w'
    | (Throw e, w') => (Throw e, w')
    end.

Definition throw {A} (e : JsError) : M A := fun w => (Throw e, w).

Definition lift {A} (c : Completion A) : M A := fun w => (c, w).

Definition gets {A} (f : World -> A) : M A := fun w => (Normal (f w), w).

Definition modify (f : World -> World) : M unit := fun w => (Normal tt, f w).

(** [try { m } catch (e) { h e }] *)
Definition try_catch {A} (m : M A) (h : JsError -> M A) : M A :=
  fun w =>
    match m w with
    | (Normal a, w') => (Normal a, w')
    | (Throw e, w') => h e w'
    end.

(** A call whose outcome, returned or thrown, is handed on as a value. *)
Definition catch {A} (m : M A) : M (Completion A) :=
  fun w => let '(r, w') := m w in (Normal r, w').

Definition log (e : Effect) : M unit :=
  modify (fun w => with_trace (trace w ++ [e]) w).

Definition emit (e : Emitted) : M unit := log (Emit e).

End Client.

Notation "'let*' x ':=' m 'in' k" := (bind m (fun x => k))
  (at level 10, x name, m at level 100, k at level 200).
Notation "m ';;' k" := (bind m (fun _ => k))
  (at level 100, k at level 200, right associativity).

(** ** The methods of [src/rustplus.ts] *)
Section Methods.

Context `{P : Platform}.

(** [constructor(server, port, playerId, playerToken, useFacepunchProxy = false)] *)
Definition new_RustPlus (server port playerId playerToken : string)
    (useFacepunchProxy : option bool) : RustPlus :=
  {| seq := 0;
     seqCallbacks := ∅;
     server := server;
     port := port;
     playerId := playerId;
     playerToken := playerToken;
     _playerId := playerId;
     _playerToken := Number playerToken;
     useFacepunchProxy := default false useFacepunchProxy;
     websocket := HUndefined;
     AppRequest := None;
     AppMessage := None |}.

(** The world right after [new RustPlus(...)]. *)
Definition fresh_world (c : RustPlus) : World :=
  {| this := c; promises := ∅; timers := ∅; sockets := 0%nat; trace := [] |}.

(** *** Promises and timers *)

(** [new Promise(...)]: a new pending promise. *)
Definition new_promise : M PromiseId :=
  let* ps := gets promises in
  let p := fresh (dom ps) in
  modify (with_promises (insert p Pending)) ;;
  ret p.

(** [resolve] and [reject] act on a pending promise only. *)
Definition settle (p : PromiseId) (s : PromiseState) : M unit :=
  let* ps := gets promises in
  match ps !! p with
  | Some Pending => modify (with_promises (insert p s))
  | _ => ret tt
  end.

Definition resolve (p : PromiseId) (value : Proto.AppResponse) : M unit :=
  settle p (Fulfilled value).

Definition reject (p : PromiseId) (reason : Rejection) : M unit :=
  settle p (Rejected reason).

(** [setTimeout(() => reject(new Error(...)), ms)] *)
Definition setTimeout (ms : Z) (p : PromiseId) : M TimerId :=
  let* ts := gets timers in
  let t := fresh (dom ts) in
  modify (with_timers (insert t ({| delay := ms; rejects := p |}, true))) ;;
  ret t.

(** [clearTimeout(t)]: the timer will not fire any more. *)
Definition clearTimeout (t : TimerId) : M unit :=
  modify (with_timers (alter (fun e => (fst e, false)) t)).

Definition timeout_error : JsError :=
  Error "Timeout reached while waiting for response".

(** The timer goes off: once, and only if it is still armed. *)
Definition fire_timer (t : TimerId) : M unit :=
  let* ts := gets timers in
  match ts !! t with
  | Some (timer, true) =>
      modify (with_timers (insert t (timer, false))) ;;
      reject (rejects timer) (RejError timeout_error)
  | _ => ret tt
  end.

(** *** Connection handle *)

(** [disconnect()] *)
Definition disconnect : M unit :=
  let* c := gets this in
  match websocket c with
  | HSocket ws =>
      log (Terminate (socket_id ws)) ;;
      modify (with_this (with_websocket HNull))
  | HUndefined | HNull => ret tt
  end.

(** [isConnected()] *)
Definition isConnected : M bool :=
  let* c := gets this in
  if loosely_not_null (websocket c) then
    let* state := lift (get_readyState (websocket c)) in
    ret (ReadyState_eqb state OPEN)
  else ret false.

Definition target_address (c : RustPlus) : string :=
  if useFacepunchProxy c
  then "wss://companion-rust.facepunch.com/game/" +:+ server c +:+ "/" +:+ port c
  else "ws://" +:+ server c +:+ ":" +:+ port c.

(** [new WebSocket(address)] *)
Definition new_WebSocket (addr : string) : M WebSocket :=
  let* n := gets sockets in
  modify (with_sockets (S n)) ;;
  log (OpenSocket n addr) ;;
  ret {| socket_id := n; address := addr; readyState := CONNECTING |}.

(** [connect()]; the four listeners it installs are [deliver] below. *)
Definition connect : M unit :=
  let* c := gets this in
  (if handle_truthy (websocket c) then disconnect else ret tt) ;;
  modify (with_this with_proto) ;;
  emit EvConnecting ;;
  let* c := gets this in
  let* ws := new_WebSocket (target_address c) in
  modify (with_this (with_websocket (HSocket ws))).

(** *** Request dispatcher *)

(** [{ seq: currentSeq, playerId: this._playerId,
       playerToken: this._playerToken, ...data }]: the spread comes last,
    so a key of [data] replaces the one written before it. *)
Definition merge_request (currentSeq : Z) (c : RustPlus) (data : Proto.AppRequest)
    : Proto.AppRequest :=
  data ∪ <["seq" := VNum currentSeq]>
           (<["playerId" := VStr (_playerId c)]>
              (<["playerToken" := _playerToken c]> ∅)).

(** [sendRequest(data, callback?)].  The counter and the registry are
    written before the encoder and [send] are called; [Send] goes on
    record when [send] has returned. *)
Definition sendRequest (data : Proto.AppRequest) (callback : option callbackFn)
    : M unit :=
  let* c := gets this in
  match AppRequest c, websocket c with
  | Some Proto_AppRequest, HSocket ws =>
      let currentSeq := pre_increment (seq c) in
      modify (with_this (with_seq currentSeq)) ;;
      match callback with
      | Some cb =>
          modify (with_this (fun c =>
            with_seqCallbacks (<[currentSeq := cb]> (seqCallbacks c)) c))
      | None => ret tt
      end ;;
      let* c := gets this in
      let* request := lift (AppRequest_toBinary (merge_request currentSeq c data)) in
      lift (WebSocket_send ws request) ;;
      log (Send (socket_id ws) request) ;;
      let* sent := lift (AppRequest_fromBinary request) in
      emit (EvRequest sent)
  | _, _ => ret tt
  end.

(** [sendRequestAsync(data, timeoutMilliseconds = 10000)].  The executor
    runs at once; when it throws, [new Promise] rejects the promise with
    what it threw. *)
Definition sendRequestAsync (data : Proto.AppRequest)
    (timeoutMilliseconds : option Z) : M PromiseId :=
  let ms := default 10000 timeoutMilliseconds in
  let* promise := new_promise in
  try_catch
    (let* timeout := setTimeout ms promise in
     sendRequest data (Some (AsyncFn timeout promise)))
    (fun e => reject promise (RejError e)) ;;
  ret promise.

(** *** Response router *)

(** A call of a public method, by the caller or from inside a
    callback. *)
Definition perform (c : Call) : M Returned :=
  match c with
  | CallSendRequest data callback => sendRequest data callback ;; ret Undefined
  | CallSendRequestAsync data ms =>
      let* promise := sendRequestAsync data ms in ret (PromiseOf promise)
  | CallConnect => connect ;; ret Undefined
  | CallDisconnect => disconnect ;; ret Undefined
  | CallIsConnected => let* b := isConnected in ret (Boolean b)
  end.

(** The body of a caller's function, run against the methods
    [perform] gives it. *)
Fixpoint run_script (perform : Call -> M Returned) (s : Script)
    : M sendRequestReturnType :=
  match s with
  | Return value => ret value
  | Raise e => throw e
  | Do c next => let* r := catch (perform c) in run_script perform (next r)
  end.

(** [callback(message)] *)
Definition invoke (callback : callbackFn) (message : Proto.AppMessage)
    : M sendRequestReturnType :=
  log (Invoke callback message) ;;
  match callback with
  | UserFn f => run_script perform (f message)
  | AsyncFn timeout promise =>
      clearTimeout timeout ;;
      match Proto.response message with
      | Some r =>
          match Proto.error r with
          | Some e => reject promise (RejAppError e)
          | None => resolve promise r
          end ;;
          ret RetVoid
      | None => throw (TypeError "Cannot read properties of undefined")
      end
  end.

(** The listener for the socket's ['message'] signal. *)
Definition on_message (data : Wire) : M unit :=
  let* c := gets this in
  match AppMessage c with
  | None => ret tt
  | Some Proto_AppMessage =>
      let* message := lift (AppMessage_fromBinary data) in
      let* suppressed :=
        match Proto.response message with
        | Some r =>
            if number_truthy (Proto.seq r) then
              let* c := gets this in
              match seqCallbacks c !! Proto.seq r with
              | Some callback =>
                  let* result := invoke callback message in
                  modify (with_this (fun c =>
                    with_seqCallbacks (delete (Proto.seq r) (seqCallbacks c)) c)) ;;
                  ret (truthy result)
              | None => ret false
              end
            else ret false
        | None => ret false
        end in
      if suppressed then ret tt
      else
        let* again := lift (AppMessage_fromBinary data) in
        emit (EvMessage again)
  end.

(** *** What the transport and the clock do to the client *)

Inductive Signal : Type :=
| SigOpen (socket : nat)
| SigError (socket : nat) (e : JsError)
| SigMessage (socket : nat) (data : Wire)
| SigClose (socket : nat)
| SigTimer (t : TimerId).

(** The socket library changes [readyState] before it tells its
    listeners; the field is only visible through the current handle. *)
Definition set_readyState (socket : nat) (s : ReadyState) : M unit :=
  modify (with_this (fun c =>
    match websocket c with
    | HSocket ws =>
        if Nat.eqb (socket_id ws) socket
        then with_websocket (HSocket {| socket_id := socket_id ws;
                                        address := address ws;
                                        readyState := s |}) c
        else c
    | HUndefined | HNull => c
    end)).

(** One signal reaches the listeners [connect] installed.  A socket that
    was never opened has no listeners. *)
Definition deliver (s : Signal) : M unit :=
  let* n := gets sockets in
  match s with
  | SigOpen k =>
      if Nat.ltb k n then set_readyState k OPEN ;; emit EvConnected else ret tt
  | SigError k e =>
      if Nat.ltb k n then emit (EvError e) else ret tt
  | SigMessage k data =>
      if Nat.ltb k n then on_message data else ret tt
  | SigClose k =>
      if Nat.ltb k n then set_readyState k CLOSED ;; emit EvDisconnected else ret tt
  | SigTimer t => fire_timer t
  end.

(** Run a method and keep the world it leaves. *)
Definition exec {A} (m : M A) (w : World) : World := snd (m w).

Definition result {A} (m : M A) (w : World) : Completion A := fst (m w).

End Methods.

(** ** Runs of the client *)
Section Runs.

Context `{P : Platform}.

(** One thing that happens to a client: its owner calls a method, or the
    transport or the clock signals. *)
Inductive Step : Type :=
| Method (c : Call)
| Env (s : Signal).

Definition step (s : Step) : M unit :=
  match s with
  | Method c => perform c ;; ret tt
  | Env s => deliver s
  end.

(** The closure of [sendRequestAsync] never leaves that method: what a
    caller passes in, directly or from inside a callback, is a function
    of its own. *)
Inductive user_callback : callbackFn -> Prop :=
| user_fn f :
    (forall message, user_script (f message)) ->
    user_callback (UserFn f)
with user_script : Script -> Prop :=
| user_return value : user_script (Return value)
| user_raise e : user_script (Raise e)
| user_do c next :
    user_call c -> (forall r, user_script (next r)) -> user_script (Do c next)
with user_call : Call -> Prop :=
| user_sendRequest data callback :
    (forall cb, callback = Some cb -> user_callback cb) ->
    user_call (CallSendRequest data callback)
| user_sendRequestAsync data ms : user_call (CallSendRequestAsync data ms)
| user_connect : user_call CallConnect
| user_disconnect : user_call CallDisconnect
| user_isConnected : user_call CallIsConnected.

Definition user_step (s : Step) : Prop :=
  match s with
  | Method c => user_call c
  | Env _ => True
  end.

(** The states a client can be in: built by the constructor, then moved
    by steps. *)
Inductive reachable : World -> Prop :=
| reachable_new server port playerId playerToken proxy :
    reachable (fresh_world (new_RustPlus server port playerId playerToken proxy))
| reachable_step w s :
    reachable w -> user_step s -> reachable (exec (step s) w).

(** Codec loaded and transport handle present: the guard of
    [sendRequest]. *)
Definition ready (w : World) : Prop :=
  AppRequest (this w) = Some Proto_AppRequest /\
  exists ws, websocket (this w) = HSocket ws.

(** The sequence number each call of a run is given: the counter as the
    call leaves it ([currentSeq = ++this.seq]). *)
Fixpoint sequence_numbers (calls : list (Proto.AppRequest * option callbackFn))
    (w : World) : list Z :=
  match calls with
  | [] => []
  | (data, callback) :: rest =>
      let w' := exec (sendRequest data callback) w in
      seq (this w') :: sequence_numbers rest w'
  end.

(** The frames a piece of trace wrote to the transport, the callbacks it
    invoked and the generic notifications it raised. *)
Definition sent_frames (t : list Effect) : list Wire :=
  omap (fun e => match e with Send _ frame => Some frame | _ => None end) t.

Definition invocations (t : list Effect) : list (callbackFn * Proto.AppMessage) :=
  omap (fun e => match e with Invoke cb m => Some (cb, m) | _ => None end) t.

Definition message_notifications (t : list Effect) : list Proto.AppMessage :=
  omap (fun e => match e with Emit (EvMessage m) => Some m | _ => None end) t.

(** The effects added on the way from [w] to [w']. *)
Definition since (w w' : World) : list Effect :=
  drop (length (trace w)) (trace w').

(** The world with one more effect on record. *)
Definition logged (e : Effect) (w : World) : World :=
  with_trace (trace w ++ [e]) w.

(** The world after the dispatcher handed out a sequence number and
    registered the callback, before it encodes anything. *)
Definition numbered (callback : option callbackFn) (w : World) : World :=
  let currentSeq := pre_increment (seq (this w)) in
  let c := with_seq currentSeq (this w) in
  let c := match callback with
           | Some cb => with_seqCallbacks (<[currentSeq := cb]> (seqCallbacks c)) c
           | None => c
           end in
  {| this := c; promises := promises w; timers := timers w;
     sockets := sockets w; trace := trace w |}.

(** The frame that goes out for a request: the encoder has to take the
    request and [send] the frame. *)
Definition transmit (ws : WebSocket) (request : Proto.AppRequest) : Completion Wire :=
  match AppRequest_toBinary request with
  | Normal frame =>
      match WebSocket_send ws frame with
      | Normal _ => Normal frame
      | Throw e => Throw e
      end
  | Throw e => Throw e
  end.

(** How a dispatch through the socket [ws] ends, and the world it
    leaves behind. *)
Definition dispatched (data : Proto.AppRequest) (callback : option callbackFn)
    (ws : WebSocket) (w : World) : Completion unit * World :=
  let w0 := numbered callback w in
  match transmit ws (merge_request (pre_increment (seq (this w))) (this w) data) with
  | Throw e => (Throw e, w0)
  | Normal frame =>
      let w1 := logged (Send (socket_id ws) frame) w0 in
      match AppRequest_fromBinary frame with
      | Throw e => (Throw e, w1)
      | Normal sent => (Normal tt, logged (Emit (EvRequest sent)) w1)
      end
  end.

(** What a dispatch of [data] from [w] throws, if it throws: the
    exception of the encoder, of [send], or of the decoder behind the
    ['request'] notification.  Behind the guard nothing is thrown. *)
Definition dispatch_error (data : Proto.AppRequest) (w : World) : option JsError :=
  match AppRequest (this w), websocket (this w) with
  | Some Proto_AppRequest, HSocket ws =>
      match transmit ws (merge_request (pre_increment (seq (this w))) (this w) data) with
      | Throw e => Some e
      | Normal frame =>
          match AppRequest_fromBinary frame with
          | Throw e => Some e
          | Normal _ => None
          end
      end
  | _, _ => None
  end.

(** Effects a method call can have: anything but a callback invocation
    and a generic ['message'] notification. *)
Definition quiet (e : Effect) : Prop :=
  match e with
  | Invoke _ _ | Emit (EvMessage _) => False
  | _ => True
  end.

(** How a method call may change the world: it adds quiet effects,
    keeps a loaded codec loaded, removes no registry entry and leaves
    every existing promise and timer as it is. *)
Record call_post (w w' : World) : Prop := {
  post_trace : exists suffix, trace w' = (trace w ++ suffix)%list /\ Forall quiet suffix;
  post_codec : AppMessage (this w) = Some Proto_AppMessage ->
               AppMessage (this w') = Some Proto_AppMessage;
  post_keys : forall k, is_Some (seqCallbacks (this w) !! k) ->
                        is_Some (seqCallbacks (this w') !! k);
  post_promises : forall p s, promises w !! p = Some s -> promises w' !! p = Some s;
  post_timers : forall t x, timers w !! t = Some x -> timers w' !! t = Some x
}.

Definition settled (s : PromiseState) : Prop := s <> Pending.

(** How the callback of [sendRequestAsync] settles its promise for a
    response: rejected with the error if there is one, fulfilled with
    the response otherwise. *)
Definition outcome (r : Proto.AppResponse) : PromiseState :=
  match Proto.error r with
  | Some e => Rejected (RejAppError e)
  | None => Fulfilled r
  end.

(** The three ways a timer or a response settles the promise of
    [sendRequestAsync]: rejected with the timeout error, rejected with
    the error a response carried, fulfilled with a response that carried
    none. *)
Definition three_outcomes (s : PromiseState) : Prop :=
  match s with
  | Pending => True
  | Rejected (RejError e) => e = timeout_error
  | Rejected (RejAppError _) => True
  | Fulfilled r => Proto.error r = None
  end.

(** How the world may change at all, as far as promises and timers go:
    a settled promise stays as it is, a pending one stays on record and
    is settled, if at all, in one of the three ways, and a timer keeps
    its delay and its target. *)
Record evolves (w w' : World) : Prop := {
  evolves_settled : forall p st,
    promises w !! p = Some st -> settled st -> promises w' !! p = Some st;
  evolves_promises : forall p,
    is_Some (promises w !! p) -> is_Some (promises w' !! p);
  evolves_outcomes : forall p,
    promises w !! p = Some Pending ->
    exists st, promises w' !! p = Some st /\ three_outcomes st;
  evolves_timers : forall t timer armed,
    timers w !! t = Some (timer, armed) ->
    exists armed', timers w' !! t = Some (timer, armed')
}.

(** A method keeps a property of the world. *)
Definition preserves {A} (I : World -> Prop) (m : M A) : Prop :=
  forall w, I w -> I (exec m w).

(** A run of steps. *)
Definition run (steps : list Step) (w : World) : World :=
  foldl (fun w s => exec (step s) w) w steps.

(** The promise and the timer [sendRequestAsync] creates next, and the
    world with the two in place, before the request is dispatched. *)
Definition next_promise (w : World) : PromiseId := fresh (dom (promises w)).

Definition next_timer (w : World) : TimerId := fresh (dom (timers w)).

Definition awaiting (ms : Z) (w : World) : World :=
  {| this := this w;
     promises := <[next_promise w := Pending]> (promises w);
     timers := <[next_timer w := ({| delay := ms; rejects := next_promise w |}, true)]>
                 (timers w);
     sockets := sockets w;
     trace := trace w |}.

(** The world in which the promise [p] was rejected with a thrown
    error. *)
Definition rejected (p : PromiseId) (e : JsError) (w : World) : World :=
  with_promises (insert p (Rejected (RejError e))) w.

(** What holds in every state a client can reach. *)
Record Inv (w : World) : Prop := {
  inv_seq : 0 <= seq (this w) <= MAX_EXACT;
  inv_keys : forall k cb,
    seqCallbacks (this w) !! k = Some cb -> 0 < k <= seq (this w);
  inv_codec :
    (AppRequest (this w) = Some Proto_AppRequest /\
     AppMessage (this w) = Some Proto_AppMessage)
    \/ (AppRequest (this w) = None /\ sockets w = 0%nat /\ seq (this w) = 0);
  inv_handle : forall ws,
    websocket (this w) = HSocket ws -> (socket_id ws < sockets w)%nat
}.

(** [clearTimeout] on the table of timers. *)
Definition disarm (t : TimerId) (w : World) : World :=
  with_timers (alter (fun e => (fst e, false)) t) w.

Definition unregistered (k : Z) (w : World) : World :=
  with_this (fun c => with_seqCallbacks (delete k (seqCallbacks c)) c) w.

(** A callback fits a world when it is a caller's own function, or the
    closure of [sendRequestAsync] over a timer that rejects the very
    promise the closure settles. *)
Definition callback_ok (w : World) (callback : callbackFn) : Prop :=
  match callback with
  | UserFn _ => user_callback callback
  | AsyncFn t p =>
      exists ms armed, timers w !! t = Some ({| delay := ms; rejects := p |}, armed)
  end.

(** Every registered callback fits, every timer has its promise on
    record, and a timer that is out of service has a promise that is no
    longer pending. *)
Record Paired (w : World) : Prop := {
  paired_entries : forall k callback,
    seqCallbacks (this w) !! k = Some callback -> callback_ok w callback;
  paired_targets : forall t timer armed,
    timers w !! t = Some (timer, armed) -> is_Some (promises w !! rejects timer);
  paired_disarmed : forall t timer,
    timers w !! t = Some (timer, false) ->
    promises w !! rejects timer <> Some Pending
}.

(** How a registered callback, run on a message in the world [w], ends:
    with the value it returns or with what it throws. *)
Definition return_value (callback : callbackFn) (message : Proto.AppMessage)
    (w : World) : Completion sendRequestReturnType :=
  result (invoke callback message) w.

(** What the router does with a frame that matched [callback]: the
    callback runs; when it returns, the entry is removed and the message
    notified unless the value is truthy; when it throws, that is all. *)
Definition routed (callback : callbackFn) (message : Proto.AppMessage)
    (r : Proto.AppResponse) (w : World) : Completion unit * World :=
  match invoke callback message w with
  | (Normal value, w1) =>
      let w2 := unregistered (Proto.seq r) w1 in
      (Normal tt, if truthy value then w2 else logged (Emit (EvMessage message)) w2)
  | (Throw e, w1) => (Throw e, w1)
  end.

End Runs.


(** ** A sample platform and sample clients

    The loopback codec puts the object itself on the wire, so a frame shows
    what was encoded; its [Number] reads decimal text only.  The worlds
    below are concrete states on which the methods can be run. *)
Module Loopback.

Inductive Frame : Type :=
| RequestFrame (r : Proto.AppRequest)
| MessageFrame (m : Proto.AppMessage)
| Malformed.

Definition digit (a : Ascii.ascii) : option Z :=
  let n := Z.of_N (Ascii.N_of_ascii a) in
  if (48 <=? n) && (n <=? 57) then Some (n - 48) else None.

Fixpoint decimal (acc : Z) (s : string) : JsVal :=
  match s with
  | EmptyString => VNum acc
  | String a rest =>
      match digit a with
      | Some d => decimal (10 * acc + d) rest
      | None => VNaN
      end
  end.

(** The loopback encoder checks the two [uint32] fields the core and
    its convenience calls fill in, as the generated encoder does. *)
Definition fits_uint32 (field : option JsVal) : bool :=
  match field with
  | None => true
  | Some (VNum z) => (0 <=? z) && (z <=? 4294967295)
  | Some _ => false
  end.

Definition encode (r : Proto.AppRequest) : Completion Frame :=
  if fits_uint32 (r !! "seq") && fits_uint32 (r !! "entityId")
  then Normal (RequestFrame r)
  else Throw (Error "invalid uint 32").

(** The loopback socket takes frames once it is open, and throws while
    it is still connecting, as the socket library does. *)
Definition send (ws : WebSocket) (frame : Frame) : Completion unit :=
  match readyState ws with
  | CONNECTING => Throw (Error "WebSocket is not open: readyState 0 (CONNECTING)")
  | OPEN | CLOSING | CLOSED => Normal tt
  end.

Definition platform : Platform :=
  {| Wire := Frame;
     AppRequest_toBinary := encode;
     AppRequest_fromBinary := fun f =>
       match f with
       | RequestFrame r => Normal r
       | _ => Throw (Error "illegal tag")
       end;
     AppMessage_fromBinary := fun f =>
       match f with
       | MessageFrame m => Normal m
       | _ => Throw (Error "illegal tag")
       end;
     Number := decimal 0;
     WebSocket_send := send |}.

Abbreviation World := (@World platform).

(** [new RustPlus("203.0.113.7", "28082", "76561198000000000", "123456")] *)
Definition client : RustPlus :=
  new_RustPlus (P := platform) "203.0.113.7" "28082" "76561198000000000" "123456" None.

Definition constructed : World := fresh_world client.

(** ... after [connect()] ... *)
Definition connecting : World := exec connect constructed.

(** ... and after the socket's ['open']. *)
Definition connected : World := exec (deliver (SigOpen 0%nat)) connecting.

(** The same client with its counter at the end of the exact range. *)
Definition saturated : World := with_this (with_seq MAX_EXACT) connected.

(** [{ getTime: {} }] *)
Definition getTime : Proto.AppRequest := {[ "getTime" := VObj FNil ]}.

(** A payload that names the dispatcher's own fields. *)
Definition forged : Proto.AppRequest :=
  <["seq" := VNum 99]> (<["playerId" := VStr "0"]>
    (<["playerToken" := VNum 0]> getTime)).

(** A response with its sequence number, with or without an error;
    the message around it; the frame it arrives in. *)
Definition response_of (n : Z) (e : option Proto.AppError) : Proto.AppResponse :=
  {| Proto.seq := n; Proto.error := e; Proto.payload := FNil |}.

Definition message_of (n : Z) (e : option Proto.AppError) : Proto.AppMessage :=
  {| Proto.response := Some (response_of n e); Proto.broadcast := None |}.

Definition response_frame (n : Z) (e : option Proto.AppError) : Frame :=
  MessageFrame (message_of n e).

Definition not_found : Proto.AppError := {| Proto.error_code := "not_found" |}.

(** Callbacks that answer [undefined], [true], and a Promise; one that
    throws; and one that sends a request of its own, whatever becomes of
    it, before it answers. *)
Definition plain : callbackFn := UserFn (fun _ => Return RetVoid).
Definition suppressing : callbackFn := UserFn (fun _ => Return (RetBool true)).
Definition asynchronous : callbackFn := UserFn (fun _ => Return RetPromise).
Definition failing : callbackFn := UserFn (fun _ => Raise (Error "callback failed")).
Definition chaining : callbackFn :=
  UserFn (fun _ => Do (CallSendRequest getTime None) (fun _ => Return RetVoid)).

(** The connected client after [sendRequest({ getTime: {} }, callback)]:
    the callback waits under sequence number 1. *)
Definition waiting (callback : callbackFn) : World :=
  exec (sendRequest getTime (Some callback)) connected.

(** The connected client after [sendRequestAsync({ getTime: {} })]. *)
Definition awaited : World := exec (sendRequestAsync getTime None) connected.

End Loopback.

(** Unfolding the plumbing of [M]. *)
Ltac unfold_monad :=
  unfold bind, ret, gets, modify, lift, throw, try_catch, catch, emit, log, exec,
    result in *.


(** ** The convenience calls of [src/rustplus.ts]

    Each one builds an object literal and hands it to [sendRequest].  A
    parameter typed [number] (or [any]) is taken as the value the caller
    passes. *)
Section Convenience.

Context `{P : Platform}.

(** [{ value: value }] and friends: an object with one field. *)
Definition object1 (key : string) (value : JsVal) : JsVal :=
  VObj (FCons key value FNil).

(** [setEntityValue(entityId, value, callback?)] *)
Definition setEntityValue (entityId : JsVal) (value : bool)
    (callback : option callbackFn) : M unit :=
  sendRequest
    (<["entityId" := entityId]>
       (<["setEntityValue" := object1 "value" (VBool value)]> ∅))
    callback.

(** [turnSmartSwitchOn(entityId, callback?)] *)
Definition turnSmartSwitchOn (entityId : JsVal) (callback : option callbackFn)
    : M unit :=
  setEntityValue entityId true callback.

(** [turnSmartSwitchOff(entityId, callback?)] *)
Definition turnSmartSwitchOff (entityId : JsVal) (callback : option callbackFn)
    : M unit :=
  setEntityValue entityId false callback.

(** [sendTeamMessage(message, callback?)] *)
Definition sendTeamMessage (message : string) (callback : option callbackFn)
    : M unit :=
  sendRequest (<["sendTeamMessage" := object1 "message" (VStr message)]> ∅) callback.

(** [getEntityInfo(entityId, callback?)] *)
Definition getEntityInfo (entityId : JsVal) (callback : option callbackFn)
    : M unit :=
  sendRequest
    (<["entityId" := entityId]> (<["getEntityInfo" := VObj FNil]> ∅))
    callback.

(** [getMap(callback?)] *)
Definition getMap (callback : option callbackFn) : M unit :=
  sendRequest (<["getMap" := VObj FNil]> ∅) callback.

(** [getTime(callback?)] *)
Definition getTime (callback : option callbackFn) : M unit :=
  sendRequest (<["getTime" := VObj FNil]> ∅) callback.

(** [getMapMarkers(callback?)] *)
Definition getMapMarkers (callback : option callbackFn) : M unit :=
  sendRequest (<["getMapMarkers" := VObj FNil]> ∅) callback.

(** [getInfo(callback)]: here the callback is not optional. *)
Definition getInfo (callback : callbackFn) : M unit :=
  sendRequest (<["getInfo" := VObj FNil]> ∅) (Some callback).

(** [getTeamInfo(callback?)] *)
Definition getTeamInfo (callback : option callbackFn) : M unit :=
  sendRequest (<["getTeamInfo" := VObj FNil]> ∅) callback.

(** [subscribeToCamera(identifier, callback?)] *)
Definition subscribeToCamera (identifier : string) (callback : option callbackFn)
    : M unit :=
  sendRequest (<["cameraSubscribe" := object1 "cameraId" (VStr identifier)]> ∅) callback.

(** [unsubscribeFromCamera(callback?)] *)
Definition unsubscribeFromCamera (callback : option callbackFn) : M unit :=
  sendRequest (<["cameraUnsubscribe" := VObj FNil]> ∅) callback.

(** [sendCameraInput(buttons, x, y, callback?)] *)
Definition sendCameraInput (buttons x y : JsVal) (callback : option callbackFn)
    : M unit :=
  sendRequest
    (<["cameraInput" :=
         VObj (FCons "buttons" buttons
                 (FCons "mouseDelta"
                    (VObj (FCons "x" x (FCons "y" y FNil))) FNil))]> ∅)
    callback.

(** The convenience calls, as data: which one, with which arguments. *)
Inductive Convenience : Type :=
| SetEntityValue (entityId : JsVal) (value : bool) (callback : option callbackFn)
| TurnSmartSwitchOn (entityId : JsVal) (callback : option callbackFn)
| TurnSmartSwitchOff (entityId : JsVal) (callback : option callbackFn)
| SendTeamMessage (message : string) (callback : option callbackFn)
| GetEntityInfo (entityId : JsVal) (callback : option callbackFn)
| GetMap (callback : option callbackFn)
| GetTime (callback : option callbackFn)
| GetMapMarkers (callback : option callbackFn)
| GetInfo (callback : callbackFn)
| GetTeamInfo (callback : option callbackFn)
| SubscribeToCamera (identifier : string) (callback : option callbackFn)
| UnsubscribeFromCamera (callback : option callbackFn)
| SendCameraInput (buttons x y : JsVal) (callback : option callbackFn).

Definition call (c : Convenience) : M unit :=
  match c with
  | SetEntityValue entityId value callback => setEntityValue entityId value callback
  | TurnSmartSwitchOn entityId callback => turnSmartSwitchOn entityId callback
  | TurnSmartSwitchOff entityId callback => turnSmartSwitchOff entityId callback
  | SendTeamMessage message callback => sendTeamMessage message callback
  | GetEntityInfo entityId callback => getEntityInfo entityId callback
  | GetMap callback => getMap callback
  | GetTime callback => getTime callback
  | GetMapMarkers callback => getMapMarkers callback
  | GetInfo callback => getInfo callback
  | GetTeamInfo callback => getTeamInfo callback
  | SubscribeToCamera identifier callback => subscribeToCamera identifier callback
  | UnsubscribeFromCamera callback => unsubscribeFromCamera callback
  | SendCameraInput buttons x y callback => sendCameraInput buttons x y callback
  end.

(** The callback a convenience call was given. *)
Definition callback_of (c : Convenience) : option callbackFn :=
  match c with
  | SetEntityValue _ _ callback | TurnSmartSwitchOn _ callback
  | TurnSmartSwitchOff _ callback | SendTeamMessage _ callback
  | GetEntityInfo _ callback | GetMap callback | GetTime callback
  | GetMapMarkers callback | GetTeamInfo callback
  | SubscribeToCamera _ callback | UnsubscribeFromCamera callback
  | SendCameraInput _ _ _ callback => callback
  | GetInfo callback => Some callback
  end.

(** The sockets a piece of trace terminated. *)
Definition terminated (t : list Effect) : list nat :=
  omap (fun e => match e with Terminate k => Some k | _ => None end) t.

(** At most one socket is in use: every socket the client opened, other
    than the one its handle holds, was terminated. *)
Definition one_live_socket (w : World) : Prop :=
  forall k, (k < sockets w)%nat ->
    (exists ws, websocket (this w) = HSocket ws /\ socket_id ws = k)
    \/ In k (terminated (trace w)).

(** The codec gives back what it was given. *)
Definition round_trips : Prop :=
  forall r frame,
    AppRequest_toBinary r = Normal frame -> AppRequest_fromBinary frame = Normal r.

End Convenience.

Section Lifecycle.

Context `{P : Platform}.

(** The steps that only concern the connection: [connect()],
    [disconnect()] and the socket's ['open'], ['error'] and ['close']. *)
Definition lifecycle (s : Step) : Prop :=
  match s with
  | Method CallConnect | Method CallDisconnect => True
  | Env (SigOpen _) | Env (SigError _ _) | Env (SigClose _) => True
  | _ => False
  end.

(** The part of the world the connection has no business with. *)
Definition same_requests (w w' : World) : Prop :=
  seq (this w') = seq (this w)
  /\ seqCallbacks (this w') = seqCallbacks (this w)
  /\ promises w' = promises w
  /\ timers w' = timers w.

End Lifecycle.

Module LoopbackRuns.

Import Loopback.

(** The connected client after a second [connect()] and the new
    socket's ['open']: socket 0 was replaced by socket 1. *)
Definition reconnected : World :=
  run [Method CallConnect; Env (SigOpen 1%nat)] connected.

(** Losing the connection and making it again. *)
Definition outage : list (@Step platform) :=
  [Env (SigClose 0%nat); Method CallDisconnect; Method CallConnect; Env (SigOpen 1%nat)].

(** The socket the connected client holds. *)
Definition socket : WebSocket :=
  {| socket_id := 0; address := "ws://203.0.113.7:28082"; readyState := OPEN |}.

End LoopbackRuns.

(** ** The older client, [rustplus.js]

    The same object without the typed class's [_playerId], [_playerToken],
    [disconnect], [isConnected] and [sendRequestAsync]; its methods read
    and write the fields both have.  Its codec is protobufjs:
    [fromObject], [encode(...).finish()] and [decode], each of which may
    throw. *)
Class Protobufjs `{P : Platform} : Type := {
  fromObject : Proto.AppRequest -> Completion Proto.AppRequest;
  encode_finish : Proto.AppRequest -> Completion Wire;
  decode : Wire -> Completion Proto.AppMessage
}.

Module Legacy.

Section Methods.

Context `{P : Platform} `{L : !Protobufjs}.

(** [{ seq: currentSeq, playerId: this.playerId, playerToken:
      this.playerToken }], then [{...payload, ...data}]. *)
Definition merge_payload (currentSeq : Z) (c : RustPlus) (data : Proto.AppRequest)
    : Proto.AppRequest :=
  data ∪ <["seq" := VNum currentSeq]>
           (<["playerId" := VStr (playerId c)]>
              (<["playerToken" := VStr (playerToken c)]> ∅)).

(** [sendRequest(data, callback)]: no guard.  A method called on a field
    that is still [undefined] throws a [TypeError]. *)
Definition sendRequest (data : Proto.AppRequest) (callback : option callbackFn)
    : M unit :=
  let* c := gets this in
  let currentSeq := pre_increment (seq c) in
  modify (with_this (with_seq currentSeq)) ;;
  match callback with
  | Some cb =>
      modify (with_this (fun c =>
        with_seqCallbacks (<[currentSeq := cb]> (seqCallbacks c)) c))
  | None => ret tt
  end ;;
  let* c := gets this in
  let payload := merge_payload currentSeq c data in
  match AppRequest c with
  | None => throw (TypeError "Cannot read properties of undefined (reading 'fromObject')")
  | Some Proto_AppRequest =>
      let* message := lift (fromObject payload) in
      match websocket c with
      | HSocket ws =>
          let* frame := lift (encode_finish message) in
          lift (WebSocket_send ws frame) ;;
          log (Send (socket_id ws) frame) ;;
          emit (EvRequest message)
      | HUndefined | HNull =>
          throw (TypeError "Cannot read properties of undefined (reading 'send')")
      end
  end.

(** What [protobuf.load(...).then(...)] runs once the schema is loaded:
    the body of [connect()].  It does not look at the handle it
    replaces. *)
Definition on_loaded : M unit :=
  modify (with_this with_proto) ;;
  emit EvConnecting ;;
  let* c := gets this in
  let* ws := new_WebSocket (target_address c) in
  modify (with_this (with_websocket (HSocket ws))).

(** [connect()] returns at once; what it hands to [then] runs later. *)
Definition connect : M (M unit) := ret on_loaded.

(** [constructor(server, port, playerId, playerToken, useFacepunchProxy =
    false)]: the fields, then [this.connect()].  The two fields only the
    typed class has are left at a value nothing here reads. *)
Definition new_RustPlus (server port playerId playerToken : string)
    (useFacepunchProxy : option bool) : RustPlus :=
  {| seq := 0;
     seqCallbacks := ∅;
     server := server;
     port := port;
     playerId := playerId;
     playerToken := playerToken;
     _playerId := "";
     _playerToken := VUndefined;
     useFacepunchProxy := default false useFacepunchProxy;
     websocket := HUndefined;
     AppRequest := None;
     AppMessage := None |}.

(** A call from inside a callback.  The older class has [sendRequest] and
    [connect]; calling a method it lacks is a [TypeError]. *)
Definition perform (c : Call) : M Returned :=
  match c with
  | CallSendRequest data callback => sendRequest data callback ;; ret Undefined
  | CallConnect => connect ;; ret Undefined
  | CallSendRequestAsync _ _ =>
      throw (TypeError "this.sendRequestAsync is not a function")
  | CallDisconnect => throw (TypeError "this.disconnect is not a function")
  | CallIsConnected => throw (TypeError "this.isConnected is not a function")
  end.

(** [callback(message)]: a function runs its own body whoever calls it;
    what differs from the typed class is what a call back into the client
    reaches. *)
Definition invoke (callback : callbackFn) (message : Proto.AppMessage)
    : M sendRequestReturnType :=
  log (Invoke callback message) ;;
  match callback with
  | UserFn f => run_script perform (f message)
  | AsyncFn timeout promise =>
      clearTimeout timeout ;;
      match Proto.response message with
      | Some r =>
          match Proto.error r with
          | Some e => reject promise (RejAppError e)
          | None => resolve promise r
          end ;;
          ret RetVoid
      | None => throw (TypeError "Cannot read properties of undefined")
      end
  end.

(** The listener for the socket's ['message'] signal. *)
Definition on_message (data : Wire) : M unit :=
  let* c := gets this in
  match AppMessage c with
  | None => throw (TypeError "Cannot read properties of undefined (reading 'decode')")
  | Some Proto_AppMessage =>
      let* message := lift (decode data) in
      let* suppressed :=
        match Proto.response message with
        | Some r =>
            if number_truthy (Proto.seq r) then
              let* c := gets this in
              match seqCallbacks c !! Proto.seq r with
              | Some callback =>
                  let* result := invoke callback message in
                  modify (with_this (fun c =>
                    with_seqCallbacks (delete (Proto.seq r) (seqCallbacks c)) c)) ;;
                  ret (truthy result)
              | None => ret false
              end
            else ret false
        | None => ret false
        end in
      if suppressed then ret tt
      else
        let* again := lift (decode data) in
        emit (EvMessage again)
  end.

(** A callback that does not call back into the client. *)
Definition no_calls (callback : callbackFn) : Prop :=
  match callback with
  | UserFn f =>
      forall message,
        match f message with
        | Return _ | Raise _ => True
        | Do _ _ => False
        end
  | AsyncFn _ _ => True
  end.

End Methods.

End Legacy.

Module LegacyLoopback.

Import Loopback.

(** protobufjs over the loopback frames: [fromObject] and the encoder
    accept every object, and the decoder is the loopback decoder. *)
Definition protobufjs : @Protobufjs platform :=
  @Build_Protobufjs platform
    (fun r => Normal r)
    (fun r => Normal (RequestFrame r))
    (@AppMessage_fromBinary platform).

(** [new RustPlus(...)] of the older class, before its schema is loaded,
    and after. *)
Definition constructed : World :=
  fresh_world (Legacy.new_RustPlus "203.0.113.7" "28082" "76561198000000000" "123456" None).

Definition loaded : World := exec (Legacy.on_loaded (P := platform)) constructed.

(** ... after the socket's ['open'], whose listener only emits
    ['connected'] in both classes ... *)
Definition opened : World := exec (deliver (SigOpen 0%nat)) loaded.

(** ... and after [sendRequest({ getTime: {} }, callback)]. *)
Definition waiting (callback : callbackFn) : World :=
  exec (Legacy.sendRequest (L := protobufjs) getTime (Some callback)) opened.

(** The socket the loaded client holds, and the same once it is open. *)
Definition socket : WebSocket :=
  {| socket_id := 0; address := "ws://203.0.113.7:28082"; readyState := CONNECTING |}.

Definition open_socket : WebSocket :=
  {| socket_id := 0; address := "ws://203.0.113.7:28082"; readyState := OPEN |}.

End LegacyLoopback.
(** * Properties *)

Section Dispatcher.

Context `{P : Platform}.

Lemma pre_increment_exact x : x < MAX_EXACT -> pre_increment x = x + 1.
Proof.
  intros Hx. unfold pre_increment.
  destruct (Z.ltb_spec x MAX_EXACT); [reflexivity | lia].
Qed.

Lemma pre_increment_saturated x : MAX_EXACT <= x -> pre_increment x = x.
Proof.
  intros Hx. unfold pre_increment.
  destruct (Z.ltb_spec x MAX_EXACT); [lia | reflexivity].
Qed.

(** Behind the guard, [sendRequest] is a dispatch through the socket of
    the handle. *)
Lemma sendRequest_ready data callback w ws :
  AppRequest (this w) = Some Proto_AppRequest ->
  websocket (this w) = HSocket ws ->
  sendRequest data callback w = dispatched data callback ws w.
Proof.
  intros Hcodec Hws.
  unfold sendRequest, dispatched, transmit, bind, gets, lift. cbn.
  rewrite Hcodec, Hws.
  destruct callback as [cb|]; cbn; unfold merge_request; cbn;
    (destruct (AppRequest_toBinary _) as [frame|e]; cbn; [|reflexivity]);
    (destruct (WebSocket_send ws frame) as [[]|e]; cbn; [|reflexivity]);
    destruct (AppRequest_fromBinary frame) as [sent|e]; cbn;
    unfold numbered, logged, emit, log, modify, with_this, with_trace; cbn;
    rewrite <- ?app_assoc; reflexivity.
Qed.

Lemma sendRequest_unready data callback w :
  AppRequest (this w) = None \/ handle_truthy (websocket (this w)) = false ->
  sendRequest data callback w = (Normal tt, w).
Proof.
  intros H. unfold sendRequest, bind, gets. cbn.
  destruct (AppRequest (this w)) as [[]|], (websocket (this w));
    cbn in *; try reflexivity; destruct H; discriminate.
Qed.

(** Every field of the world but the trace is settled once the request
    is numbered; what the encoder and [send] do only shows in the
    trace. *)
Lemma dispatched_world data callback ws w :
  let w1 := snd (dispatched data callback ws w) in
  this w1 = this (numbered callback w)
  /\ promises w1 = promises w
  /\ timers w1 = timers w
  /\ sockets w1 = sockets w
  /\ exists suffix, trace w1 = (trace w ++ suffix)%list /\ Forall quiet suffix.
Proof.
  unfold dispatched.
  destruct (transmit ws _) as [frame|e]; cbn.
  - destruct (AppRequest_fromBinary frame) as [sent|e]; cbn;
      repeat split; eexists; (split; [rewrite <- ?app_assoc; reflexivity|]);
      repeat constructor.
  - repeat split. exists []. split; [symmetry; apply app_nil_r | constructor].
Qed.

Lemma dispatched_result data callback ws w :
  AppRequest (this w) = Some Proto_AppRequest ->
  websocket (this w) = HSocket ws ->
  fst (dispatched data callback ws w) =
  match dispatch_error data w with
  | Some e => Throw e
  | None => Normal tt
  end.
Proof.
  intros Hcodec Hws. unfold dispatched, dispatch_error. rewrite Hcodec, Hws.
  destruct (transmit ws _) as [frame|e]; [|reflexivity].
  destruct (AppRequest_fromBinary frame); reflexivity.
Qed.

Lemma sendRequest_result data callback w :
  result (sendRequest data callback) w =
  match dispatch_error data w with
  | Some e => Throw e
  | None => Normal tt
  end.
Proof.
  unfold result.
  destruct (AppRequest (this w)) as [[]|] eqn:Hcodec.
  - destruct (websocket (this w)) as [| |ws] eqn:Hws.
    1,2: rewrite sendRequest_unready by (right; rewrite Hws; reflexivity);
         unfold dispatch_error; rewrite Hcodec, Hws; reflexivity.
    rewrite (sendRequest_ready data callback w ws Hcodec Hws).
    apply dispatched_result; assumption.
  - rewrite sendRequest_unready by (left; exact Hcodec).
    unfold dispatch_error. rewrite Hcodec. reflexivity.
Qed.

Lemma sendRequest_numbered data callback w :
  ready w ->
  let w1 := exec (sendRequest data callback) w in
  this w1 = this (numbered callback w)
  /\ promises w1 = promises w
  /\ timers w1 = timers w
  /\ sockets w1 = sockets w
  /\ exists suffix, trace w1 = (trace w ++ suffix)%list /\ Forall quiet suffix.
Proof.
  intros [Hcodec [ws Hws]]. unfold exec.
  rewrite (sendRequest_ready data callback w ws Hcodec Hws).
  apply dispatched_world.
Qed.

Lemma numbered_seq callback w :
  seq (this (numbered callback w)) = pre_increment (seq (this w)).
Proof. unfold numbered. destruct callback; reflexivity. Qed.

Lemma numbered_seqCallbacks callback w :
  seqCallbacks (this (numbered callback w)) =
  match callback with
  | Some cb => <[pre_increment (seq (this w)) := cb]> (seqCallbacks (this w))
  | None => seqCallbacks (this w)
  end.
Proof. unfold numbered. destruct callback; reflexivity. Qed.

Lemma numbered_fields callback w :
  websocket (this (numbered callback w)) = websocket (this w)
  /\ AppRequest (this (numbered callback w)) = AppRequest (this w)
  /\ AppMessage (this (numbered callback w)) = AppMessage (this w).
Proof. unfold numbered. destruct callback; repeat split. Qed.

Lemma sendRequest_seq data callback w :
  ready w ->
  seq (this (exec (sendRequest data callback) w)) = pre_increment (seq (this w)).
Proof.
  intros Hready.
  destruct (sendRequest_numbered data callback w Hready) as (-> & _).
  apply numbered_seq.
Qed.

Lemma sendRequest_seqCallbacks data callback w :
  ready w ->
  seqCallbacks (this (exec (sendRequest data callback) w)) =
  match callback with
  | Some cb => <[pre_increment (seq (this w)) := cb]> (seqCallbacks (this w))
  | None => seqCallbacks (this w)
  end.
Proof.
  intros Hready.
  destruct (sendRequest_numbered data callback w Hready) as (-> & _).
  apply numbered_seqCallbacks.
Qed.

(** The handle and the codec are none of the dispatcher's business. *)
Lemma sendRequest_fields data callback w :
  let w1 := exec (sendRequest data callback) w in
  websocket (this w1) = websocket (this w)
  /\ AppRequest (this w1) = AppRequest (this w)
  /\ AppMessage (this w1) = AppMessage (this w)
  /\ sockets w1 = sockets w.
Proof.
  cbv zeta.
  destruct (AppRequest (this w)) as [[]|] eqn:Hcodec.
  - destruct (websocket (this w)) as [| |ws] eqn:Hws.
    1,2: unfold exec; rewrite sendRequest_unready
           by (right; rewrite Hws; reflexivity); cbn; repeat split; assumption.
    destruct (sendRequest_numbered data callback w) as (-> & _ & _ & -> & _);
      [split; [exact Hcodec | exists ws; exact Hws]|].
    destruct (numbered_fields callback w) as (-> & -> & ->).
    repeat split; assumption.
  - unfold exec. rewrite sendRequest_unready by (left; exact Hcodec).
    cbn. repeat split. exact Hcodec.
Qed.

Lemma sendRequest_keeps_ready data callback w :
  ready w -> ready (exec (sendRequest data callback) w).
Proof.
  intros Hready.
  destruct (sendRequest_fields data callback w) as (Hws & Hcodec & _).
  unfold ready. rewrite Hws, Hcodec. exact Hready.
Qed.

Lemma sequence_numbers_exact calls : forall w,
  ready w ->
  seq (this w) + Z.of_nat (length calls) <= MAX_EXACT ->
  sequence_numbers calls w = seqZ (seq (this w) + 1) (Z.of_nat (length calls)).
Proof.
  induction calls as [|[data callback] rest IH]; intros w Hready Hbound.
  - reflexivity.
  - cbn [sequence_numbers].
    change (length ((data, callback) :: rest)) with (S (length rest)) in *.
    rewrite Nat2Z.inj_succ in Hbound.
    pose proof (sendRequest_seq data callback w Hready) as Hseq.
    rewrite pre_increment_exact in Hseq by lia.
    rewrite IH.
    + rewrite Hseq.
      rewrite Nat2Z.inj_succ, (seqZ_cons _ (Z.succ _)) by lia.
      f_equal. f_equal; lia.
    + apply sendRequest_keeps_ready, Hready.
    + rewrite Hseq. lia.
Qed.

Lemma seqZ_strictly_sorted len : forall m, StronglySorted Z.lt (seqZ m (Z.of_nat len)).
Proof.
  induction len as [|len IH]; intros m.
  - constructor.
  - rewrite Nat2Z.inj_succ, seqZ_cons by lia.
    constructor.
    + replace (Z.pred (Z.succ (Z.of_nat len))) with (Z.of_nat len) by lia. apply IH.
    + apply Forall_forall. intros x Hx.
      apply elem_of_seqZ in Hx. lia.
Qed.

Lemma merge_request_seq currentSeq c (data : Proto.AppRequest) :
  data !! "seq" = None ->
  merge_request currentSeq c data !! "seq" = Some (VNum currentSeq).
Proof.
  intros Hdata. unfold merge_request.
  rewrite lookup_union_r by exact Hdata.
  apply lookup_insert_eq.
Qed.

Lemma sent_frames_app (t1 t2 : list Effect) :
  sent_frames (t1 ++ t2) = (sent_frames t1 ++ sent_frames t2)%list.
Proof. apply omap_app. Qed.

(** The frames of a dispatch: the one the encoder made, if the encoder
    made one and [send] took it, and none otherwise. *)
Lemma dispatched_frames data callback ws w :
  sent_frames (trace (snd (dispatched data callback ws w))) =
  (sent_frames (trace w) ++
     match transmit ws (merge_request (pre_increment (seq (this w))) (this w) data) with
     | Normal frame => [frame]
     | Throw _ => []
     end)%list.
Proof.
  unfold dispatched.
  destruct (transmit ws _) as [frame|e]; cbn -[sent_frames].
  - destruct (AppRequest_fromBinary frame) as [sent|e]; cbn -[sent_frames];
      rewrite !sent_frames_app; cbn; rewrite ?app_nil_r; reflexivity.
  - rewrite app_nil_r. reflexivity.
Qed.

Lemma transmit_accepted ws request frame :
  AppRequest_toBinary request = Normal frame ->
  WebSocket_send ws frame = Normal tt ->
  transmit ws request = Normal frame.
Proof. intros Hencode Hsend. unfold transmit. rewrite Hencode, Hsend. reflexivity. Qed.

Lemma sendRequest_frames data callback w ws frame :
  AppRequest (this w) = Some Proto_AppRequest ->
  websocket (this w) = HSocket ws ->
  AppRequest_toBinary (merge_request (pre_increment (seq (this w))) (this w) data)
    = Normal frame ->
  WebSocket_send ws frame = Normal tt ->
  sent_frames (trace (exec (sendRequest data callback) w)) =
  (sent_frames (trace w) ++ [frame])%list.
Proof.
  intros Hcodec Hws Hencode Hsend. unfold exec.
  rewrite (sendRequest_ready data callback w ws Hcodec Hws), dispatched_frames.
  rewrite (transmit_accepted ws _ frame Hencode Hsend). reflexivity.
Qed.

(** C1 (as amended): while the counter stays inside the exact integer
    range, a run of calls to [sendRequest] on a client with codec and
    transport handle is numbered consecutively from the counter on:
    strictly increasing, without repeats, one more per call, whether or
    not the encoder and the transport take the request; and from a
    counter at 0 the first frame written, for a payload without a field
    [seq] of its own, is the encoding of a request that carries sequence
    number 1. *)
Theorem sequence_numbers_increase_within_exact_range
    (w : World) (calls : list (Proto.AppRequest * option callbackFn)) :
  ready w ->
  seq (this w) + Z.of_nat (length calls) <= MAX_EXACT ->
  sequence_numbers calls w = seqZ (seq (this w) + 1) (Z.of_nat (length calls))
  /\ StronglySorted Z.lt (sequence_numbers calls w)
  /\ NoDup (sequence_numbers calls w)
  /\ forall data callback rest,
       calls = (data, callback) :: rest ->
       seq (this (exec (sendRequest data callback) w)) = seq (this w) + 1
       /\ (seq (this w) = 0 ->
           data !! "seq" = None ->
           exists request,
             request !! "seq" = Some (VNum 1)
             /\ forall ws frame,
                  websocket (this w) = HSocket ws ->
                  AppRequest_toBinary request = Normal frame ->
                  WebSocket_send ws frame = Normal tt ->
                  sent_frames (trace (exec (sendRequest data callback) w)) =
                    (sent_frames (trace w) ++ [frame])%list).
Proof.
  intros Hready Hbound.
  pose proof (sequence_numbers_exact calls w Hready Hbound) as Hnumbers.
  rewrite Hnumbers.
  split; [reflexivity|].
  split; [apply seqZ_strictly_sorted|].
  split; [apply NoDup_seqZ|].
  intros data callback rest ->.
  change (length ((data, callback) :: rest)) with (S (length rest)) in Hbound.
  rewrite Nat2Z.inj_succ in Hbound.
  split.
  - rewrite sendRequest_seq by exact Hready.
    apply pre_increment_exact. lia.
  - intros Hzero Hdata.
    exists (merge_request (pre_increment (seq (this w))) (this w) data).
    split.
    + rewrite Hzero. apply merge_request_seq, Hdata.
    + intros ws frame Hws Hencode Hsend.
      apply (sendRequest_frames data callback w ws frame);
        [apply Hready | assumption..].
Qed.

End Dispatcher.

Section DispatcherOnLoopback.

Import Loopback.

Lemma connected_ready : ready (P := platform) connected.
Proof. split; [reflexivity | eexists; reflexivity]. Qed.

Lemma saturated_ready : ready (P := platform) saturated.
Proof. split; [reflexivity | eexists; reflexivity]. Qed.

Lemma two_calls_numbered_1_2 :
  ready (P := platform) connected
  /\ seq (this connected) + Z.of_nat (length [(getTime, Some plain); (getTime, None)])
       <= MAX_EXACT
  /\ sequence_numbers (P := platform)
       [(getTime, Some plain); (getTime, None)] connected = seqZ (0 + 1) 2.
Proof.
  split; [exact connected_ready|].
  split; [vm_compute; discriminate|].
  apply (sequence_numbers_increase_within_exact_range (P := platform) connected
           [(getTime, Some plain); (getTime, None)]).
  - exact connected_ready.
  - vm_compute; discriminate.
Defined.

(** C1 (as stated) fails where the number type runs out of exact
    integers: at [2^53] a call leaves the counter where it was, and two
    calls in a row are given the same sequence number. *)
Lemma sequence_number_repeats_at_2_pow_53 :
  ready (P := platform) saturated
  /\ seq (this saturated) = 9007199254740992
  /\ seq (this (exec (sendRequest getTime None) saturated)) = 9007199254740992
  /\ sequence_numbers (P := platform) [(getTime, None); (getTime, None)] saturated
     = [9007199254740992; 9007199254740992]
  /\ ~ NoDup (sequence_numbers (P := platform)
                [(getTime, None); (getTime, None)] saturated).
Proof.
  split; [exact saturated_ready|].
  split; [reflexivity|].
  split; [vm_compute; reflexivity|].
  assert (sequence_numbers (P := platform) [(getTime, None); (getTime, None)] saturated
          = [9007199254740992; 9007199254740992]) as Heq
    by (vm_compute; reflexivity).
  split; [exact Heq|].
  rewrite Heq. intros Hnodup.
  apply NoDup_cons in Hnodup as [Hnotin _].
  apply Hnotin. left.
Qed.

End DispatcherOnLoopback.

(** ** Method calls are quiet *)
Section Calls.

Context `{P : Platform}.

Lemma call_post_refl w : call_post w w.
Proof.
  split; [exists []; split; [symmetry; apply app_nil_r | constructor]
         | tauto | tauto | tauto | tauto].
Qed.

Lemma call_post_trans w1 w2 w3 :
  call_post w1 w2 -> call_post w2 w3 -> call_post w1 w3.
Proof.
  intros [(s1 & E1 & Q1) C1 K1 P1 T1] [(s2 & E2 & Q2) C2 K2 P2 T2].
  split.
  - exists (s1 ++ s2)%list. split.
    + rewrite E2, E1, app_assoc. reflexivity.
    + apply Forall_app. split; assumption.
  - auto.
  - auto.
  - auto.
  - auto.
Qed.

Lemma disconnect_eq w :
  disconnect w =
  (Normal tt,
   match websocket (this w) with
   | HSocket ws =>
       {| this := with_websocket HNull (this w); promises := promises w;
          timers := timers w; sockets := sockets w;
          trace := trace w ++ [Terminate (socket_id ws)] |}
   | HUndefined | HNull => w
   end).
Proof.
  unfold disconnect. unfold_monad. cbn.
  destruct (websocket (this w)); reflexivity.
Qed.

Lemma disconnect_quiet w :
  result disconnect w = Normal tt /\ call_post w (exec disconnect w).
Proof.
  unfold result, exec. rewrite disconnect_eq. cbn. split; [reflexivity|].
  destruct (websocket (this w)); try apply call_post_refl.
  split; cbn; [|tauto|tauto|tauto|tauto].
  eexists. split; [reflexivity|]. repeat constructor.
Qed.

Lemma connect_eq w :
  connect w =
  (Normal tt,
   let w1 := exec disconnect w in
   let c := with_proto (this w1) in
   {| this := with_websocket
                (HSocket {| socket_id := sockets w1; address := target_address c;
                            readyState := CONNECTING |}) c;
      promises := promises w1; timers := timers w1; sockets := S (sockets w1);
      trace := trace w1 ++ [Emit EvConnecting; OpenSocket (sockets w1) (target_address c)] |}).
Proof.
  unfold exec. rewrite disconnect_eq.
  unfold connect, new_WebSocket, disconnect. unfold_monad. cbn.
  destruct (websocket (this w)) eqn:Hws; cbn; rewrite ?Hws; cbn;
    rewrite <- ?app_assoc; reflexivity.
Qed.

Lemma connect_quiet w :
  result connect w = Normal tt /\ call_post w (exec connect w).
Proof.
  unfold result, exec at 1. rewrite connect_eq. cbn. split; [reflexivity|].
  eapply call_post_trans; [apply disconnect_quiet|].
  split; cbn; [|tauto|tauto|tauto|tauto].
  eexists. split; [reflexivity|]. repeat constructor.
Qed.

Lemma numbered_keys callback w k :
  is_Some (seqCallbacks (this w) !! k) ->
  is_Some (seqCallbacks (this (numbered callback w)) !! k).
Proof.
  intros Hk. rewrite numbered_seqCallbacks.
  destruct callback as [cb|]; [|exact Hk].
  apply lookup_insert_is_Some'. right. exact Hk.
Qed.

(** Whether it returns or throws, [sendRequest] is quiet. *)
Lemma sendRequest_quiet data callback w :
  call_post w (exec (sendRequest data callback) w).
Proof.
  destruct (AppRequest (this w)) as [[]|] eqn:Hcodec.
  - destruct (websocket (this w)) as [| |ws] eqn:Hws.
    1,2: unfold exec; rewrite sendRequest_unready
           by (right; rewrite Hws; reflexivity); apply call_post_refl.
    destruct (sendRequest_numbered data callback w)
      as (Hthis & Hprom & Htimers & _ & Htrace);
      [split; [exact Hcodec | exists ws; exact Hws]|].
    split.
    + exact Htrace.
    + rewrite Hthis. destruct (numbered_fields callback w) as (_ & _ & ->). tauto.
    + intros k. rewrite Hthis. apply numbered_keys.
    + rewrite Hprom. tauto.
    + rewrite Htimers. tauto.
  - unfold exec. rewrite sendRequest_unready by (left; exact Hcodec).
    apply call_post_refl.
Qed.

Lemma sendRequest_returns data callback w :
  sendRequest data callback w =
  (match dispatch_error data w with
   | Some e => Throw e
   | None => Normal tt
   end, exec (sendRequest data callback) w).
Proof.
  rewrite <- (sendRequest_result data callback w). unfold result, exec.
  destruct (sendRequest data callback w). reflexivity.
Qed.

Lemma next_promise_fresh w : promises w !! next_promise w = None.
Proof. apply not_elem_of_dom, is_fresh. Qed.

Lemma next_timer_fresh w : timers w !! next_timer w = None.
Proof. apply not_elem_of_dom, is_fresh. Qed.

Lemma settle_eq p s w :
  settle p s w =
  (Normal tt,
   match promises w !! p with
   | Some Pending => with_promises (insert p s) w
   | _ => w
   end).
Proof.
  unfold settle. unfold_monad. cbn.
  destruct (promises w !! p) as [[]|]; reflexivity.
Qed.

Lemma dispatch_error_awaiting data ms w :
  dispatch_error data (awaiting ms w) = dispatch_error data w.
Proof. reflexivity. Qed.

(** [sendRequestAsync] always hands back its promise.  The promise and
    the timer are in place when the request is dispatched; if the
    dispatch throws, the promise is rejected with what it threw. *)
Lemma sendRequestAsync_eq data timeoutMilliseconds w :
  let w1 := exec (sendRequest data (Some (AsyncFn (next_timer w) (next_promise w))))
                 (awaiting (default 10000 timeoutMilliseconds) w) in
  sendRequestAsync data timeoutMilliseconds w =
  (Normal (next_promise w),
   match dispatch_error data w with
   | Some e => rejected (next_promise w) e w1
   | None => w1
   end).
Proof.
  intros w1.
  unfold sendRequestAsync, new_promise, setTimeout, reject.
  unfold bind, ret, gets, modify, try_catch. cbn -[sendRequest fresh settle].
  unfold with_timers, with_promises. cbn -[sendRequest fresh settle].
  fold (next_promise w). fold (next_timer w).
  fold (awaiting (default 10000 timeoutMilliseconds) w).
  rewrite sendRequest_returns, dispatch_error_awaiting. fold w1.
  destruct (dispatch_error data w) as [e|]; [|reflexivity].
  rewrite settle_eq. cbn [fst snd].
  assert (promises w1 !! next_promise w = Some Pending) as ->.
  { destruct (sendRequest_quiet data (Some (AsyncFn (next_timer w) (next_promise w)))
                (awaiting (default 10000 timeoutMilliseconds) w)) as [_ _ _ Hprom _].
    apply Hprom. cbn. apply lookup_insert_eq. }
  reflexivity.
Qed.

Lemma awaiting_quiet ms w : call_post w (awaiting ms w).
Proof.
  split; cbn.
  - exists []. split; [symmetry; apply app_nil_r | constructor].
  - tauto.
  - tauto.
  - intros p s Hp. rewrite lookup_insert_ne; [exact Hp|].
    intros <-. rewrite next_promise_fresh in Hp. discriminate.
  - intros t x Ht. rewrite lookup_insert_ne; [exact Ht|].
    intros <-. rewrite next_timer_fresh in Ht. discriminate.
Qed.

Lemma sendRequestAsync_result data timeoutMilliseconds w :
  result (sendRequestAsync data timeoutMilliseconds) w = Normal (next_promise w).
Proof. unfold result. rewrite sendRequestAsync_eq. reflexivity. Qed.

Lemma sendRequestAsync_quiet data timeoutMilliseconds w :
  call_post w (exec (sendRequestAsync data timeoutMilliseconds) w).
Proof.
  unfold exec at 1. rewrite sendRequestAsync_eq. cbn [snd].
  set (w1 := exec (sendRequest data (Some (AsyncFn (next_timer w) (next_promise w))))
                  (awaiting (default 10000 timeoutMilliseconds) w)).
  assert (call_post w w1) as Hpost
    by (eapply call_post_trans; [apply awaiting_quiet | apply sendRequest_quiet]).
  destruct (dispatch_error data w) as [e|]; [|exact Hpost].
  destruct Hpost as [Htrace Hcodec Hkeys Hprom Htimers].
  split; cbn; try assumption.
  intros p s Hp. rewrite lookup_insert_ne; [apply Hprom, Hp|].
  intros <-. rewrite next_promise_fresh in Hp. discriminate.
Qed.

Lemma isConnected_eq w :
  isConnected w =
  (Normal match websocket (this w) with
          | HSocket ws => ReadyState_eqb (readyState ws) OPEN
          | HUndefined | HNull => false
          end, w).
Proof.
  unfold isConnected. unfold_monad. cbn.
  destruct (websocket (this w)); reflexivity.
Qed.

(** What a method hands back does not show in the world. *)
Lemma exec_then {A B} (m : M A) (k : A -> B) w :
  exec (let* a := m in ret (k a)) w = exec m w.
Proof. unfold exec, bind, ret. destruct (m w) as [[a|e] w']; reflexivity. Qed.

Lemma perform_sendRequest data callback w :
  exec (perform (CallSendRequest data callback)) w = exec (sendRequest data callback) w.
Proof. apply (exec_then (sendRequest data callback) (fun _ => Undefined)). Qed.

Lemma perform_sendRequestAsync data ms w :
  exec (perform (CallSendRequestAsync data ms)) w = exec (sendRequestAsync data ms) w.
Proof. apply (exec_then (sendRequestAsync data ms) PromiseOf). Qed.

Lemma perform_connect w : exec (perform CallConnect) w = exec connect w.
Proof. apply (exec_then connect (fun _ => Undefined)). Qed.

Lemma perform_disconnect w : exec (perform CallDisconnect) w = exec disconnect w.
Proof. apply (exec_then disconnect (fun _ => Undefined)). Qed.

Lemma perform_isConnected w : exec (perform CallIsConnected) w = w.
Proof.
  unfold exec. cbn [perform]. unfold bind, ret. rewrite isConnected_eq. reflexivity.
Qed.

Lemma step_method c w : exec (step (Method c)) w = exec (perform c) w.
Proof. apply (exec_then (perform c) (fun _ => tt)). Qed.

Lemma perform_quiet c w : call_post w (exec (perform c) w).
Proof.
  destruct c as [data callback|data ms| | |].
  - rewrite perform_sendRequest. apply sendRequest_quiet.
  - rewrite perform_sendRequestAsync. apply sendRequestAsync_quiet.
  - rewrite perform_connect. apply connect_quiet.
  - rewrite perform_disconnect. apply disconnect_quiet.
  - rewrite perform_isConnected. apply call_post_refl.
Qed.

(** The body of a callback is a sequence of method calls, and quiet
    with them, however it ends. *)
Lemma run_script_quiet s : forall w, call_post w (exec (run_script perform s) w).
Proof.
  induction s as [value|e|c next IH]; intros w.
  - apply call_post_refl.
  - apply call_post_refl.
  - pose proof (perform_quiet c w) as Hpost.
    unfold exec in *. cbn [run_script]. unfold bind, catch.
    destruct (perform c w) as [r w1]. cbn in *.
    eapply call_post_trans; [exact Hpost | apply IH].
Qed.

End Calls.

(** ** The response router *)
Section Router.

Context `{P : Platform}.

Lemma quiet_no_invocations (t : list Effect) :
  Forall quiet t -> invocations t = [] /\ message_notifications t = [].
Proof.
  induction 1 as [|e t He _ [IH1 IH2]]; [split; reflexivity|].
  unfold invocations, message_notifications in *. cbn.
  rewrite IH1, IH2.
  destruct e as [[]| | | |]; cbn in *; try contradiction; split; reflexivity.
Qed.

Lemma since_app w w' suffix :
  trace w' = (trace w ++ suffix)%list -> since w w' = suffix.
Proof. intros H. unfold since. rewrite H. apply drop_app_length. Qed.

Lemma settle_keeps_settled p s w q st :
  promises w !! q = Some st -> st <> Pending ->
  promises (exec (settle p s) w) !! q = Some st.
Proof.
  intros Hq Hst. unfold exec. rewrite settle_eq. cbn.
  destruct (promises w !! p) as [[]|] eqn:Hp; try exact Hq.
  cbn. rewrite lookup_insert_ne; [exact Hq|].
  intros <-. congruence.
Qed.

Lemma invoke_user f message w :
  invoke (UserFn f) message w =
  run_script perform (f message) (logged (Invoke (UserFn f) message) w).
Proof. reflexivity. Qed.

(** The closure of [sendRequestAsync] on a message with a response:
    the timer is cleared, the promise settled, nothing returned. *)
Lemma invoke_async t p message r w :
  Proto.response message = Some r ->
  invoke (AsyncFn t p) message w =
  (Normal RetVoid,
   exec (settle p (outcome r)) (disarm t (logged (Invoke (AsyncFn t p) message) w))).
Proof.
  intros Hr. unfold exec. rewrite settle_eq.
  unfold invoke, clearTimeout, resolve, reject, settle, outcome, logged, disarm.
  unfold_monad. cbn. rewrite Hr.
  destruct (Proto.error r); cbn;
    destruct (promises w !! p) as [[]|]; reflexivity.
Qed.

(** What running a callback does, whatever its kind and however it
    ends. *)
Lemma invoke_spec callback message w :
  exists suffix,
    trace (exec (invoke callback message) w)
      = (trace w ++ Invoke callback message :: suffix)%list
    /\ Forall quiet suffix
    /\ (AppMessage (this w) = Some Proto_AppMessage ->
        AppMessage (this (exec (invoke callback message) w)) = Some Proto_AppMessage)
    /\ (forall k, is_Some (seqCallbacks (this w) !! k) ->
                  is_Some (seqCallbacks (this (exec (invoke callback message) w)) !! k))
    /\ (forall q st, promises w !! q = Some st -> st <> Pending ->
                     promises (exec (invoke callback message) w) !! q = Some st).
Proof.
  destruct callback as [f|t p].
  - unfold exec. rewrite invoke_user.
    destruct (run_script_quiet (f message) (logged (Invoke (UserFn f) message) w))
      as [(suffix & Htrace & Hquiet) Hcodec Hkeys Hprom _].
    unfold exec in *.
    exists suffix. split; [|split; [|split; [|split]]].
    + rewrite Htrace. cbn. rewrite <- app_assoc. reflexivity.
    + exact Hquiet.
    + exact Hcodec.
    + exact Hkeys.
    + intros q st Hq _. apply Hprom. exact Hq.
  - exists [].
    destruct (Proto.response message) as [r|] eqn:Hr.
    + unfold exec at 1 2 3 4. rewrite (invoke_async t p message r w Hr). cbn [snd].
      split; [|split; [|split; [|split]]].
      * unfold exec. rewrite settle_eq. cbn.
        destruct (promises w !! p) as [[]|]; reflexivity.
      * constructor.
      * unfold exec. rewrite settle_eq. cbn.
        destruct (promises w !! p) as [[]|]; cbn; tauto.
      * unfold exec. rewrite settle_eq. cbn.
        destruct (promises w !! p) as [[]|]; cbn; tauto.
      * intros q st Hq Hst. apply settle_keeps_settled; assumption.
    + unfold exec, invoke, clearTimeout. unfold_monad. cbn. rewrite Hr. cbn.
      repeat split; try tauto. constructor.
Qed.

(** A frame nobody waits for goes to the generic notification. *)
Lemma on_message_unmatched data message w :
  AppMessage (this w) = Some Proto_AppMessage ->
  AppMessage_fromBinary data = Normal message ->
  match Proto.response message with
  | Some r => Proto.seq r = 0 \/ seqCallbacks (this w) !! Proto.seq r = None
  | None => True
  end ->
  on_message data w = (Normal tt, logged (Emit (EvMessage message)) w).
Proof.
  intros Hcodec Hdecode Hunmatched.
  unfold on_message. unfold_monad. cbn. rewrite Hcodec. cbn.
  rewrite Hdecode.
  destruct (Proto.response message) as [r|]; [|reflexivity].
  unfold number_truthy.
  destruct (Z.eqb_spec (Proto.seq r) 0) as [Hz|Hnz]; cbn; [reflexivity|].
  destruct Hunmatched as [Hz|Hnone]; [contradiction|].
  rewrite Hnone. reflexivity.
Qed.

(** A frame somebody waits for is routed to the callback. *)
Lemma on_message_matched_eq data message r callback w :
  AppMessage (this w) = Some Proto_AppMessage ->
  AppMessage_fromBinary data = Normal message ->
  Proto.response message = Some r ->
  Proto.seq r <> 0 ->
  seqCallbacks (this w) !! Proto.seq r = Some callback ->
  on_message data w = routed callback message r w.
Proof.
  intros Hcodec Hdecode Hr Hnz Hcb.
  unfold on_message, routed.
  unfold bind, gets, lift, ret, modify, emit, log.
  cbn -[invoke]. rewrite Hcodec. cbn -[invoke].
  rewrite Hdecode, Hr.
  unfold number_truthy.
  destruct (Z.eqb_spec (Proto.seq r) 0) as [Hz|_]; [contradiction|]. cbn -[invoke].
  rewrite Hcb.
  destruct (invoke callback message w) as [[value|e] w1]; [|reflexivity].
  cbn. unfold unregistered, logged.
  destruct (truthy value); reflexivity.
Qed.

(** However a frame fares, the router handles it in one of four ways. *)
Lemma on_message_cases data w :
  on_message data w = (Normal tt, w)
  \/ (exists e, on_message data w = (Throw e, w))
  \/ (exists message,
        on_message data w = (Normal tt, logged (Emit (EvMessage message)) w))
  \/ (exists message r callback,
        Proto.response message = Some r
        /\ Proto.seq r <> 0
        /\ seqCallbacks (this w) !! Proto.seq r = Some callback
        /\ on_message data w = routed callback message r w).
Proof.
  destruct (AppMessage (this w)) as [[]|] eqn:Hcodec.
  - destruct (AppMessage_fromBinary data) as [message|e] eqn:Hdecode.
    + destruct (Proto.response message) as [r|] eqn:Hr.
      * destruct (decide (Proto.seq r = 0)) as [Hz|Hnz].
        -- right; right; left. exists message.
           apply on_message_unmatched; [assumption..|]. rewrite Hr. left. exact Hz.
        -- destruct (seqCallbacks (this w) !! Proto.seq r) as [callback|] eqn:Hcb.
           ++ right; right; right. exists message, r, callback.
              repeat split; try assumption.
              apply on_message_matched_eq; assumption.
           ++ right; right; left. exists message.
              apply on_message_unmatched; [assumption..|]. rewrite Hr. right. exact Hcb.
      * right; right; left. exists message.
        apply on_message_unmatched; [assumption..|]. rewrite Hr. exact I.
    + right; left. exists e.
      unfold on_message. unfold_monad. cbn. rewrite Hcodec. cbn. rewrite Hdecode.
      reflexivity.
  - left. unfold on_message. unfold_monad. cbn. rewrite Hcodec. reflexivity.
Qed.

Lemma invocations_cons callback message (t : list Effect) :
  invocations (Invoke callback message :: t) = (callback, message) :: invocations t.
Proof. reflexivity. Qed.

(** What a matched frame does.  The callback runs once.  When it
    returns, the entry is removed and the frame notified unless the
    value is truthy; when it throws, the listener throws the same, the
    entry stays and the frame is not notified. *)
Lemma on_message_matched_effects w data message r callback :
  AppMessage (this w) = Some Proto_AppMessage ->
  AppMessage_fromBinary data = Normal message ->
  Proto.response message = Some r ->
  Proto.seq r <> 0 ->
  seqCallbacks (this w) !! Proto.seq r = Some callback ->
  let w1 := exec (on_message data) w in
  invocations (since w w1) = [(callback, message)]
  /\ AppMessage (this w1) = Some Proto_AppMessage
  /\ (forall value,
        return_value callback message w = Normal value ->
        result (on_message data) w = Normal tt
        /\ message_notifications (since w w1) = (if truthy value then [] else [message])
        /\ seqCallbacks (this w1) !! Proto.seq r = None)
  /\ (forall e,
        return_value callback message w = Throw e ->
        result (on_message data) w = Throw e
        /\ message_notifications (since w w1) = []
        /\ is_Some (seqCallbacks (this w1) !! Proto.seq r)).
Proof.
  intros Hcodec Hdecode Hr Hnz Hcb w1. subst w1.
  destruct (invoke_spec callback message w)
    as (suffix & Htrace & Hquiet & Hcodec1 & Hkeys & _).
  destruct (quiet_no_invocations suffix Hquiet) as [Hinv Hmsg].
  unfold return_value, result, exec in *.
  rewrite (on_message_matched_eq data message r callback w) by assumption.
  unfold routed.
  destruct (invoke callback message w) as [[value|e] w0]; cbn [fst snd] in *.
  - assert (trace (if truthy value
                   then unregistered (Proto.seq r) w0
                   else logged (Emit (EvMessage message)) (unregistered (Proto.seq r) w0))
            = (trace w ++ Invoke callback message :: suffix ++
                 (if truthy value then [] else [Emit (EvMessage message)]))%list)
      as Hfull.
    { destruct (truthy value); cbn; rewrite Htrace.
      - rewrite app_nil_r. reflexivity.
      - rewrite <- app_assoc. reflexivity. }
    rewrite (since_app _ _ _ Hfull).
    split; [|split; [|split]].
    + rewrite invocations_cons. unfold invocations in *.
      rewrite omap_app, Hinv. destruct (truthy value); reflexivity.
    + destruct (truthy value); cbn; apply Hcodec1, Hcodec.
    + intros value' [= <-]. split; [reflexivity|]. split.
      * unfold message_notifications in *. cbn. rewrite omap_app, Hmsg.
        destruct (truthy value); reflexivity.
      * destruct (truthy value); cbn; apply lookup_delete_eq.
    + intros e [=].
  - rewrite (since_app _ _ _ Htrace).
    split; [|split; [|split]].
    + rewrite invocations_cons, Hinv. reflexivity.
    + apply Hcodec1, Hcodec.
    + intros value [=].
    + intros e' [= <-]. split; [reflexivity|]. split.
      * unfold message_notifications in *. cbn. exact Hmsg.
      * apply Hkeys. rewrite Hcb. eauto.
Qed.

End Router.

(** ** Carrying a property of the world through a method *)
Section Hoare.

Context `{P : Platform}.

Variable I : World -> Prop.

Lemma preserves_ret {A} (a : A) : preserves I (ret a).
Proof. intros w H. exact H. Qed.

Lemma preserves_gets {A} (f : World -> A) : preserves I (gets f).
Proof. intros w H. exact H. Qed.

Lemma preserves_lift {A} (c : Completion A) : preserves I (lift c).
Proof. intros w H. exact H. Qed.

Lemma preserves_throw {A} e : preserves I (@throw _ A e).
Proof. intros w H. exact H. Qed.

Lemma preserves_bind {A B} (m : M A) (k : A -> M B) :
  preserves I m -> (forall a, preserves I (k a)) -> preserves I (bind m k).
Proof.
  intros Hm Hk w H. specialize (Hm w H).
  unfold exec, bind in *. destruct (m w) as [[a|e] w1]; cbn in *.
  - apply Hk, Hm.
  - exact Hm.
Qed.

Lemma preserves_try_catch {A} (m : M A) (h : JsError -> M A) :
  preserves I m -> (forall e, preserves I (h e)) -> preserves I (try_catch m h).
Proof.
  intros Hm Hh w H. specialize (Hm w H).
  unfold exec, try_catch in *. destruct (m w) as [[a|e] w1]; cbn in *.
  - exact Hm.
  - apply Hh, Hm.
Qed.

Lemma preserves_catch {A} (m : M A) : preserves I m -> preserves I (catch m).
Proof.
  intros Hm w H. specialize (Hm w H).
  unfold exec, catch in *. destruct (m w) as [r w1]. exact Hm.
Qed.

Lemma preserves_modify (f : World -> World) :
  (forall w, I w -> I (f w)) -> preserves I (modify f).
Proof. intros Hf w H. apply Hf, H. Qed.

(** A property every call keeps is kept by a script, however the
    script ends. *)
Lemma preserves_run_script (perform : Call -> M Returned) s :
  (forall c, preserves I (perform c)) -> preserves I (run_script perform s).
Proof.
  intros Hperform. induction s as [value|e|c next IH]; cbn [run_script].
  - apply preserves_ret.
  - apply preserves_throw.
  - apply preserves_bind; [apply preserves_catch, Hperform | exact IH].
Qed.

(** The same for a caller's script and a property the caller's calls
    keep. *)
Lemma preserves_user_script (perform : Call -> M Returned) s :
  user_script s ->
  (forall c, user_call c -> preserves I (perform c)) ->
  preserves I (run_script perform s).
Proof.
  intros Huser Hperform. induction s as [value|e|c next IH]; cbn [run_script].
  - apply preserves_ret.
  - apply preserves_throw.
  - inversion Huser as [| |? ? Hc Hnext]; subst.
    apply preserves_bind; [apply preserves_catch, Hperform, Hc|].
    intros r. apply IH, Hnext.
Qed.

(** [isConnected()] changes nothing. *)
Lemma preserves_isConnected : preserves I isConnected.
Proof. intros w H. unfold exec. rewrite isConnected_eq. exact H. Qed.

(** A property the four other methods keep is kept by every call. *)
Lemma preserves_calls (allowed : Call -> Prop) :
  (forall data callback,
      allowed (CallSendRequest data callback) ->
      preserves I (sendRequest data callback)) ->
  (forall data ms, preserves I (sendRequestAsync data ms)) ->
  preserves I connect ->
  preserves I disconnect ->
  forall c, allowed c -> preserves I (perform c).
Proof.
  intros Hsend Hasync Hconnect Hdisconnect c Hc.
  destruct c as [data callback|data ms| | |]; cbn [perform];
    (apply preserves_bind; [|intros; apply preserves_ret]).
  - apply Hsend, Hc.
  - apply Hasync.
  - exact Hconnect.
  - exact Hdisconnect.
  - apply preserves_isConnected.
Qed.

Lemma preserves_method c : preserves I (perform c) -> preserves I (step (Method c)).
Proof.
  intros Hc. cbn [step]. apply preserves_bind; [exact Hc | intros; apply preserves_ret].
Qed.

End Hoare.

(** ** Invariants of reachable states *)
Section Invariants.

Context `{P : Platform}.

Lemma preserves_log e : preserves Inv (log e).
Proof.
  apply preserves_modify. intros w [H1 H2 H3 H4]. split; assumption.
Qed.

Lemma Inv_fresh c : seq c = 0 -> seqCallbacks c = ∅ -> AppRequest c = None ->
  websocket c = HUndefined -> Inv (fresh_world c).
Proof.
  intros Hseq Hcbs Hcodec Hws. split; cbn.
  - rewrite Hseq. unfold MAX_EXACT. lia.
  - intros k cb. rewrite Hcbs, lookup_empty. discriminate.
  - right. auto.
  - intros ws. rewrite Hws. discriminate.
Qed.

Lemma preserves_disconnect : preserves Inv disconnect.
Proof.
  intros w H. unfold exec. rewrite disconnect_eq. cbn.
  destruct (websocket (this w)) eqn:Hws; [exact H | exact H |].
  destruct H as [H1 H2 H3 H4]. split; cbn; try assumption.
  intros ws' [=].
Qed.

Lemma preserves_connect : preserves Inv connect.
Proof.
  intros w H. apply preserves_disconnect in H.
  unfold exec at 1. rewrite connect_eq. cbn.
  destruct H as [H1 H2 H3 H4]. split; cbn; try assumption.
  - left. split; reflexivity.
  - intros ws [= <-]. cbn. lia.
Qed.

Lemma pre_increment_range x :
  0 <= x <= MAX_EXACT -> x <= pre_increment x /\ 0 < pre_increment x <= MAX_EXACT.
Proof.
  intros Hx. unfold pre_increment.
  destruct (Z.ltb_spec x MAX_EXACT); unfold MAX_EXACT in *; lia.
Qed.

(** The invariant only reads the client and the number of sockets. *)
Lemma Inv_frame w w' :
  this w' = this w -> sockets w' = sockets w -> Inv w -> Inv w'.
Proof.
  intros Hthis Hsockets [H1 H2 H3 H4].
  split; rewrite ?Hthis, ?Hsockets; assumption.
Qed.

Lemma Inv_numbered callback w :
  AppRequest (this w) = Some Proto_AppRequest -> Inv w -> Inv (numbered callback w).
Proof.
  intros Hcodec [H1 H2 H3 H4].
  pose proof (pre_increment_range _ H1) as [Hle Hrange].
  destruct (numbered_fields callback w) as (Hws & Hreq & Hmsg).
  split.
  - rewrite numbered_seq. lia.
  - intros k cb. rewrite numbered_seq, numbered_seqCallbacks.
    destruct callback as [cb'|]; intros Hk.
    + destruct (decide (k = pre_increment (seq (this w)))) as [->|Hne]; [lia|].
      rewrite lookup_insert_ne in Hk by congruence.
      apply H2 in Hk. lia.
    + apply H2 in Hk. lia.
  - left. rewrite Hreq, Hmsg. destruct H3 as [H3|[H3 _]]; [exact H3 | congruence].
  - rewrite Hws. exact H4.
Qed.

Lemma preserves_sendRequest data callback : preserves Inv (sendRequest data callback).
Proof.
  intros w H.
  destruct (AppRequest (this w)) as [[]|] eqn:Hcodec.
  - destruct (websocket (this w)) as [| |ws] eqn:Hws.
    1,2: unfold exec; rewrite sendRequest_unready
           by (right; rewrite Hws; reflexivity); exact H.
    destruct (sendRequest_numbered data callback w)
      as (Hthis & _ & _ & Hsockets & _);
      [split; [exact Hcodec | exists ws; exact Hws]|].
    apply (Inv_frame (numbered callback w)); [exact Hthis | exact Hsockets|].
    apply Inv_numbered; assumption.
  - unfold exec. rewrite sendRequest_unready by (left; exact Hcodec). exact H.
Qed.

Lemma preserves_with_promises f : preserves Inv (modify (with_promises f)).
Proof.
  apply preserves_modify. intros w. apply Inv_frame; reflexivity.
Qed.

Lemma preserves_with_timers f : preserves Inv (modify (with_timers f)).
Proof.
  apply preserves_modify. intros w. apply Inv_frame; reflexivity.
Qed.

Lemma preserves_settle p s : preserves Inv (settle p s).
Proof.
  intros w H. unfold exec. rewrite settle_eq. cbn.
  destruct (promises w !! p) as [[]|]; try exact H.
  revert H. apply Inv_frame; reflexivity.
Qed.

Lemma preserves_sendRequestAsync data ms : preserves Inv (sendRequestAsync data ms).
Proof.
  unfold sendRequestAsync, new_promise, setTimeout.
  apply preserves_bind.
  - apply preserves_bind; [apply preserves_gets|]. intros ps.
    apply preserves_bind; [apply preserves_with_promises | intros _; apply preserves_ret].
  - intros p. apply preserves_bind; [|intros _; apply preserves_ret].
    apply preserves_try_catch.
    + apply preserves_bind; [|intros t; apply preserves_sendRequest].
      apply preserves_bind; [apply preserves_gets|]. intros ts.
      apply preserves_bind; [apply preserves_with_timers | intros _; apply preserves_ret].
    + intros e. apply preserves_settle.
Qed.

Lemma preserves_perform c : preserves Inv (perform c).
Proof.
  apply (preserves_calls Inv (fun _ => True)); try exact I.
  - intros data callback _. apply preserves_sendRequest.
  - apply preserves_sendRequestAsync.
  - apply preserves_connect.
  - apply preserves_disconnect.
Qed.

Lemma preserves_invoke callback message : preserves Inv (invoke callback message).
Proof.
  unfold invoke. apply preserves_bind; [apply preserves_log|]. intros _.
  destruct callback as [f|t p].
  - apply preserves_run_script, preserves_perform.
  - apply preserves_bind; [apply preserves_with_timers|]. intros _.
    destruct (Proto.response message) as [r|]; [|apply preserves_throw].
    apply preserves_bind; [|intros _; apply preserves_ret].
    destruct (Proto.error r); apply preserves_settle.
Qed.

Lemma preserves_on_message data : preserves Inv (on_message data).
Proof.
  unfold on_message. apply preserves_bind; [apply preserves_gets|]. intros c.
  destruct (AppMessage c) as [[]|]; [|apply preserves_ret].
  apply preserves_bind; [apply preserves_lift|]. intros message.
  apply preserves_bind.
  - destruct (Proto.response message) as [r|]; [|apply preserves_ret].
    destruct (number_truthy (Proto.seq r)); [|apply preserves_ret].
    apply preserves_bind; [apply preserves_gets|]. intros c'.
    destruct (seqCallbacks c' !! Proto.seq r) as [callback|]; [|apply preserves_ret].
    apply preserves_bind; [apply preserves_invoke|]. intros result.
    apply preserves_bind; [|intros _; apply preserves_ret].
    apply preserves_modify. intros w [H1 H2 H3 H4]. split; cbn; try assumption.
    intros k cb Hk. apply lookup_delete_Some in Hk as [_ Hk]. eapply H2, Hk.
  - intros [|]; [apply preserves_ret|].
    apply preserves_bind; [apply preserves_lift | intros again; apply preserves_log].
Qed.

Lemma preserves_fire_timer t : preserves Inv (fire_timer t).
Proof.
  unfold fire_timer. apply preserves_bind; [apply preserves_gets|]. intros ts.
  destruct (ts !! t) as [[timer [|]]|]; try apply preserves_ret.
  apply preserves_bind; [apply preserves_with_timers|]. intros _.
  apply preserves_settle.
Qed.

Lemma preserves_set_readyState k s : preserves Inv (set_readyState k s).
Proof.
  apply preserves_modify. intros w H.
  unfold with_this. cbn.
  destruct (websocket (this w)) as [| |ws] eqn:Hws;
    [destruct H; split; assumption | destruct H; split; assumption |].
  destruct H as [H1 H2 H3 H4].
  destruct (Nat.eqb (socket_id ws) k); split; cbn; try assumption.
  intros ws' [= <-]. cbn. apply H4. exact Hws.
Qed.

Lemma preserves_deliver s : preserves Inv (deliver s).
Proof.
  unfold deliver. apply preserves_bind; [apply preserves_gets|]. intros n.
  destruct s as [k|k e|k data|k|t].
  - destruct (Nat.ltb k n); [|apply preserves_ret].
    apply preserves_bind; [apply preserves_set_readyState | intros _; apply preserves_log].
  - destruct (Nat.ltb k n); [apply preserves_log | apply preserves_ret].
  - destruct (Nat.ltb k n); [apply preserves_on_message | apply preserves_ret].
  - destruct (Nat.ltb k n); [|apply preserves_ret].
    apply preserves_bind; [apply preserves_set_readyState | intros _; apply preserves_log].
  - apply preserves_fire_timer.
Qed.

Lemma preserves_step s : preserves Inv (step s).
Proof.
  destruct s; [apply preserves_method, preserves_perform | apply preserves_deliver].
Qed.

Lemma reachable_Inv w : reachable w -> Inv w.
Proof.
  induction 1 as [server port playerId playerToken proxy|w s _ IH _].
  - apply Inv_fresh; reflexivity.
  - apply preserves_step, IH.
Qed.

End Invariants.

(** ** How promises and timers evolve *)
Section Evolution.

Context `{P : Platform}.

Lemma evolves_refl w : evolves w w.
Proof. split; eauto. intros p Hp. exists Pending. split; [exact Hp | exact I]. Qed.

Lemma three_outcomes_stay w w' p st :
  evolves w w' -> promises w !! p = Some st -> three_outcomes st ->
  exists st', promises w' !! p = Some st' /\ three_outcomes st'.
Proof.
  intros [Hsettled _ Houtcomes _] Hp Hst.
  destruct st as [|value|reason].
  - apply Houtcomes, Hp.
  - exists (Fulfilled value). split; [apply Hsettled; [exact Hp | discriminate] | exact Hst].
  - exists (Rejected reason). split; [apply Hsettled; [exact Hp | discriminate] | exact Hst].
Qed.

Lemma evolves_trans w1 w2 w3 : evolves w1 w2 -> evolves w2 w3 -> evolves w1 w3.
Proof.
  intros H12 H23.
  pose proof H12 as [S1 P1 O1 T1]. pose proof H23 as [S2 P2 O2 T2]. split.
  - eauto.
  - eauto.
  - intros p Hp. destruct (O1 p Hp) as (st & Hst & Hthree).
    eapply three_outcomes_stay; eassumption.
  - intros t timer armed Ht. destruct (T1 _ _ _ Ht) as [armed' Ht']. eauto.
Qed.

Lemma call_post_evolves w w' : call_post w w' -> evolves w w'.
Proof.
  intros [_ _ _ Hp Ht]. split.
  - intros p st Hst _. apply Hp, Hst.
  - intros p [st Hst]. exists st. apply Hp, Hst.
  - intros p Hpending. exists Pending. split; [apply Hp, Hpending | exact I].
  - intros t timer armed Htimer. exists armed. apply Ht, Htimer.
Qed.

Variable w0 : World.

Lemma evolves_unless (f : World -> World) :
  (forall w, promises (f w) = promises w) ->
  (forall w, timers (f w) = timers w) ->
  preserves (evolves w0) (modify f).
Proof.
  intros Hp Ht. apply preserves_modify. intros w [H1 H2 H3 H4].
  split; intros *; rewrite ?Hp, ?Ht; eauto.
Qed.

Lemma evolves_log e : preserves (evolves w0) (log e).
Proof. apply evolves_unless; reflexivity. Qed.

(** A timer or a response settles a promise in one of the three
    ways. *)
Lemma evolves_settle p s : three_outcomes s -> preserves (evolves w0) (settle p s).
Proof.
  intros Hs w H. eapply evolves_trans; [exact H|].
  unfold exec. rewrite settle_eq. cbn.
  destruct (promises w !! p) as [[]|] eqn:Hp; try apply evolves_refl.
  split; cbn.
  - intros q st Hq Hst. rewrite lookup_insert_ne; [exact Hq|].
    intros <-. unfold settled in Hst. congruence.
  - intros q Hq. destruct (decide (q = p)) as [->|Hne].
    + rewrite lookup_insert_eq. eauto.
    + rewrite lookup_insert_ne by congruence. exact Hq.
  - intros q Hq. destruct (decide (q = p)) as [->|Hne].
    + rewrite lookup_insert_eq. eauto.
    + rewrite lookup_insert_ne by congruence. exists Pending. split; [exact Hq | exact I].
  - eauto.
Qed.

Lemma outcome_three r : three_outcomes (outcome r).
Proof. unfold outcome. destruct (Proto.error r) eqn:He; cbn; auto. Qed.

Lemma evolves_disarm t : preserves (evolves w0) (clearTimeout t).
Proof.
  intros w H. eapply evolves_trans; [exact H|].
  split; cbn; eauto.
  - intros p Hp. exists Pending. split; [exact Hp | exact I].
  - intros t' timer armed Ht. rewrite lookup_alter.
    destruct (decide (t = t')) as [<-|Hne]; rewrite Ht; cbn; eauto.
Qed.

Lemma evolves_retire t timer armed w :
  timers w !! t = Some (timer, armed) ->
  evolves w (with_timers (insert t (timer, false)) w).
Proof.
  intros Ht. split; cbn; eauto.
  - intros p Hp. exists Pending. split; [exact Hp | exact I].
  - intros t' timer' armed' Ht'.
    destruct (decide (t' = t)) as [->|Hne].
    + rewrite lookup_insert_eq. rewrite Ht in Ht'. injection Ht' as <- _. eauto.
    + rewrite lookup_insert_ne by congruence. eauto.
Qed.

Lemma evolves_perform c : preserves (evolves w0) (perform c).
Proof.
  intros w H. eapply evolves_trans; [exact H|].
  apply call_post_evolves, perform_quiet.
Qed.

Lemma evolves_invoke callback message :
  preserves (evolves w0) (invoke callback message).
Proof.
  unfold invoke. apply preserves_bind; [apply evolves_log|]. intros _.
  destruct callback as [f|t p].
  - apply preserves_run_script, evolves_perform.
  - apply preserves_bind; [apply evolves_disarm|]. intros _.
    destruct (Proto.response message) as [r|]; [|apply preserves_throw].
    apply preserves_bind; [|intros _; apply preserves_ret].
    pose proof (outcome_three r) as Hthree. unfold outcome in Hthree.
    destruct (Proto.error r); apply evolves_settle; exact Hthree.
Qed.

Lemma evolves_on_message data : preserves (evolves w0) (on_message data).
Proof.
  unfold on_message. apply preserves_bind; [apply preserves_gets|]. intros c.
  destruct (AppMessage c) as [[]|]; [|apply preserves_ret].
  apply preserves_bind; [apply preserves_lift|]. intros message.
  apply preserves_bind.
  - destruct (Proto.response message) as [r|]; [|apply preserves_ret].
    destruct (number_truthy (Proto.seq r)); [|apply preserves_ret].
    apply preserves_bind; [apply preserves_gets|]. intros c'.
    destruct (seqCallbacks c' !! Proto.seq r) as [callback|]; [|apply preserves_ret].
    apply preserves_bind; [apply evolves_invoke|]. intros res.
    apply preserves_bind; [|intros _; apply preserves_ret].
    apply evolves_unless; reflexivity.
  - intros [|]; [apply preserves_ret|].
    apply preserves_bind; [apply preserves_lift | intros again; apply evolves_log].
Qed.

Lemma evolves_fire_timer t : preserves (evolves w0) (fire_timer t).
Proof.
  intros w H.
  unfold exec, fire_timer. unfold_monad. cbn -[settle].
  destruct (timers w !! t) as [[timer [|]]|] eqn:Ht; cbn -[settle]; try exact H.
  apply (evolves_settle (rejects timer) (Rejected (RejError timeout_error)) eq_refl
           (with_timers (insert t (timer, false)) w)).
  eapply evolves_trans; [exact H | eapply evolves_retire, Ht].
Qed.

Lemma evolves_set_readyState k s : preserves (evolves w0) (set_readyState k s).
Proof. apply evolves_unless; reflexivity. Qed.

Lemma evolves_deliver s : preserves (evolves w0) (deliver s).
Proof.
  unfold deliver. apply preserves_bind; [apply preserves_gets|]. intros n.
  destruct s as [k|k e|k data|k|t].
  - destruct (Nat.ltb k n); [|apply preserves_ret].
    apply preserves_bind; [apply evolves_set_readyState | intros _; apply evolves_log].
  - destruct (Nat.ltb k n); [apply evolves_log | apply preserves_ret].
  - destruct (Nat.ltb k n); [apply evolves_on_message | apply preserves_ret].
  - destruct (Nat.ltb k n); [|apply preserves_ret].
    apply preserves_bind; [apply evolves_set_readyState | intros _; apply evolves_log].
  - apply evolves_fire_timer.
Qed.

Lemma evolves_step s : preserves (evolves w0) (step s).
Proof.
  destruct s; [apply preserves_method, evolves_perform | apply evolves_deliver].
Qed.

Lemma evolves_run steps : forall w, evolves w0 w -> evolves w0 (run steps w).
Proof.
  induction steps as [|s steps IH]; intros w H; cbn.
  - exact H.
  - apply IH, evolves_step, H.
Qed.

End Evolution.

(** ** Promises and their timers stay paired *)
Section Pairing.

Context `{P : Platform}.

Lemma callback_ok_frame w w' callback :
  timers w' = timers w -> callback_ok w callback -> callback_ok w' callback.
Proof. intros Ht. destruct callback; cbn; [tauto|]. rewrite Ht. tauto. Qed.

Lemma Paired_frame w w' :
  seqCallbacks (this w') = seqCallbacks (this w) ->
  promises w' = promises w ->
  timers w' = timers w ->
  Paired w -> Paired w'.
Proof.
  intros Hc Hp Ht [H1 H2 H3]. split.
  - intros k callback. rewrite Hc. intros Hk.
    eapply callback_ok_frame; [exact Ht | eapply H1, Hk].
  - intros t timer armed. rewrite Hp, Ht. apply H2.
  - intros t timer. rewrite Hp, Ht. apply H3.
Qed.

Lemma paired_log e : preserves Paired (log e).
Proof. apply preserves_modify. intros w. apply Paired_frame; reflexivity. Qed.

Lemma paired_disconnect : preserves Paired disconnect.
Proof.
  intros w H. unfold exec. rewrite disconnect_eq. cbn.
  destruct (websocket (this w)); try exact H.
  revert H. apply Paired_frame; reflexivity.
Qed.

Lemma paired_connect : preserves Paired connect.
Proof.
  intros w H. apply paired_disconnect in H.
  unfold exec at 1. rewrite connect_eq. cbn.
  revert H. apply Paired_frame; reflexivity.
Qed.

Lemma Paired_numbered callback w :
  Paired w ->
  (forall cb, callback = Some cb -> callback_ok w cb) ->
  Paired (numbered callback w).
Proof.
  intros [H1 H2 H3] Hok. split.
  - intros k cb. rewrite numbered_seqCallbacks. intros Hk.
    apply (callback_ok_frame w); [reflexivity|].
    destruct callback as [cb'|]; [|eapply H1, Hk].
    destruct (decide (k = pre_increment (seq (this w)))) as [->|Hne].
    + rewrite lookup_insert_eq in Hk. injection Hk as <-. apply Hok. reflexivity.
    + rewrite lookup_insert_ne in Hk by congruence. eapply H1, Hk.
  - exact H2.
  - exact H3.
Qed.

Lemma paired_sendRequest data callback w :
  Paired w ->
  (forall cb, callback = Some cb -> callback_ok w cb) ->
  Paired (exec (sendRequest data callback) w).
Proof.
  intros H Hok.
  destruct (AppRequest (this w)) as [[]|] eqn:Hcodec.
  - destruct (websocket (this w)) as [| |ws] eqn:Hws.
    1,2: unfold exec; rewrite sendRequest_unready
           by (right; rewrite Hws; reflexivity); exact H.
    destruct (sendRequest_numbered data callback w)
      as (Hthis & Hprom & Htimers & _);
      [split; [exact Hcodec | exists ws; exact Hws]|].
    apply (Paired_frame (numbered callback w));
      [rewrite Hthis; reflexivity | exact Hprom | exact Htimers|].
    apply Paired_numbered; assumption.
  - unfold exec. rewrite sendRequest_unready by (left; exact Hcodec). exact H.
Qed.

Lemma paired_awaiting ms w :
  Paired w ->
  Paired (awaiting ms w)
  /\ callback_ok (awaiting ms w) (AsyncFn (next_timer w) (next_promise w)).
Proof.
  intros [H1 H2 H3]. split; [split|]; cbn.
  - intros k callback Hk. specialize (H1 k callback Hk).
    destruct callback as [f|t p]; cbn in *; [exact H1|].
    destruct H1 as (ms' & armed & Ht). exists ms', armed.
    rewrite lookup_insert_ne; [exact Ht|].
    intros <-. rewrite next_timer_fresh in Ht. discriminate.
  - intros t timer armed Ht.
    destruct (decide (t = next_timer w)) as [->|Hne].
    + rewrite lookup_insert_eq in Ht. injection Ht as <- _. cbn.
      rewrite lookup_insert_eq. eauto.
    + rewrite lookup_insert_ne in Ht by congruence.
      apply lookup_insert_is_Some'. right. eapply H2, Ht.
  - intros t timer Ht.
    destruct (decide (t = next_timer w)) as [->|Hne].
    + rewrite lookup_insert_eq in Ht. discriminate.
    + rewrite lookup_insert_ne in Ht by congruence.
      rewrite lookup_insert_ne; [eapply H3, Ht|].
      intros Heq. destruct (H2 _ _ _ Ht) as [st Hst].
      rewrite <- Heq, next_promise_fresh in Hst. discriminate.
  - exists ms, true. apply lookup_insert_eq.
Qed.

(** Settling a promise on the side leaves everything paired. *)
Lemma Paired_rejected p e w : Paired w -> Paired (rejected p e w).
Proof.
  intros [H1 H2 H3]. split; cbn.
  - exact H1.
  - intros t timer armed Ht. apply lookup_insert_is_Some'. right. eapply H2, Ht.
  - intros t timer Ht.
    destruct (decide (rejects timer = p)) as [<-|Hne].
    + rewrite lookup_insert_eq. discriminate.
    + rewrite lookup_insert_ne by congruence. eapply H3, Ht.
Qed.

Lemma paired_sendRequestAsync data ms : preserves Paired (sendRequestAsync data ms).
Proof.
  intros w H. unfold exec at 1. rewrite sendRequestAsync_eq. cbn [snd].
  destruct (paired_awaiting (default 10000 ms) w H) as [Hpaired Hok].
  assert (Paired (exec (sendRequest data (Some (AsyncFn (next_timer w) (next_promise w))))
                       (awaiting (default 10000 ms) w))) as Hsent.
  { apply paired_sendRequest; [exact Hpaired|]. intros cb [= <-]. exact Hok. }
  destruct (dispatch_error data w); [apply Paired_rejected|]; exact Hsent.
Qed.

Lemma paired_perform c : user_call c -> preserves Paired (perform c).
Proof.
  apply (preserves_calls Paired user_call).
  - intros data callback Huser w H. apply paired_sendRequest; [exact H|].
    intros cb ->. inversion Huser as [? ? Hcb| | | |]; subst.
    specialize (Hcb cb eq_refl). inversion Hcb; subst. cbn. exact Hcb.
  - apply paired_sendRequestAsync.
  - apply paired_connect.
  - apply paired_disconnect.
Qed.

Lemma settle_pending_after p s w p0 :
  s <> Pending ->
  promises (exec (settle p s) w) !! p0 = Some Pending ->
  p0 <> p /\ promises w !! p0 = Some Pending.
Proof.
  intros Hs. unfold exec. rewrite settle_eq. cbn.
  destruct (promises w !! p) as [[]|] eqn:Hp; cbn; intros Hp0.
  - destruct (decide (p0 = p)) as [->|Hne].
    + rewrite lookup_insert_eq in Hp0. congruence.
    + rewrite lookup_insert_ne in Hp0 by congruence. tauto.
  - split; [congruence | exact Hp0].
  - split; [congruence | exact Hp0].
  - split; [congruence | exact Hp0].
Qed.

Lemma settle_other_fields p s w :
  this (exec (settle p s) w) = this w /\ timers (exec (settle p s) w) = timers w.
Proof.
  unfold exec. rewrite settle_eq. cbn.
  destruct (promises w !! p) as [[]|]; split; reflexivity.
Qed.

Lemma settle_is_Some p s w q :
  is_Some (promises w !! q) -> is_Some (promises (exec (settle p s) w) !! q).
Proof.
  intros Hq. unfold exec. rewrite settle_eq. cbn.
  destruct (promises w !! p) as [[]|]; cbn; try exact Hq.
  apply lookup_insert_is_Some'. right. exact Hq.
Qed.

Lemma outcome_settled r : outcome r <> Pending.
Proof. unfold outcome. destruct (Proto.error r); discriminate. Qed.

(** Taking timer [t], which rejects [p], out of service and settling
    [p] keeps everything paired. *)
Lemma Paired_retire t p timer s w :
  Paired w ->
  (exists armed, timers w !! t = Some (timer, armed)) ->
  rejects timer = p ->
  s <> Pending ->
  Paired (exec (settle p s) (with_timers (insert t (timer, false)) w)).
Proof.
  intros [H1 H2 H3] [armed Ht] Hrej Hs.
  destruct (settle_other_fields p s (with_timers (insert t (timer, false)) w))
    as [Hthis Htimers].
  split.
  - intros k callback. rewrite Hthis. cbn. intros Hk.
    specialize (H1 k callback Hk).
    destruct callback as [f|t' p']; cbn in *; [exact H1|].
    rewrite Htimers. cbn.
    destruct H1 as (ms & armed' & Ht').
    destruct (decide (t' = t)) as [->|Hne].
    + rewrite Ht in Ht'. injection Ht' as -> _.
      exists ms, false. apply lookup_insert_eq.
    + exists ms, armed'. rewrite lookup_insert_ne by congruence. exact Ht'.
  - intros t0 timer0 armed0. rewrite Htimers. cbn. intros Ht0.
    apply settle_is_Some. cbn.
    destruct (decide (t0 = t)) as [->|Hne].
    + rewrite lookup_insert_eq in Ht0. injection Ht0 as <- _. eapply H2, Ht.
    + rewrite lookup_insert_ne in Ht0 by congruence. eapply H2, Ht0.
  - intros t0 timer0. rewrite Htimers. cbn. intros Ht0 Hpending.
    apply settle_pending_after in Hpending as [Hne Hpending]; [|exact Hs].
    cbn in Hpending.
    destruct (decide (t0 = t)) as [->|Hne'].
    + rewrite lookup_insert_eq in Ht0. injection Ht0 as <-. congruence.
    + rewrite lookup_insert_ne in Ht0 by congruence.
      exact (H3 _ _ Ht0 Hpending).
Qed.

Lemma disarm_eq t timer armed w :
  timers w !! t = Some (timer, armed) ->
  disarm t w = with_timers (insert t (timer, false)) w.
Proof.
  intros Ht. unfold disarm, with_timers. f_equal.
  apply map_eq. intros t'. rewrite lookup_alter.
  destruct (decide (t = t')) as [<-|Hne].
  - rewrite lookup_insert_eq, Ht. reflexivity.
  - rewrite lookup_insert_ne by exact Hne. reflexivity.
Qed.

(** A registered callback, run on a message with a response, keeps
    everything paired, whether it returns or throws. *)
Lemma paired_invoke callback message r w :
  Proto.response message = Some r ->
  Paired w -> callback_ok w callback -> Paired (exec (invoke callback message) w).
Proof.
  intros Hr H Hok. destruct callback as [f|t p].
  - unfold exec. rewrite invoke_user.
    apply (preserves_user_script Paired).
    + cbn in Hok. inversion Hok as [? Hscript]; subst. apply Hscript.
    + apply paired_perform.
    + revert H. apply Paired_frame; reflexivity.
  - unfold exec at 1. rewrite (invoke_async t p message r w Hr). cbn [snd].
    destruct Hok as (ms & armed & Ht).
    rewrite (disarm_eq t {| delay := ms; rejects := p |} armed) by exact Ht.
    apply Paired_retire; [|exists armed; exact Ht|reflexivity|apply outcome_settled].
    revert H. apply Paired_frame; reflexivity.
Qed.

Lemma paired_unregistered k w : Paired w -> Paired (unregistered k w).
Proof.
  intros [H1 H2 H3]. split; cbn.
  - intros k' callback Hk. apply lookup_delete_Some in Hk as [_ Hk].
    apply (callback_ok_frame w); [reflexivity | eapply H1, Hk].
  - exact H2.
  - exact H3.
Qed.

Lemma paired_on_message data : preserves Paired (on_message data).
Proof.
  intros w H. unfold exec.
  destruct (on_message_cases data w)
    as [Heq|[[e Heq]|[[message Heq]|(message & r & callback & Hr & Hnz & Hcb & Heq)]]];
    rewrite Heq; cbn [snd].
  - exact H.
  - exact H.
  - revert H. apply Paired_frame; reflexivity.
  - assert (Paired (exec (invoke callback message) w)) as Hinvoked.
    { apply (paired_invoke callback message r); [exact Hr | exact H|].
      eapply paired_entries; eassumption. }
    unfold routed, exec in *.
    destruct (invoke callback message w) as [[value|e] w1]; cbn [snd] in *;
      [|exact Hinvoked].
    apply (paired_unregistered (Proto.seq r)) in Hinvoked.
    destruct (truthy value); [exact Hinvoked|].
    revert Hinvoked. apply Paired_frame; reflexivity.
Qed.

Lemma paired_fire_timer t : preserves Paired (fire_timer t).
Proof.
  intros w H. unfold exec, fire_timer. unfold_monad. cbn -[settle].
  destruct (timers w !! t) as [[timer [|]]|] eqn:Ht; cbn -[settle]; try exact H.
  unfold reject.
  apply (Paired_retire t (rejects timer) timer); try reflexivity; try discriminate.
  - exact H.
  - exists true. exact Ht.
Qed.

Lemma paired_set_readyState k s : preserves Paired (set_readyState k s).
Proof.
  apply preserves_modify. intros w. apply Paired_frame; try reflexivity.
  unfold with_this. cbn.
  destruct (websocket (this w)) as [| |ws]; try reflexivity.
  destruct (Nat.eqb (socket_id ws) k); reflexivity.
Qed.

Lemma paired_deliver s : preserves Paired (deliver s).
Proof.
  unfold deliver. apply preserves_bind; [apply preserves_gets|]. intros n.
  destruct s as [k|k e|k data|k|t].
  - destruct (Nat.ltb k n); [|apply preserves_ret].
    apply preserves_bind; [apply paired_set_readyState | intros _; apply paired_log].
  - destruct (Nat.ltb k n); [apply paired_log | apply preserves_ret].
  - destruct (Nat.ltb k n); [apply paired_on_message | apply preserves_ret].
  - destruct (Nat.ltb k n); [|apply preserves_ret].
    apply preserves_bind; [apply paired_set_readyState | intros _; apply paired_log].
  - apply paired_fire_timer.
Qed.

Lemma reachable_Paired w : reachable w -> Paired w.
Proof.
  induction 1 as [server port playerId playerToken proxy|w s _ IH Huser].
  - split; cbn.
    + intros k callback. rewrite lookup_empty. discriminate.
    + intros t timer armed. rewrite lookup_empty. discriminate.
    + intros t timer. rewrite lookup_empty. discriminate.
  - destruct s as [c|s].
    + apply preserves_method; [apply paired_perform, Huser | exact IH].
    + apply paired_deliver, IH.
Qed.

End Pairing.

(** ** What the router guarantees *)
Section Routing.

Context `{P : Platform}.

(** In a reachable state an entry of the registry sits under a
    sequence number that was handed out, and the codec is loaded. *)
Lemma reachable_entry w k callback :
  reachable w ->
  seqCallbacks (this w) !! k = Some callback ->
  k <> 0 /\ AppMessage (this w) = Some Proto_AppMessage.
Proof.
  intros Hreach Hk. apply reachable_Inv in Hreach as [H1 H2 H3 H4].
  apply H2 in Hk. split; [lia|].
  destruct H3 as [[_ H3]|(_ & _ & H3)]; [exact H3 | lia].
Qed.

(** C2 (as amended): a response frame whose sequence number has a
    pending entry runs that entry's callback exactly once.  When the
    callback returns, the entry is removed; a later frame with the same
    sequence number finds nothing, runs no callback and is handed to the
    generic ['message'] notification.  When the callback throws, the
    listener throws the same, the entry is not removed, and a later frame
    with the same sequence number runs a callback again. *)
Theorem matched_response_invokes_once_and_unregisters
    (w : World) (data data' : Wire) (message message' : Proto.AppMessage)
    (r r' : Proto.AppResponse) (callback : callbackFn) :
  reachable w ->
  AppMessage_fromBinary data = Normal message ->
  Proto.response message = Some r ->
  seqCallbacks (this w) !! Proto.seq r = Some callback ->
  AppMessage_fromBinary data' = Normal message' ->
  Proto.response message' = Some r' ->
  Proto.seq r' = Proto.seq r ->
  let w1 := exec (on_message data) w in
  let w2 := exec (on_message data') w1 in
  invocations (since w w1) = [(callback, message)]
  /\ (forall value,
        return_value callback message w = Normal value ->
        result (on_message data) w = Normal tt
        /\ seqCallbacks (this w1) !! Proto.seq r = None
        /\ result (on_message data') w1 = Normal tt
        /\ since w1 w2 = [Emit (EvMessage message')])
  /\ (forall e,
        return_value callback message w = Throw e ->
        result (on_message data) w = Throw e
        /\ is_Some (seqCallbacks (this w1) !! Proto.seq r)
        /\ exists callback', invocations (since w1 w2) = [(callback', message')]).
Proof.
  intros Hreach Hdecode Hr Hcb Hdecode' Hr' Hsame w1 w2.
  destruct (reachable_entry w _ _ Hreach Hcb) as [Hnz Hcodec].
  destruct (on_message_matched_effects w data message r callback
              Hcodec Hdecode Hr Hnz Hcb)
    as (Hinv & Hcodec1 & Hreturns & Hthrows).
  fold w1 in Hinv, Hcodec1, Hreturns, Hthrows.
  split; [exact Hinv|]. split.
  - intros value Hvalue.
    destruct (Hreturns value Hvalue) as (Hres & _ & Hgone).
    split; [exact Hres|]. split; [exact Hgone|].
    assert (on_message data' w1 = (Normal tt, logged (Emit (EvMessage message')) w1))
      as Hsecond.
    { apply on_message_unmatched; [exact Hcodec1 | exact Hdecode' |].
      rewrite Hr'. right. rewrite Hsame. exact Hgone. }
    subst w2. unfold result, exec at 1. rewrite Hsecond. cbn.
    split; [reflexivity|].
    apply since_app. reflexivity.
  - intros e He.
    destruct (Hthrows e He) as (Hres & _ & [callback' Hkept]).
    split; [exact Hres|]. split; [eauto|].
    exists callback'.
    rewrite <- Hsame in Hkept, Hnz.
    destruct (on_message_matched_effects w1 data' message' r' callback'
                Hcodec1 Hdecode' Hr' Hnz Hkept) as (Hagain & _).
    exact Hagain.
Qed.

(** C4: for a matched response frame the callback's return value
    decides: truthy, and the frame raises no generic ['message']
    notification; falsy, and it raises exactly one, carrying the decoded
    message the callback was given. *)
Theorem suppress_signal_decides_generic_notification
    (w : World) (data : Wire) (message : Proto.AppMessage)
    (r : Proto.AppResponse) (callback : callbackFn) :
  reachable w ->
  AppMessage_fromBinary data = Normal message ->
  Proto.response message = Some r ->
  seqCallbacks (this w) !! Proto.seq r = Some callback ->
  let w1 := exec (on_message data) w in
  invocations (since w w1) = [(callback, message)]
  /\ (forall value,
        return_value callback message w = Normal value ->
        truthy value = true ->
        message_notifications (since w w1) = [])
  /\ (forall value,
        return_value callback message w = Normal value ->
        truthy value = false ->
        message_notifications (since w w1) = [message]).
Proof.
  intros Hreach Hdecode Hr Hcb w1.
  destruct (reachable_entry w _ _ Hreach Hcb) as [Hnz Hcodec].
  destruct (on_message_matched_effects w data message r callback
              Hcodec Hdecode Hr Hnz Hcb)
    as (Hinv & _ & Hreturns & _).
  fold w1 in Hinv, Hreturns.
  split; [exact Hinv|].
  split; intros value Hvalue Htruthy;
    destruct (Hreturns value Hvalue) as (_ & Hmsg & _);
    rewrite Htruthy in Hmsg; exact Hmsg.
Qed.

(** C10: when the callback of a matched response frame returns a
    Promise, the frame raises no generic ['message'] notification: the
    Promise object is truthy whatever it later resolves to. *)
Theorem promise_return_suppresses_generic_notification
    (w : World) (data : Wire) (message : Proto.AppMessage)
    (r : Proto.AppResponse) (callback : callbackFn) :
  reachable w ->
  AppMessage_fromBinary data = Normal message ->
  Proto.response message = Some r ->
  seqCallbacks (this w) !! Proto.seq r = Some callback ->
  return_value callback message w = Normal RetPromise ->
  invocations (since w (exec (on_message data) w)) = [(callback, message)]
  /\ message_notifications (since w (exec (on_message data) w)) = [].
Proof.
  intros Hreach Hdecode Hr Hcb Hpromise.
  destruct (reachable_entry w _ _ Hreach Hcb) as [Hnz Hcodec].
  destruct (on_message_matched_effects w data message r callback
              Hcodec Hdecode Hr Hnz Hcb)
    as (Hinv & _ & Hreturns & _).
  destruct (Hreturns RetPromise Hpromise) as (_ & Hmsg & _).
  split; [exact Hinv | exact Hmsg].
Qed.

(** C7: a response frame that carries sequence number 0 is matched to
    no entry, whatever the registry holds: no callback runs, nothing is
    removed, and the frame raises the generic ['message'] notification
    and nothing else. *)
Theorem sequence_zero_is_never_matched
    (w : World) (data : Wire) (message : Proto.AppMessage)
    (r : Proto.AppResponse) :
  AppMessage (this w) = Some Proto_AppMessage ->
  AppMessage_fromBinary data = Normal message ->
  Proto.response message = Some r ->
  Proto.seq r = 0 ->
  let w1 := exec (on_message data) w in
  result (on_message data) w = Normal tt
  /\ since w w1 = [Emit (EvMessage message)]
  /\ invocations (since w w1) = []
  /\ seqCallbacks (this w1) = seqCallbacks (this w)
  /\ w1 = logged (Emit (EvMessage message)) w.
Proof.
  intros Hcodec Hdecode Hr Hzero w1.
  assert (on_message data w = (Normal tt, logged (Emit (EvMessage message)) w)) as Heq.
  { apply on_message_unmatched; [exact Hcodec | exact Hdecode |].
    rewrite Hr. left. exact Hzero. }
  subst w1. unfold result, exec. rewrite Heq. cbn.
  assert (since w (logged (Emit (EvMessage message)) w) = [Emit (EvMessage message)])
    as Hsince by (apply since_app; reflexivity).
  rewrite Hsince. repeat split; reflexivity.
Qed.

(** The same for a frame arriving on any socket the client opened. *)
Lemma sequence_zero_delivered w k data message r :
  reachable w ->
  (k < sockets w)%nat ->
  AppMessage_fromBinary data = Normal message ->
  Proto.response message = Some r ->
  Proto.seq r = 0 ->
  deliver (SigMessage k data) w = (Normal tt, logged (Emit (EvMessage message)) w).
Proof.
  intros Hreach Hk Hdecode Hr Hzero.
  apply reachable_Inv in Hreach as [_ _ H3 _].
  unfold deliver, bind, gets. cbn -[Nat.ltb on_message].
  destruct (Nat.ltb_spec k (sockets w)) as [_|]; [|lia].
  apply on_message_unmatched; [|exact Hdecode|rewrite Hr; left; exact Hzero].
  destruct H3 as [[_ H3]|(_ & H3 & _)]; [exact H3 | lia].
Qed.

End Routing.

Section RoutingOnLoopback.

Import Loopback.

Lemma connecting_reachable : reachable (P := platform) connecting.
Proof.
  unfold connecting. rewrite <- perform_connect, <- step_method.
  apply reachable_step; [apply reachable_new | constructor].
Qed.

Lemma connected_reachable : reachable (P := platform) connected.
Proof.
  apply (reachable_step _ (Env (SigOpen 0%nat))); [|exact I].
  apply connecting_reachable.
Qed.

Lemma waiting_reachable callback :
  user_callback callback ->
  reachable (P := platform) (waiting callback).
Proof.
  intros Huser. unfold waiting.
  rewrite <- perform_sendRequest, <- step_method.
  apply reachable_step.
  - apply connected_reachable.
  - constructor. intros cb [= <-]. exact Huser.
Qed.

Lemma plain_user : user_callback plain.
Proof. constructor. intros _. constructor. Qed.

Lemma suppressing_user : user_callback suppressing.
Proof. constructor. intros _. constructor. Qed.

Lemma asynchronous_user : user_callback asynchronous.
Proof. constructor. intros _. constructor. Qed.

Lemma failing_user : user_callback failing.
Proof. constructor. intros _. constructor. Qed.

Lemma chaining_user : user_callback chaining.
Proof.
  constructor. intros _. constructor.
  - constructor. intros cb [=].
  - intros _. constructor.
Qed.

Lemma waiting_entry callback :
  seqCallbacks (this (waiting callback)) !! 1 = Some callback.
Proof. reflexivity. Qed.

Lemma duplicate_response_reaches_message_listeners :
  let w := waiting plain in
  let w1 := exec (P := platform) (on_message (P := platform) (response_frame 1 None)) w in
  let w2 := exec (P := platform) (on_message (P := platform) (response_frame 1 None)) w1 in
  invocations (since w w1) = [(plain, message_of 1 None)]
  /\ result (on_message (P := platform) (response_frame 1 None)) w = Normal tt
  /\ seqCallbacks (this w1) !! 1 = None
  /\ result (on_message (P := platform) (response_frame 1 None)) w1 = Normal tt
  /\ since w1 w2 = [Emit (EvMessage (message_of 1 None))].
Proof.
  destruct (matched_response_invokes_once_and_unregisters (P := platform)
              (waiting plain) (response_frame 1 None) (response_frame 1 None)
              (message_of 1 None) (message_of 1 None)
              (response_of 1 None) (response_of 1 None) plain
              (waiting_reachable plain plain_user) eq_refl eq_refl
              (waiting_entry plain) eq_refl eq_refl eq_refl)
    as (Hinv & Hreturns & _).
  split; [exact Hinv|].
  exact (Hreturns RetVoid eq_refl).
Defined.

(** C2 (as stated) fails for a callback that throws: the entry is
    still there after the frame, and the same frame again runs the
    callback again instead of reaching the generic notification. *)
Lemma throwing_callback_keeps_its_entry :
  let w := waiting failing in
  let w1 := exec (P := platform) (on_message (P := platform) (response_frame 1 None)) w in
  let w2 := exec (P := platform) (on_message (P := platform) (response_frame 1 None)) w1 in
  reachable (P := platform) w
  /\ seqCallbacks (this w) !! 1 = Some failing
  /\ result (on_message (P := platform) (response_frame 1 None)) w
     = Throw (Error "callback failed")
  /\ invocations (since w w1) = [(failing, message_of 1 None)]
  /\ seqCallbacks (this w1) !! 1 = Some failing
  /\ invocations (since w1 w2) = [(failing, message_of 1 None)]
  /\ message_notifications (since w w2) = [].
Proof.
  split; [apply waiting_reachable, failing_user|].
  split; [reflexivity|].
  split; [vm_compute; reflexivity|].
  split; [vm_compute; reflexivity|].
  split; [vm_compute; reflexivity|].
  split; vm_compute; reflexivity.
Qed.

(** A callback that calls back into the client: while the response to
    request 1 is handled, its own request is numbered 2 and sent, and the
    entry of request 1 goes when the callback has returned. *)
Example chained_request_is_numbered_2 :
  let w := waiting chaining in
  let w1 := exec (P := platform) (on_message (P := platform) (response_frame 1 None)) w in
  reachable (P := platform) w
  /\ invocations (since w w1) = [(chaining, message_of 1 None)]
  /\ seq (this w1) = 2
  /\ length (sent_frames (since w w1)) = 1%nat
  /\ seqCallbacks (this w1) !! 1 = None
  /\ message_notifications (since w w1) = [message_of 1 None].
Proof.
  split; [apply waiting_reachable, chaining_user|].
  repeat split; vm_compute; reflexivity.
Qed.

Lemma suppressing_callback_silences_message_event :
  let w := waiting suppressing in
  let w1 := exec (P := platform) (on_message (P := platform) (response_frame 1 None)) w in
  invocations (since w w1) = [(suppressing, message_of 1 None)]
  /\ message_notifications (since w w1) = [].
Proof.
  destruct (suppress_signal_decides_generic_notification (P := platform)
              (waiting suppressing) (response_frame 1 None)
              (message_of 1 None) (response_of 1 None) suppressing
              (waiting_reachable suppressing suppressing_user) eq_refl eq_refl
              (waiting_entry suppressing))
    as (Hinv & Htruthy & _).
  split; [exact Hinv|].
  exact (Htruthy (RetBool true) eq_refl eq_refl).
Defined.

Lemma async_callback_silences_message_event :
  invocations (since (waiting asynchronous)
                 (exec (P := platform) (on_message (P := platform) (response_frame 1 None))
                       (waiting asynchronous)))
    = [(asynchronous, message_of 1 None)]
  /\ message_notifications
       (since (waiting asynchronous)
          (exec (P := platform) (on_message (P := platform) (response_frame 1 None))
                (waiting asynchronous))) = [].
Proof.
  apply (promise_return_suppresses_generic_notification (P := platform)
           (waiting asynchronous) (response_frame 1 None)
           (message_of 1 None) (response_of 1 None) asynchronous).
  - apply waiting_reachable, asynchronous_user.
  - reflexivity.
  - reflexivity.
  - apply waiting_entry.
  - reflexivity.
Defined.

Lemma zero_sequence_response_only_notifies :
  let w := waiting plain in
  let w1 := exec (P := platform) (on_message (P := platform) (response_frame 0 None)) w in
  result (on_message (P := platform) (response_frame 0 None)) w = Normal tt
  /\ since w w1 = [Emit (EvMessage (message_of 0 None))]
  /\ invocations (since w w1) = []
  /\ seqCallbacks (this w1) = seqCallbacks (this w)
  /\ w1 = logged (Emit (EvMessage (message_of 0 None))) w.
Proof.
  apply (sequence_zero_is_never_matched (P := platform)
           (waiting plain) (response_frame 0 None)
           (message_of 0 None) (response_of 0 None)).
  - reflexivity.
  - reflexivity.
  - reflexivity.
  - reflexivity.
Defined.

End RoutingOnLoopback.

(** ** Payload merge, the guard of the dispatcher, and the handle *)
Section Boundary.

Context `{P : Platform}.

Lemma since_self w : since w w = [].
Proof. unfold since. apply drop_all. Qed.

Lemma merge_request_caller currentSeq c (data : Proto.AppRequest) k v :
  data !! k = Some v -> merge_request currentSeq c data !! k = Some v.
Proof. intros Hk. unfold merge_request. apply lookup_union_Some_l, Hk. Qed.

(** C3 (as amended): in the request that is encoded and, when the
    encoder and the transport take it, sent, every field the caller's
    payload carries keeps the caller's value, [seq], [playerId] and
    [playerToken] included; the dispatcher's sequence number and identity
    appear only where the payload has no such field.  The counter and the
    registry key are the dispatcher's own either way. *)
Theorem caller_payload_overrides_dispatcher_fields
    (w : World) (data : Proto.AppRequest) (callback : option callbackFn) :
  ready w ->
  let currentSeq := pre_increment (seq (this w)) in
  let w1 := exec (sendRequest data callback) w in
  exists request,
    (forall ws frame,
        websocket (this w) = HSocket ws ->
        AppRequest_toBinary request = Normal frame ->
        WebSocket_send ws frame = Normal tt ->
        sent_frames (since w w1) = [frame])
    /\ (forall k v, data !! k = Some v -> request !! k = Some v)
    /\ (data !! "seq" = None -> request !! "seq" = Some (VNum currentSeq))
    /\ (data !! "playerId" = None ->
        request !! "playerId" = Some (VStr (_playerId (this w))))
    /\ (data !! "playerToken" = None ->
        request !! "playerToken" = Some (_playerToken (this w)))
    /\ seq (this w1) = currentSeq
    /\ (forall cb, callback = Some cb ->
                   seqCallbacks (this w1) !! currentSeq = Some cb).
Proof.
  intros Hready currentSeq w1.
  exists (merge_request currentSeq (this w) data).
  split; [|split; [|split; [|split; [|split; [|split]]]]].
  - intros ws frame Hws Hencode Hsend.
    pose proof (sendRequest_frames data callback w ws frame
                  (proj1 Hready) Hws Hencode Hsend) as Hframes.
    destruct (sendRequest_numbered data callback w Hready)
      as (_ & _ & _ & _ & suffix & Htrace & _).
    fold w1 in Hframes, Htrace.
    rewrite (since_app _ _ _ Htrace).
    rewrite Htrace, sent_frames_app in Hframes.
    apply app_inv_head in Hframes. exact Hframes.
  - intros k v. apply merge_request_caller.
  - apply merge_request_seq.
  - intros Hnone. unfold merge_request.
    rewrite lookup_union_r by exact Hnone.
    rewrite lookup_insert_ne by discriminate. apply lookup_insert_eq.
  - intros Hnone. unfold merge_request.
    rewrite lookup_union_r by exact Hnone.
    rewrite !lookup_insert_ne by discriminate. apply lookup_insert_eq.
  - apply sendRequest_seq, Hready.
  - intros cb ->. subst w1. rewrite sendRequest_seqCallbacks by exact Hready.
    apply lookup_insert_eq.
Qed.

(** C6: without a loaded codec or without a transport handle
    [sendRequest] returns normally and changes nothing: nothing is sent,
    registered or emitted, and counter and registry stay as they were. *)
Theorem sendRequest_without_codec_or_handle_is_silent
    (w : World) (data : Proto.AppRequest) (callback : option callbackFn) :
  AppRequest (this w) = None \/ handle_truthy (websocket (this w)) = false ->
  let w1 := exec (sendRequest data callback) w in
  result (sendRequest data callback) w = Normal tt
  /\ w1 = w
  /\ since w w1 = []
  /\ seq (this w1) = seq (this w)
  /\ seqCallbacks (this w1) = seqCallbacks (this w).
Proof.
  intros Hunready w1. subst w1. unfold result, exec.
  rewrite (sendRequest_unready data callback w Hunready). cbn.
  rewrite since_self. repeat split; reflexivity.
Qed.

Lemma ReadyState_eqb_OPEN s : ReadyState_eqb s OPEN = true <-> s = OPEN.
Proof. destruct s; cbn; split; congruence. Qed.

Lemma deliver_readyState w ws s e :
  websocket (this w) = HSocket ws ->
  (socket_id ws < sockets w)%nat ->
  websocket (this (exec (set_readyState (socket_id ws) s ;; emit e) w)) =
  HSocket {| socket_id := socket_id ws; address := address ws; readyState := s |}.
Proof.
  intros Hws _. unfold set_readyState. unfold_monad. cbn.
  rewrite Hws. rewrite Nat.eqb_refl. reflexivity.
Qed.

(** C8: [isConnected()] never throws and never changes anything; it
    answers [true] exactly when a handle exists whose [readyState] is
    [OPEN].  So it answers [false] on a new client, after
    [disconnect()], and after the handle's ['close'] signal, and [true]
    after the handle's ['open'] signal. *)
Theorem isConnected_iff_handle_open (w : World) :
  reachable w ->
  (exists b, isConnected w = (Normal b, w)
             /\ (b = true <->
                 exists ws, websocket (this w) = HSocket ws /\ readyState ws = OPEN))
  /\ (handle_truthy (websocket (this w)) = false ->
      isConnected w = (Normal false, w))
  /\ (forall server port playerId playerToken proxy,
        result isConnected
          (fresh_world (new_RustPlus server port playerId playerToken proxy))
        = Normal false)
  /\ result isConnected (exec disconnect w) = Normal false
  /\ (forall ws, websocket (this w) = HSocket ws ->
        result isConnected (exec (deliver (SigClose (socket_id ws))) w) = Normal false
        /\ result isConnected (exec (deliver (SigOpen (socket_id ws))) w) = Normal true).
Proof.
  intros Hreach.
  split; [|split; [|split; [|split]]].
  - eexists. split; [apply isConnected_eq|].
    destruct (websocket (this w)) as [| |ws]; split.
    1,3: discriminate.
    1,2: intros (ws' & [=] & _).
    + intros Hb. exists ws. split; [reflexivity | apply ReadyState_eqb_OPEN, Hb].
    + intros (ws' & [= <-] & Hopen). apply ReadyState_eqb_OPEN, Hopen.
  - intros Hfalsy. rewrite isConnected_eq.
    destruct (websocket (this w)); [reflexivity | reflexivity | discriminate].
  - intros. reflexivity.
  - unfold result. rewrite isConnected_eq. cbn.
    unfold exec. rewrite disconnect_eq. cbn.
    destruct (websocket (this w)) eqn:Hws; cbn; rewrite ?Hws; reflexivity.
  - intros ws Hws.
    pose proof (inv_handle w (reachable_Inv w Hreach) ws Hws) as Hid.
    unfold result. rewrite !isConnected_eq. cbn.
    unfold deliver. unfold exec, bind at 1 3, gets. cbn -[Nat.ltb set_readyState emit].
    destruct (Nat.ltb_spec (socket_id ws) (sockets w)) as [_|]; [|lia].
    fold (exec (set_readyState (socket_id ws) CLOSED;; emit EvDisconnected) w).
    fold (exec (set_readyState (socket_id ws) OPEN;; emit EvConnected) w).
    rewrite !(deliver_readyState w ws) by assumption.
    split; reflexivity.
Qed.

(** C9: [disconnect()] never throws and leaves no handle behind; with
    no handle (as on a client that never connected) it changes nothing;
    with a handle it terminates the socket and sets the handle to
    [null]; calling it twice is the same as calling it once. *)
Theorem disconnect_is_idempotent (w : World) :
  result disconnect w = Normal tt
  /\ handle_truthy (websocket (this (exec disconnect w))) = false
  /\ (handle_truthy (websocket (this w)) = false -> disconnect w = (Normal tt, w))
  /\ (forall server port playerId playerToken proxy,
        disconnect (fresh_world (new_RustPlus server port playerId playerToken proxy))
        = (Normal tt,
           fresh_world (new_RustPlus server port playerId playerToken proxy)))
  /\ (forall ws, websocket (this w) = HSocket ws ->
        since w (exec disconnect w) = [Terminate (socket_id ws)]
        /\ websocket (this (exec disconnect w)) = HNull)
  /\ disconnect (exec disconnect w) = (Normal tt, exec disconnect w).
Proof.
  unfold result, exec. rewrite !disconnect_eq. cbn.
  split; [reflexivity|].
  split; [destruct (websocket (this w)) eqn:Hws; cbn; rewrite ?Hws; reflexivity|].
  split; [intros Hfalsy; destruct (websocket (this w));
          [reflexivity | reflexivity | discriminate]|].
  split; [intros; reflexivity|].
  split.
  - intros ws Hws. rewrite Hws. cbn. split; [|reflexivity].
    apply since_app. reflexivity.
  - destruct (websocket (this w)) eqn:Hws; cbn; rewrite ?Hws; reflexivity.
Qed.

End Boundary.

Section BoundaryOnLoopback.

Import Loopback.

(** C3 (as stated) fails: a payload that names [seq], [playerId] and
    [playerToken] goes out with its own values, not with sequence
    number 1 and the client's identity. *)
Lemma forged_fields_reach_the_wire :
  ready (P := platform) connected
  /\ sent_frames (since connected (exec (sendRequest forged None) connected))
     = [RequestFrame forged]
  /\ forged !! "seq" = Some (VNum 99)
  /\ forged !! "playerId" = Some (VStr "0")
  /\ forged !! "playerToken" = Some (VNum 0)
  /\ seq (this (exec (sendRequest forged None) connected)) = 1
  /\ _playerId (this connected) = "76561198000000000"
  /\ _playerToken (this connected) = VNum 123456.
Proof.
  split; [exact connected_ready|].
  split; [vm_compute; reflexivity|].
  repeat split; vm_compute; reflexivity.
Qed.

Lemma forged_payload_keeps_its_fields :
  exists request,
    (forall ws frame,
        websocket (this connected) = HSocket ws ->
        AppRequest_toBinary (Platform := platform) request = Normal frame ->
        WebSocket_send ws frame = Normal tt ->
        sent_frames (since connected (exec (sendRequest forged None) connected))
          = [frame])
    /\ (forall k v, forged !! k = Some v -> request !! k = Some v)
    /\ (forged !! "seq" = None -> request !! "seq" = Some (VNum (pre_increment 0)))
    /\ (forged !! "playerId" = None ->
        request !! "playerId" = Some (VStr "76561198000000000"))
    /\ (forged !! "playerToken" = None ->
        request !! "playerToken" = Some (VNum 123456))
    /\ seq (this (exec (sendRequest forged None) connected)) = pre_increment 0
    /\ (forall cb, None = Some cb ->
          seqCallbacks (this (exec (sendRequest forged None) connected))
            !! pre_increment 0 = Some cb).
Proof.
  apply (caller_payload_overrides_dispatcher_fields (P := platform)
           connected forged None).
  exact connected_ready.
Defined.

Lemma sendRequest_before_connect_is_silent :
  let w1 := exec (P := platform) (sendRequest getTime (Some plain)) constructed in
  result (sendRequest getTime (Some plain)) constructed = Normal tt
  /\ w1 = constructed
  /\ since constructed w1 = []
  /\ seq (this w1) = seq (this constructed)
  /\ seqCallbacks (this w1) = seqCallbacks (this constructed).
Proof.
  apply (sendRequest_without_codec_or_handle_is_silent (P := platform)
           constructed getTime (Some plain)).
  left. reflexivity.
Defined.

Lemma isConnected_on_connected_client :
  (exists b, isConnected connected = (Normal b, connected)
             /\ (b = true <->
                 exists ws, websocket (this connected) = HSocket ws
                            /\ readyState ws = OPEN))
  /\ result (P := platform) isConnected (exec disconnect connected) = Normal false.
Proof.
  destruct (isConnected_iff_handle_open (P := platform) connected connected_reachable)
    as (Hiff & _ & _ & Hdisc & _).
  split; [exact Hiff | exact Hdisc].
Defined.

End BoundaryOnLoopback.


(** ** The promise facade *)
Section Facade.

Context `{P : Platform}.

Lemma timer_rejects t timer p w :
  timers w !! t = Some (timer, true) ->
  rejects timer = p ->
  promises w !! p = Some Pending ->
  promises (exec (deliver (SigTimer t)) w) !! p
    = Some (Rejected (RejError timeout_error)).
Proof.
  intros Ht Hrej Hp.
  unfold exec, deliver, fire_timer, reject. unfold_monad. cbn -[settle].
  rewrite Ht. cbn -[settle]. rewrite settle_eq. cbn.
  rewrite Hrej, Hp. cbn. apply lookup_insert_eq.
Qed.

(** The router on a frame matched to a closure of
    [sendRequestAsync]. *)
Lemma on_message_async data message r t p w :
  AppMessage (this w) = Some Proto_AppMessage ->
  AppMessage_fromBinary data = Normal message ->
  Proto.response message = Some r ->
  Proto.seq r <> 0 ->
  seqCallbacks (this w) !! Proto.seq r = Some (AsyncFn t p) ->
  on_message data w =
  (Normal tt,
   logged (Emit (EvMessage message))
     (unregistered (Proto.seq r)
        (exec (settle p (outcome r))
              (disarm t (logged (Invoke (AsyncFn t p) message) w))))).
Proof.
  intros Hcodec Hdecode Hr Hnz Hcb.
  rewrite (on_message_matched_eq data message r (AsyncFn t p) w) by assumption.
  unfold routed. rewrite (invoke_async t p message r w Hr). reflexivity.
Qed.

Lemma response_settles data message r t p w :
  AppMessage (this w) = Some Proto_AppMessage ->
  AppMessage_fromBinary data = Normal message ->
  Proto.response message = Some r ->
  Proto.seq r <> 0 ->
  seqCallbacks (this w) !! Proto.seq r = Some (AsyncFn t p) ->
  promises w !! p = Some Pending ->
  promises (exec (on_message data) w) !! p = Some (outcome r)
  /\ deliver (SigTimer t) (exec (on_message data) w)
     = (Normal tt, exec (on_message data) w).
Proof.
  intros Hcodec Hdecode Hr Hnz Hcb Hp.
  unfold exec at 1 2 3.
  rewrite (on_message_async data message r t p w) by assumption.
  cbn [snd].
  unfold exec. rewrite settle_eq. cbn. rewrite Hp. cbn.
  split; [apply lookup_insert_eq|].
  unfold deliver, fire_timer. unfold_monad. cbn.
  rewrite lookup_alter. destruct (decide (t = t)) as [_|]; [|congruence].
  destruct (timers w !! t) as [[timer armed]|]; reflexivity.
Qed.

Lemma reachable_run steps : forall w,
  reachable w -> Forall user_step steps -> reachable (run steps w).
Proof.
  induction steps as [|s steps IH]; intros w Hreach Huser; cbn.
  - exact Hreach.
  - inversion Huser; subst.
    apply IH; [apply reachable_step|]; assumption.
Qed.

(** The promise and the timer right after [sendRequestAsync]. *)
Lemma sendRequestAsync_starts data timeoutMilliseconds w :
  let ms := default 10000 timeoutMilliseconds in
  let p := next_promise w in
  let t := next_timer w in
  let w1 := exec (sendRequestAsync data timeoutMilliseconds) w in
  promises w1 !! p = Some match dispatch_error data w with
                          | Some e => Rejected (RejError e)
                          | None => Pending
                          end
  /\ timers w1 !! t = Some ({| delay := ms; rejects := p |}, true)
  /\ (ready w ->
      seqCallbacks (this w1) !! pre_increment (seq (this w)) = Some (AsyncFn t p)).
Proof.
  intros ms p t w1. subst w1.
  unfold exec at 1 2 3. rewrite sendRequestAsync_eq. cbn [snd]. fold ms p t.
  set (w1 := exec (sendRequest data (Some (AsyncFn t p))) (awaiting ms w)).
  destruct (sendRequest_quiet data (Some (AsyncFn t p)) (awaiting ms w))
    as [_ _ _ Hprom Htimers].
  fold w1 in Hprom, Htimers.
  assert (promises w1 !! p = Some Pending) as Hp1
    by (apply Hprom; apply lookup_insert_eq).
  assert (timers w1 !! t = Some ({| delay := ms; rejects := p |}, true)) as Ht1
    by (apply Htimers; apply lookup_insert_eq).
  assert (ready w ->
          seqCallbacks (this w1) !! pre_increment (seq (this w)) = Some (AsyncFn t p))
    as Hentry.
  { intros Hready. subst w1.
    rewrite (sendRequest_seqCallbacks data (Some (AsyncFn t p)) (awaiting ms w))
      by exact Hready.
    apply lookup_insert_eq. }
  destruct (dispatch_error data w) as [e|]; cbn.
  - split; [apply lookup_insert_eq|]. split; [exact Ht1 | exact Hentry].
  - split; [exact Hp1|]. split; [exact Ht1 | exact Hentry].
Qed.

(** C5 (as amended): [sendRequestAsync] hands back a promise and arms
    one timer for it, with the given delay or 10000.  When the dispatch
    throws (the encoder rejects the request, or [send] throws), the
    promise is rejected at once with what was thrown, and no step changes
    it afterwards.  When the dispatch does not throw, the promise is
    pending, and from then on, whatever the client goes through, it is
    pending or settled in one of three ways only: rejected with the
    timeout error, rejected with the error of a response, or fulfilled
    with a response that carries no error.  While it is pending its
    timer is still armed: the timer going off rejects it with the timeout
    error, and a response for its registry entry settles it by the
    response and takes the timer out of service, so that the timer going
    off afterwards changes nothing.  Once it is settled, no step changes
    it again. *)
Theorem sendRequestAsync_settles_in_exactly_one_way
    (w : World) (data : Proto.AppRequest) (timeoutMilliseconds : option Z) :
  reachable w ->
  let ms := default 10000 timeoutMilliseconds in
  let p := next_promise w in
  let t := next_timer w in
  let w1 := exec (sendRequestAsync data timeoutMilliseconds) w in
  result (sendRequestAsync data timeoutMilliseconds) w = Normal p
  /\ promises w !! p = None
  /\ timers w1 !! t = Some ({| delay := ms; rejects := p |}, true)
  /\ (ready w ->
      seqCallbacks (this w1) !! pre_increment (seq (this w)) = Some (AsyncFn t p))
  /\ (forall e,
        dispatch_error data w = Some e ->
        promises w1 !! p = Some (Rejected (RejError e))
        /\ forall steps, promises (run steps w1) !! p = Some (Rejected (RejError e)))
  /\ (dispatch_error data w = None ->
      promises w1 !! p = Some Pending
      /\ forall steps,
           Forall user_step steps ->
           let w2 := run steps w1 in
           (exists st, promises w2 !! p = Some st /\ three_outcomes st)
           /\ (promises w2 !! p = Some Pending ->
               timers w2 !! t = Some ({| delay := ms; rejects := p |}, true)
               /\ promises (exec (deliver (SigTimer t)) w2) !! p
                  = Some (Rejected (RejError timeout_error))
               /\ forall data' message r,
                    AppMessage_fromBinary data' = Normal message ->
                    Proto.response message = Some r ->
                    seqCallbacks (this w2) !! Proto.seq r = Some (AsyncFn t p) ->
                    promises (exec (on_message data') w2) !! p = Some (outcome r)
                    /\ deliver (SigTimer t) (exec (on_message data') w2)
                       = (Normal tt, exec (on_message data') w2))
           /\ (forall st,
                 promises w2 !! p = Some st -> settled st ->
                 forall s, promises (exec (step s) w2) !! p = Some st)).
Proof.
  intros Hreach ms p t w1.
  destruct (sendRequestAsync_starts data timeoutMilliseconds w)
    as (Hp1 & Ht1 & Hentry).
  fold ms p t w1 in Hp1, Ht1, Hentry.
  split; [apply sendRequestAsync_result|].
  split; [apply next_promise_fresh|].
  split; [exact Ht1|].
  split; [exact Hentry|].
  split.
  { intros e He. rewrite He in Hp1. split; [exact Hp1|].
    intros steps.
    apply (evolves_settled w1 (run steps w1)); [|exact Hp1|discriminate].
    apply evolves_run, evolves_refl. }
  intros Hnone. rewrite Hnone in Hp1. split; [exact Hp1|].
  intros steps Huser w2.
  assert (reachable w1) as Hreach1.
  { subst w1. rewrite <- perform_sendRequestAsync, <- step_method.
    apply reachable_step; [exact Hreach | constructor]. }
  assert (reachable w2) as Hreach2 by (apply reachable_run; assumption).
  pose proof (evolves_run w1 steps w1 (evolves_refl w1)) as Hevolves.
  fold w2 in Hevolves.
  pose proof (reachable_Paired w2 Hreach2) as Hpaired.
  split; [|split].
  - apply (evolves_outcomes _ _ Hevolves p Hp1).
  - intros Hpending.
    destruct (evolves_timers _ _ Hevolves t _ _ Ht1) as [armed Ht2].
    assert (armed = true) as ->.
    { destruct armed; [reflexivity|].
      exfalso. exact (paired_disarmed _ Hpaired _ _ Ht2 Hpending). }
    split; [exact Ht2|].
    split; [eapply timer_rejects; [exact Ht2 | reflexivity | exact Hpending]|].
    intros data' message r Hdecode Hr Hcb.
    destruct (reachable_entry w2 _ _ Hreach2 Hcb) as [Hnz Hcodec].
    apply (response_settles data' message r t p w2); assumption.
  - intros st Hst Hsettled s.
    eapply evolves_settled; [|exact Hst|exact Hsettled].
    apply evolves_step, evolves_refl.
Qed.

End Facade.

Section FacadeOnLoopback.

Import Loopback.

Lemma getTime_promise_starts_pending :
  result (P := platform) (sendRequestAsync getTime None) connected
    = Normal (next_promise connected)
  /\ promises awaited !! next_promise connected = Some Pending
  /\ timers awaited !! next_timer connected
     = Some ({| delay := default 10000 None; rejects := next_promise connected |}, true).
Proof.
  assert (dispatch_error (P := platform) getTime connected = None) as Hsent
    by (vm_compute; reflexivity).
  destruct (sendRequestAsync_settles_in_exactly_one_way (P := platform)
              connected getTime None connected_reachable)
    as (Hres & _ & Htimer & _ & _ & Hpending).
  split; [exact Hres|]. split; [exact (proj1 (Hpending Hsent)) | exact Htimer].
Defined.

(** C5 (as stated) fails when the dispatch throws: on a socket that is
    still connecting [send] throws, and the promise is rejected at once
    with that error, which is neither the timeout error nor a response.
    Nothing was sent, and the timer is still armed. *)
Lemma connecting_socket_rejects_promise_at_once :
  let w1 := exec (P := platform) (sendRequestAsync getTime None) connecting in
  reachable (P := platform) connecting
  /\ ready (P := platform) connecting
  /\ result (P := platform) (sendRequestAsync getTime None) connecting = Normal 0%nat
  /\ promises w1 !! 0%nat
     = Some (Rejected (RejError
               (Error "WebSocket is not open: readyState 0 (CONNECTING)")))
  /\ ~ three_outcomes
         (Rejected (RejError
            (Error "WebSocket is not open: readyState 0 (CONNECTING)")))
  /\ since connecting w1 = []
  /\ timers w1 !! 0%nat = Some ({| delay := 10000; rejects := 0%nat |}, true).
Proof.
  intros w1.
  split; [exact connecting_reachable|].
  split; [split; [reflexivity | eexists; reflexivity]|].
  split; [vm_compute; reflexivity|].
  split; [vm_compute; reflexivity|].
  split; [intros Hthree; discriminate Hthree|].
  split; [reflexivity | vm_compute; reflexivity].
Qed.

Example awaited_ids :
  next_promise connected = 0%nat /\ next_timer connected = 0%nat
  /\ seqCallbacks (this awaited) !! 1 = Some (AsyncFn 0%nat 0%nat).
Proof. repeat split; vm_compute; reflexivity. Qed.

Example timeout_then_late_response :
  let w1 := exec (P := platform) (deliver (SigTimer 0%nat)) awaited in
  let w2 := exec (P := platform) (on_message (P := platform) (response_frame 1 None)) w1 in
  promises w1 !! 0%nat = Some (Rejected (RejError timeout_error))
  /\ promises w2 !! 0%nat = Some (Rejected (RejError timeout_error))
  /\ message_notifications (since w1 w2) = [message_of 1 None].
Proof. repeat split; vm_compute; reflexivity. Qed.

Example error_response_then_timer :
  let w1 := exec (P := platform) (on_message (P := platform) (response_frame 1 (Some not_found))) awaited in
  let w2 := exec (P := platform) (deliver (SigTimer 0%nat)) w1 in
  promises w1 !! 0%nat = Some (Rejected (RejAppError not_found))
  /\ w2 = w1.
Proof.
  intros w1 w2. split; [vm_compute; reflexivity|].
  destruct (response_settles (P := platform) (response_frame 1 (Some not_found))
              (message_of 1 (Some not_found)) (response_of 1 (Some not_found))
              0%nat 0%nat awaited) as [_ Htimer].
  - reflexivity.
  - reflexivity.
  - reflexivity.
  - discriminate.
  - vm_compute. reflexivity.
  - vm_compute. reflexivity.
  - subst w2. unfold exec at 1. fold w1 in Htimer. rewrite Htimer. reflexivity.
Qed.

Example plain_response_fulfils :
  promises (exec (P := platform) (on_message (P := platform) (response_frame 1 None)) awaited) !! 0%nat
  = Some (Fulfilled (response_of 1 None)).
Proof. vm_compute; reflexivity. Qed.

End FacadeOnLoopback.

(** * Further properties of the client *)

(** ** Properties that only concern the client object and its trace *)
Section ClientOnly.

Context `{P : Platform}.

Variable I : World -> Prop.

Hypothesis I_logged : forall e w, I w -> I (logged e w).
Hypothesis I_promises : forall f w, I w -> I (with_promises f w).
Hypothesis I_timers : forall f w, I w -> I (with_timers f w).
Hypothesis I_disconnect : preserves I disconnect.
Hypothesis I_connect : preserves I connect.
Hypothesis I_sendRequest : forall data callback, preserves I (sendRequest data callback).
Hypothesis I_unregistered : forall k w, I w -> I (unregistered k w).
Hypothesis I_readyState : forall k s, preserves I (set_readyState k s).

Lemma client_log e : preserves I (log e).
Proof. apply preserves_modify. intros w. apply I_logged. Qed.

Lemma client_settle p s : preserves I (settle p s).
Proof.
  unfold settle. apply preserves_bind; [apply preserves_gets|]. intros ps.
  destruct (ps !! p) as [[]|]; try apply preserves_ret.
  apply preserves_modify. intros w. apply I_promises.
Qed.

Lemma client_sendRequestAsync data ms : preserves I (sendRequestAsync data ms).
Proof.
  unfold sendRequestAsync, new_promise, setTimeout.
  apply preserves_bind.
  - apply preserves_bind; [apply preserves_gets|]. intros ps.
    apply preserves_bind; [|intros _; apply preserves_ret].
    apply preserves_modify. intros w. apply I_promises.
  - intros p. apply preserves_bind; [|intros _; apply preserves_ret].
    apply preserves_try_catch.
    + apply preserves_bind; [|intros t; apply I_sendRequest].
      apply preserves_bind; [apply preserves_gets|]. intros ts.
      apply preserves_bind; [|intros _; apply preserves_ret].
      apply preserves_modify. intros w. apply I_timers.
    + intros e. apply client_settle.
Qed.

Lemma client_perform c : preserves I (perform c).
Proof.
  apply (preserves_calls I (fun _ => True)); try exact Logic.I.
  - intros data callback _. apply I_sendRequest.
  - apply client_sendRequestAsync.
  - apply I_connect.
  - apply I_disconnect.
Qed.

Lemma client_invoke callback message : preserves I (invoke callback message).
Proof.
  unfold invoke. apply preserves_bind; [apply client_log|]. intros _.
  destruct callback as [f|t p].
  - apply preserves_run_script, client_perform.
  - apply preserves_bind; [apply preserves_modify; intros w; apply I_timers|].
    intros _.
    destruct (Proto.response message) as [r|]; [|apply preserves_throw].
    apply preserves_bind; [|intros _; apply preserves_ret].
    destruct (Proto.error r); apply client_settle.
Qed.

Lemma client_on_message data : preserves I (on_message data).
Proof.
  unfold on_message. apply preserves_bind; [apply preserves_gets|]. intros c.
  destruct (AppMessage c) as [[]|]; [|apply preserves_ret].
  apply preserves_bind; [apply preserves_lift|]. intros message.
  apply preserves_bind.
  - destruct (Proto.response message) as [r|]; [|apply preserves_ret].
    destruct (number_truthy (Proto.seq r)); [|apply preserves_ret].
    apply preserves_bind; [apply preserves_gets|]. intros c'.
    destruct (seqCallbacks c' !! Proto.seq r) as [callback|]; [|apply preserves_ret].
    apply preserves_bind; [apply client_invoke|]. intros res.
    apply preserves_bind; [|intros _; apply preserves_ret].
    apply preserves_modify. intros w. apply (I_unregistered (Proto.seq r)).
  - intros [|]; [apply preserves_ret|].
    apply preserves_bind; [apply preserves_lift | intros again; apply client_log].
Qed.

Lemma client_fire_timer t : preserves I (fire_timer t).
Proof.
  unfold fire_timer. apply preserves_bind; [apply preserves_gets|]. intros ts.
  destruct (ts !! t) as [[timer [|]]|]; try apply preserves_ret.
  apply preserves_bind; [apply preserves_modify; intros w; apply I_timers|].
  intros _. apply client_settle.
Qed.

Lemma client_deliver s : preserves I (deliver s).
Proof.
  unfold deliver. apply preserves_bind; [apply preserves_gets|]. intros n.
  destruct s as [k|k e|k data|k|t].
  - destruct (Nat.ltb k n); [|apply preserves_ret].
    apply preserves_bind; [apply I_readyState | intros _; apply client_log].
  - destruct (Nat.ltb k n); [apply client_log | apply preserves_ret].
  - destruct (Nat.ltb k n); [apply client_on_message | apply preserves_ret].
  - destruct (Nat.ltb k n); [|apply preserves_ret].
    apply preserves_bind; [apply I_readyState | intros _; apply client_log].
  - apply client_fire_timer.
Qed.

Lemma client_step s : preserves I (step s).
Proof.
  destruct s; [apply preserves_method, client_perform | apply client_deliver].
Qed.

Lemma client_run steps : forall w, I w -> I (run steps w).
Proof.
  induction steps as [|s steps IH]; intros w H; cbn.
  - exact H.
  - apply IH, client_step, H.
Qed.

End ClientOnly.

(** ** The sequence counter *)
Section Counter.

Context `{P : Platform}.

Lemma pre_increment_ge x : x <= pre_increment x.
Proof. unfold pre_increment. destruct (x <? MAX_EXACT); lia. Qed.

Lemma sendRequest_seq_ge data callback w :
  seq (this w) <= seq (this (exec (sendRequest data callback) w)).
Proof.
  destruct (AppRequest (this w)) as [[]|] eqn:Hcodec.
  - destruct (websocket (this w)) as [| |ws] eqn:Hws.
    1,2: unfold exec; rewrite sendRequest_unready
           by (right; rewrite Hws; reflexivity); cbn; lia.
    rewrite sendRequest_seq by (split; [exact Hcodec | exists ws; exact Hws]).
    apply pre_increment_ge.
  - unfold exec. rewrite sendRequest_unready by (left; exact Hcodec). cbn. lia.
Qed.

Lemma at_least_step (n : Z) s : preserves (fun w => n <= seq (this w)) (step s).
Proof.
  apply client_step.
  - intros e w H. exact H.
  - intros f w H. exact H.
  - intros f w H. exact H.
  - intros w H. unfold exec. rewrite disconnect_eq. cbn.
    destruct (websocket (this w)); exact H.
  - intros w H. unfold exec at 1. rewrite connect_eq. cbn.
    unfold exec. rewrite disconnect_eq. cbn.
    destruct (websocket (this w)); exact H.
  - intros data callback w H.
    pose proof (sendRequest_seq_ge data callback w). lia.
  - intros k w H. exact H.
  - intros k s' w H. unfold exec, set_readyState, modify, with_this. cbn.
    destruct (websocket (this w)) as [| |ws]; try exact H.
    destruct (Nat.eqb (socket_id ws) k); exact H.
Qed.

(** X1: no step of a client's life makes the sequence counter smaller:
    not a reconnect, not a close, not a response, not a timeout.  The
    counter is never reset. *)
Theorem sequence_counter_never_decreases (steps : list Step) (w : World) :
  seq (this w) <= seq (this (run steps w)).
Proof.
  revert w. induction steps as [|s steps IH]; intros w.
  - cbn. lia.
  - change (run (s :: steps) w) with (run steps (exec (step s) w)).
    specialize (IH (exec (step s) w)).
    pose proof (at_least_step (seq (this w)) s w (Z.le_refl _)) as Hstep.
    cbv beta in Hstep. lia.
Qed.

End Counter.

(** ** The connection *)
Section Connection.

Context `{P : Platform}.

Lemma connect_effects (w : World) :
  let w1 := exec connect w in
  result connect w = Normal tt
  /\ since w w1 =
       (match websocket (this w) with
        | HSocket ws => [Terminate (socket_id ws)]
        | HUndefined | HNull => []
        end ++ [Emit EvConnecting; OpenSocket (sockets w) (target_address (this w))])%list
  /\ websocket (this w1) =
       HSocket {| socket_id := sockets w; address := target_address (this w);
                  readyState := CONNECTING |}
  /\ sockets w1 = S (sockets w)
  /\ AppRequest (this w1) = Some Proto_AppRequest
  /\ AppMessage (this w1) = Some Proto_AppMessage
  /\ seq (this w1) = seq (this w)
  /\ seqCallbacks (this w1) = seqCallbacks (this w)
  /\ result isConnected w1 = Normal false.
Proof.
  intros w1. subst w1. unfold result, exec at 1 2 3 4 5 6 7 8.
  rewrite isConnected_eq, connect_eq. cbn [fst snd].
  unfold exec. rewrite disconnect_eq. cbn [snd].
  split; [reflexivity|].
  destruct (websocket (this w)) as [| |ws] eqn:Hws; cbn.
  - repeat split; try reflexivity. apply since_app. reflexivity.
  - repeat split; try reflexivity. apply since_app. reflexivity.
  - repeat split; try reflexivity.
    apply since_app. cbn. rewrite <- app_assoc. reflexivity.
Qed.

(** X2: [connect()] first tears down the handle it finds, then announces
    ['connecting'], then opens one socket to the address the constructor
    arguments give; it returns with that socket as handle, still
    CONNECTING (so [isConnected()] is false), the codec loaded, and the
    counter and the registry as they were. *)
Theorem connect_replaces_the_handle (w : World) :
  let w1 := exec connect w in
  result connect w = Normal tt
  /\ since w w1 =
       (match websocket (this w) with
        | HSocket ws => [Terminate (socket_id ws)]
        | HUndefined | HNull => []
        end ++ [Emit EvConnecting; OpenSocket (sockets w) (target_address (this w))])%list
  /\ websocket (this w1) =
       HSocket {| socket_id := sockets w; address := target_address (this w);
                  readyState := CONNECTING |}
  /\ sockets w1 = S (sockets w)
  /\ AppRequest (this w1) = Some Proto_AppRequest
  /\ AppMessage (this w1) = Some Proto_AppMessage
  /\ seq (this w1) = seq (this w)
  /\ seqCallbacks (this w1) = seqCallbacks (this w)
  /\ result isConnected w1 = Normal false.
Proof. exact (connect_effects w). Qed.

Lemma terminated_app (t1 t2 : list Effect) :
  terminated (t1 ++ t2) = (terminated t1 ++ terminated t2)%list.
Proof. apply omap_app. Qed.

Lemma one_live_socket_frame w w' :
  websocket (this w') = websocket (this w) ->
  sockets w' = sockets w ->
  (exists suffix, trace w' = (trace w ++ suffix)%list) ->
  one_live_socket w -> one_live_socket w'.
Proof.
  intros Hws Hn [suffix Ht] H k Hk. rewrite Hn in Hk.
  destruct (H k Hk) as [Hcur|Hterm].
  - left. rewrite Hws. exact Hcur.
  - right. rewrite Ht, terminated_app. apply in_or_app. left. exact Hterm.
Qed.

Lemma one_live_socket_disconnect : preserves one_live_socket disconnect.
Proof.
  intros w H. unfold exec. rewrite disconnect_eq. cbn.
  destruct (websocket (this w)) as [| |ws] eqn:Hws; try exact H.
  intros k Hk. cbn [sockets trace] in *. right.
  rewrite terminated_app. apply in_or_app.
  destruct (H k Hk) as [(ws' & Hcur & Hid)|Hterm].
  - right. rewrite Hws in Hcur. injection Hcur as <-. subst k. left. reflexivity.
  - left. exact Hterm.
Qed.

Lemma one_live_socket_connect : preserves one_live_socket connect.
Proof.
  intros w H. apply one_live_socket_disconnect in H.
  unfold exec at 1. rewrite connect_eq. cbn.
  set (w1 := exec disconnect w) in *.
  assert (handle_truthy (websocket (this w1)) = false) as Hnull.
  { subst w1. unfold exec. rewrite disconnect_eq. cbn.
    destruct (websocket (this w)) eqn:Hws; cbn; rewrite ?Hws; reflexivity. }
  intros k Hk. cbn [sockets trace this websocket with_websocket] in *.
  destruct (decide (k = sockets w1)) as [->|Hne].
  - left. eexists. split; reflexivity.
  - right. rewrite terminated_app. apply in_or_app. left.
    destruct (H k) as [(ws & Hcur & _)|Hterm]; [lia| |exact Hterm].
    rewrite Hcur in Hnull. discriminate.
Qed.

Lemma sendRequest_handle data callback w :
  websocket (this (exec (sendRequest data callback) w)) = websocket (this w)
  /\ sockets (exec (sendRequest data callback) w) = sockets w.
Proof.
  destruct (sendRequest_fields data callback w) as (Hws & _ & _ & Hn).
  split; assumption.
Qed.

Lemma one_live_socket_step s : preserves one_live_socket (step s).
Proof.
  apply client_step.
  - intros e w. apply one_live_socket_frame; try reflexivity. eexists. reflexivity.
  - intros f w. apply one_live_socket_frame; try reflexivity.
    exists []. symmetry. apply app_nil_r.
  - intros f w. apply one_live_socket_frame; try reflexivity.
    exists []. symmetry. apply app_nil_r.
  - apply one_live_socket_disconnect.
  - apply one_live_socket_connect.
  - intros data callback w.
    destruct (sendRequest_quiet data callback w) as [(suffix & Ht & _) _ _ _ _].
    destruct (sendRequest_handle data callback w) as [Hws Hn].
    apply one_live_socket_frame; [exact Hws | exact Hn | exists suffix; exact Ht].
  - intros k w. apply one_live_socket_frame; try reflexivity.
    exists []. symmetry. apply app_nil_r.
  - intros k s' w H j Hj.
    unfold exec, set_readyState, modify, with_this in *. cbn in *.
    destruct (H j Hj) as [(ws & Hcur & Hid)|Hterm]; [|right; exact Hterm].
    left. rewrite Hcur.
    destruct (Nat.eqb (socket_id ws) k); cbn; eexists; split; eauto.
Qed.

(** X3: in every state a client can reach, each socket it ever opened is
    either the one its handle holds or was terminated: [connect()] never
    leaves an earlier socket in use. *)
Theorem at_most_one_socket_in_use (w : World) :
  reachable w -> one_live_socket w.
Proof.
  induction 1 as [server port playerId playerToken proxy|w s _ IH _].
  - intros k Hk. cbn in Hk. lia.
  - apply one_live_socket_step, IH.
Qed.

Lemma set_readyState_other k s w :
  (forall ws, websocket (this w) = HSocket ws -> socket_id ws <> k) ->
  exec (set_readyState k s) w = w.
Proof.
  intros Hother. unfold exec, set_readyState, modify, with_this. cbn.
  destruct w as [c ps ts n t]. cbn in *.
  destruct (websocket c) as [| |ws] eqn:Hws.
  - destruct c; reflexivity.
  - destruct c; reflexivity.
  - specialize (Hother ws eq_refl).
    destruct (Nat.eqb_spec (socket_id ws) k) as [|_]; [contradiction|].
    reflexivity.
Qed.

(** X4: the listeners [connect()] installed stay on a socket after it was
    replaced or dropped.  When such a socket closes, ['disconnected'] is
    emitted all the same, and nothing else happens: the client is
    untouched and [isConnected()] answers as before. *)
Theorem close_of_replaced_socket_still_notifies (w : World) (k : nat) :
  (k < sockets w)%nat ->
  (forall ws, websocket (this w) = HSocket ws -> socket_id ws <> k) ->
  deliver (SigClose k) w = (Normal tt, logged (Emit EvDisconnected) w)
  /\ result isConnected (exec (deliver (SigClose k)) w) = result isConnected w.
Proof.
  intros Hk Hother.
  assert (deliver (SigClose k) w = (Normal tt, logged (Emit EvDisconnected) w)) as Heq.
  { unfold deliver, bind at 1, gets. cbn -[Nat.ltb set_readyState emit].
    destruct (Nat.ltb_spec k (sockets w)) as [_|]; [|lia].
    pose proof (set_readyState_other k CLOSED w Hother) as Hset.
    unfold exec in Hset. unfold bind.
    destruct (set_readyState k CLOSED w) as [[[]|e] w'] eqn:Hrun; cbn in Hset; subst w'.
    - reflexivity.
    - unfold set_readyState, modify in Hrun. discriminate. }
  split; [exact Heq|].
  unfold result, exec. rewrite Heq, !isConnected_eq. reflexivity.
Qed.

End Connection.

(** ** Pending requests and the connection *)
Section Survival.

Context `{P : Platform}.

Lemma same_requests_refl w : same_requests w w.
Proof. repeat split. Qed.

Lemma same_requests_trans w1 w2 w3 :
  same_requests w1 w2 -> same_requests w2 w3 -> same_requests w1 w3.
Proof.
  intros (A1 & A2 & A3 & A4) (B1 & B2 & B3 & B4).
  repeat split; congruence.
Qed.

Lemma same_requests_set_readyState k s w :
  same_requests w (exec (set_readyState k s) w).
Proof.
  unfold exec, set_readyState, modify, with_this. cbn.
  destruct (websocket (this w)) as [| |ws]; [repeat split..|].
  destruct (Nat.eqb (socket_id ws) k); repeat split.
Qed.

Lemma same_requests_lifecycle s w :
  lifecycle s -> same_requests w (exec (step s) w).
Proof.
  destruct s as [[| | | |]|[k|k e|k data|k|t]]; cbn [lifecycle];
    try contradiction; intros _; rewrite ?step_method; cbn [step].
  - rewrite perform_connect. unfold exec at 1. rewrite connect_eq. cbn.
    unfold exec. rewrite disconnect_eq. cbn.
    destruct (websocket (this w)); repeat split.
  - rewrite perform_disconnect. unfold exec. rewrite disconnect_eq. cbn.
    destruct (websocket (this w)); repeat split.
  - unfold exec, deliver, bind at 1, gets. cbn -[Nat.ltb set_readyState emit].
    destruct (Nat.ltb k (sockets w)); [|apply same_requests_refl].
    pose proof (same_requests_set_readyState k OPEN w) as H.
    unfold exec, bind in *. destruct (set_readyState k OPEN w) as [[[]|e] w']; exact H.
  - unfold exec, deliver, bind, gets. cbn -[Nat.ltb].
    destruct (Nat.ltb k (sockets w)); repeat split.
  - unfold exec, deliver, bind at 1, gets. cbn -[Nat.ltb set_readyState emit].
    destruct (Nat.ltb k (sockets w)); [|apply same_requests_refl].
    pose proof (same_requests_set_readyState k CLOSED w) as H.
    unfold exec, bind in *. destruct (set_readyState k CLOSED w) as [[[]|e] w']; exact H.
Qed.

Lemma lifecycle_user s : lifecycle s -> user_step s.
Proof.
  destruct s as [[| | | |]|s]; cbn; try contradiction; intros _;
    try constructor.
Qed.

Lemma same_requests_run steps : forall w,
  Forall lifecycle steps -> same_requests w (run steps w).
Proof.
  induction steps as [|s steps IH]; intros w Hsteps.
  - apply same_requests_refl.
  - inversion Hsteps as [|? ? Hs Hrest]; subst.
    change (run (s :: steps) w) with (run steps (exec (step s) w)).
    eapply same_requests_trans; [apply same_requests_lifecycle, Hs | apply IH, Hrest].
Qed.

(** X5: connecting, disconnecting, and a socket opening, failing or
    closing leave the requests alone: the counter, the registry, the
    promises and their timers are after any such run what they were
    before.  No pending callback is dropped or failed when the connection
    goes away. *)
Theorem connection_changes_keep_pending_requests (steps : list Step) (w : World) :
  Forall lifecycle steps ->
  seq (this (run steps w)) = seq (this w)
  /\ seqCallbacks (this (run steps w)) = seqCallbacks (this w)
  /\ promises (run steps w) = promises w
  /\ timers (run steps w) = timers w.
Proof. apply same_requests_run. Qed.

(** X6: a callback registered before the connection was lost and made
    again is still served: after any run of connection changes, the
    response with its sequence number runs it, once; its entry is removed
    when the callback returns, and stays when the callback throws. *)
Theorem pending_callback_survives_reconnect
    (steps : list Step) (w : World) (data : Wire) (message : Proto.AppMessage)
    (r : Proto.AppResponse) (callback : callbackFn) :
  reachable w ->
  Forall lifecycle steps ->
  seqCallbacks (this w) !! Proto.seq r = Some callback ->
  AppMessage_fromBinary data = Normal message ->
  Proto.response message = Some r ->
  let w1 := run steps w in
  let w2 := exec (on_message data) w1 in
  invocations (since w1 w2) = [(callback, message)]
  /\ (forall value,
        return_value callback message w1 = Normal value ->
        seqCallbacks (this w2) !! Proto.seq r = None)
  /\ (forall e,
        return_value callback message w1 = Throw e ->
        is_Some (seqCallbacks (this w2) !! Proto.seq r)).
Proof.
  intros Hreach Hsteps Hcb Hdecode Hr w1 w2.
  assert (reachable w1) as Hreach1.
  { apply reachable_run; [exact Hreach|].
    eapply Forall_impl; [exact Hsteps | apply lifecycle_user]. }
  destruct (same_requests_run steps w Hsteps) as (_ & Hsame & _).
  fold w1 in Hsame. rewrite <- Hsame in Hcb.
  destruct (reachable_entry w1 _ _ Hreach1 Hcb) as [Hnz Hcodec].
  destruct (on_message_matched_effects w1 data message r callback
              Hcodec Hdecode Hr Hnz Hcb) as (Hinv & _ & Hreturns & Hthrows).
  fold w2 in Hinv, Hreturns, Hthrows.
  split; [exact Hinv|]. split.
  - intros value Hvalue. apply (Hreturns value Hvalue).
  - intros e He. apply (Hthrows e He).
Qed.

End Survival.

(** ** What methods and frames do and do not do *)
Section Effects.

Context `{P : Platform}.

(** X7: [sendRequest], [sendRequestAsync], [connect] and [disconnect]
    run no callback and raise no ['message'] notification, from whatever
    state they are called: a callback is only ever run by the message
    listener, never from inside the call that registers it. *)
Theorem methods_run_no_callback (c : Call) (w : World) :
  invocations (since w (exec (perform c) w)) = []
  /\ message_notifications (since w (exec (perform c) w)) = [].
Proof.
  destruct (perform_quiet c w) as [(suffix & Ht & Hquiet) _ _ _ _].
  rewrite (since_app _ _ _ Ht).
  apply quiet_no_invocations, Hquiet.
Qed.

(** X8: behind the guard, [sendRequest] numbers the request and
    registers the callback first, whatever follows.  When the encoder
    takes the request and [send] the frame, exactly one frame is written
    to the socket the handle holds; then one ['request'] notification is
    raised, carrying that frame decoded again (with a codec that gives
    back what it was given, the merged request itself).  When the encoder
    or [send] throws, the exception leaves [sendRequest] and nothing is
    written or notified; when the decoder behind ['request'] throws, the
    frame was written and nothing is notified. *)
Theorem sendRequest_sends_once_then_notifies
    (w : World) (ws : WebSocket) (data : Proto.AppRequest)
    (callback : option callbackFn) :
  AppRequest (this w) = Some Proto_AppRequest ->
  websocket (this w) = HSocket ws ->
  let request := merge_request (pre_increment (seq (this w))) (this w) data in
  let w1 := exec (sendRequest data callback) w in
  seq (this w1) = pre_increment (seq (this w))
  /\ seqCallbacks (this w1) =
       match callback with
       | Some cb => <[pre_increment (seq (this w)) := cb]> (seqCallbacks (this w))
       | None => seqCallbacks (this w)
       end
  /\ (forall frame sent,
        AppRequest_toBinary request = Normal frame ->
        WebSocket_send ws frame = Normal tt ->
        AppRequest_fromBinary frame = Normal sent ->
        result (sendRequest data callback) w = Normal tt
        /\ since w w1 = [Send (socket_id ws) frame; Emit (EvRequest sent)]
        /\ (round_trips -> sent = request))
  /\ (forall e,
        transmit ws request = Throw e ->
        result (sendRequest data callback) w = Throw e
        /\ since w w1 = [])
  /\ (forall frame e,
        transmit ws request = Normal frame ->
        AppRequest_fromBinary frame = Throw e ->
        result (sendRequest data callback) w = Throw e
        /\ since w w1 = [Send (socket_id ws) frame]).
Proof.
  intros Hcodec Hws request w1.
  assert (ready w) as Hready by (split; [exact Hcodec | exists ws; exact Hws]).
  split; [apply sendRequest_seq, Hready|].
  split; [apply sendRequest_seqCallbacks, Hready|].
  subst w1. unfold result, exec.
  rewrite (sendRequest_ready data callback w ws Hcodec Hws).
  unfold dispatched. fold request.
  split; [|split].
  - intros frame sent Hencode Hsend Hdecode.
    rewrite (transmit_accepted ws request frame Hencode Hsend), Hdecode. cbn [fst snd].
    split; [reflexivity|]. split.
    + apply since_app. cbn. rewrite <- app_assoc. reflexivity.
    + intros Hround. rewrite (Hround request frame Hencode) in Hdecode.
      injection Hdecode as <-. reflexivity.
  - intros e ->. cbn [fst snd]. split; [reflexivity|].
    unfold since. cbn. apply drop_all.
  - intros frame e -> ->. cbn [fst snd]. split; [reflexivity|].
    apply since_app. reflexivity.
Qed.

(** X9: a frame that decodes is never lost silently and never handled
    twice.  Either no callback runs and the frame raises one ['message']
    notification, registry untouched; or exactly one callback runs, the
    one registered under the response's sequence number.  When that
    callback returns, ['message'] is raised once unless the value is
    truthy; when it throws, the listener throws the same and ['message']
    is not raised. *)
Theorem decoded_frame_is_delivered_once
    (w : World) (data : Wire) (message : Proto.AppMessage) :
  AppMessage (this w) = Some Proto_AppMessage ->
  AppMessage_fromBinary data = Normal message ->
  let w1 := exec (on_message data) w in
  (result (on_message data) w = Normal tt
   /\ invocations (since w w1) = []
   /\ message_notifications (since w w1) = [message]
   /\ seqCallbacks (this w1) = seqCallbacks (this w))
  \/ exists r callback,
       Proto.response message = Some r
       /\ seqCallbacks (this w) !! Proto.seq r = Some callback
       /\ invocations (since w w1) = [(callback, message)]
       /\ match return_value callback message w with
          | Normal value =>
              result (on_message data) w = Normal tt
              /\ message_notifications (since w w1) =
                   (if truthy value then [] else [message])
          | Throw e =>
              result (on_message data) w = Throw e
              /\ message_notifications (since w w1) = []
          end.
Proof.
  intros Hcodec Hdecode w1.
  assert (forall (Hun : match Proto.response message with
                        | Some r => Proto.seq r = 0
                                    \/ seqCallbacks (this w) !! Proto.seq r = None
                        | None => True
                        end),
             result (on_message data) w = Normal tt
             /\ invocations (since w w1) = []
             /\ message_notifications (since w w1) = [message]
             /\ seqCallbacks (this w1) = seqCallbacks (this w)) as Hunmatched.
  { intros Hun.
    pose proof (on_message_unmatched data message w Hcodec Hdecode Hun) as Heq.
    subst w1. unfold result, exec. rewrite Heq. cbn.
    assert (since w (logged (Emit (EvMessage message)) w) = [Emit (EvMessage message)])
      as -> by (apply since_app; reflexivity).
    repeat split. }
  destruct (Proto.response message) as [r|] eqn:Hr.
  - destruct (decide (Proto.seq r = 0)) as [Hz|Hnz].
    + left. exact (Hunmatched (or_introl Hz)).
    + destruct (seqCallbacks (this w) !! Proto.seq r) as [callback|] eqn:Hcb.
      * destruct (on_message_matched_effects w data message r callback
                    Hcodec Hdecode Hr Hnz Hcb) as (Hinv & _ & Hreturns & Hthrows).
        fold w1 in Hinv, Hreturns, Hthrows.
        right. exists r, callback.
        split; [reflexivity|]. split; [exact Hcb|]. split; [exact Hinv|].
        destruct (return_value callback message w) as [value|e].
        -- destruct (Hreturns value eq_refl) as (Hres & Hmsg & _).
           split; assumption.
        -- destruct (Hthrows e eq_refl) as (Hres & Hmsg & _).
           split; assumption.
      * left. exact (Hunmatched (or_intror eq_refl)).
  - left. exact (Hunmatched I).
Qed.

(** X10: a frame the decoder rejects: the decoder's exception leaves the
    listener as it came, nothing catches it, and nothing else happens: no
    callback runs, no notification is raised (no ['error'] either), and
    the registry keeps every entry. *)
Theorem malformed_frame_throws_and_changes_nothing
    (w : World) (k : nat) (data : Wire) (e : JsError) :
  reachable w ->
  (k < sockets w)%nat ->
  AppMessage_fromBinary data = Throw e ->
  deliver (SigMessage k data) w = (Throw e, w).
Proof.
  intros Hreach Hk Hdecode.
  apply reachable_Inv in Hreach as [_ _ H3 _].
  assert (AppMessage (this w) = Some Proto_AppMessage) as Hcodec
    by (destruct H3 as [[_ H3]|(_ & H3 & _)]; [exact H3 | lia]).
  unfold deliver, bind at 1, gets. cbn -[Nat.ltb on_message].
  destruct (Nat.ltb_spec k (sockets w)) as [_|]; [|lia].
  unfold on_message. unfold_monad. cbn. rewrite Hcodec. cbn. rewrite Hdecode.
  reflexivity.
Qed.

End Effects.

(** ** Responses to requests made through the promise facade *)
Section Correlation.

Context `{P : Platform}.

Lemma routed_async data t p message r w :
  AppMessage (this w) = Some Proto_AppMessage ->
  AppMessage_fromBinary data = Normal message ->
  Proto.response message = Some r ->
  Proto.seq r <> 0 ->
  seqCallbacks (this w) !! Proto.seq r = Some (AsyncFn t p) ->
  let w1 := exec (on_message data) w in
  trace w1 = (trace w ++ [Invoke (AsyncFn t p) message; Emit (EvMessage message)])%list
  /\ seqCallbacks (this w1) = delete (Proto.seq r) (seqCallbacks (this w))
  /\ seq (this w1) = seq (this w)
  /\ promises w1 = match promises w !! p with
                   | Some Pending => <[p := outcome r]> (promises w)
                   | _ => promises w
                   end
  /\ timers w1 = alter (fun e => (fst e, false)) t (timers w).
Proof.
  intros Hcodec Hdecode Hr Hnz Hcb w1. subst w1. unfold exec at 1 2 3 4 5.
  rewrite (on_message_async data message r t p w) by assumption. cbn [snd].
  unfold exec. rewrite settle_eq. cbn.
  destruct (promises w !! p) as [[]|]; cbn;
    rewrite <- ?app_assoc; repeat split.
Qed.

Lemma async_response_effects
    (w : World) (data : Wire) (message : Proto.AppMessage)
    (r : Proto.AppResponse) (t : TimerId) (p : PromiseId) :
  reachable w ->
  AppMessage_fromBinary data = Normal message ->
  Proto.response message = Some r ->
  seqCallbacks (this w) !! Proto.seq r = Some (AsyncFn t p) ->
  let w1 := exec (on_message data) w in
  since w w1 = [Invoke (AsyncFn t p) message; Emit (EvMessage message)]
  /\ seqCallbacks (this w1) = delete (Proto.seq r) (seqCallbacks (this w))
  /\ (promises w !! p = Some Pending -> promises w1 !! p = Some (outcome r))
  /\ (forall q, q <> p -> promises w1 !! q = promises w !! q)
  /\ (forall t', t' <> t -> timers w1 !! t' = timers w !! t')
  /\ (forall timer armed, timers w !! t = Some (timer, armed) ->
        timers w1 !! t = Some (timer, false)).
Proof.
  intros Hreach Hdecode Hr Hcb w1.
  destruct (reachable_entry w _ _ Hreach Hcb) as [Hnz Hcodec].
  destruct (routed_async data t p message r w Hcodec Hdecode Hr Hnz Hcb)
    as (Ht & Hreg & _ & Hprom & Htimers).
  fold w1 in Ht, Hreg, Hprom, Htimers.
  split; [apply since_app; exact Ht|].
  split; [exact Hreg|].
  rewrite Hprom, Htimers.
  split; [intros ->; apply lookup_insert_eq|].
  split; [|split].
  - intros q Hq. destruct (promises w !! p) as [[]|]; try reflexivity.
    apply lookup_insert_ne. congruence.
  - intros t' Ht'. rewrite lookup_alter.
    destruct (decide (t = t')); [congruence | reflexivity].
  - intros timer armed Htimer. rewrite lookup_alter.
    destruct (decide (t = t)); [|congruence]. rewrite Htimer. reflexivity.
Qed.

(** X11: the response to a request made with [sendRequestAsync] settles
    the promise of that request and no other, takes that request's timer
    out of service and no other, and removes that request's registry
    entry and no other.  The closure returns nothing, so the response is
    raised as a generic ['message'] notification as well. *)
Theorem response_settles_its_own_promise_only
    (w : World) (data : Wire) (message : Proto.AppMessage)
    (r : Proto.AppResponse) (t : TimerId) (p : PromiseId) :
  reachable w ->
  AppMessage_fromBinary data = Normal message ->
  Proto.response message = Some r ->
  seqCallbacks (this w) !! Proto.seq r = Some (AsyncFn t p) ->
  let w1 := exec (on_message data) w in
  since w w1 = [Invoke (AsyncFn t p) message; Emit (EvMessage message)]
  /\ seqCallbacks (this w1) = delete (Proto.seq r) (seqCallbacks (this w))
  /\ (promises w !! p = Some Pending -> promises w1 !! p = Some (outcome r))
  /\ (forall q, q <> p -> promises w1 !! q = promises w !! q)
  /\ (forall t', t' <> t -> timers w1 !! t' = timers w !! t')
  /\ (forall timer armed, timers w !! t = Some (timer, armed) ->
        timers w1 !! t = Some (timer, false)).
Proof. exact (async_response_effects w data message r t p). Qed.

Lemma fire_timer_armed t timer w :
  timers w !! t = Some (timer, true) ->
  deliver (SigTimer t) w =
  (Normal tt,
   exec (settle (rejects timer) (Rejected (RejError timeout_error)))
        (with_timers (insert t (timer, false)) w)).
Proof.
  intros Ht. unfold deliver, fire_timer, reject. unfold_monad. cbn -[settle].
  rewrite Ht. cbn -[settle]. rewrite settle_eq. reflexivity.
Qed.

(** X12: when the timer of a pending [sendRequestAsync] goes off, the
    promise is rejected with the timeout error, nothing is notified, and
    the registry entry stays where it is.  A response that comes later
    still finds the entry: the closure runs once, the entry goes, the
    response is raised as ['message'], and the promise stays rejected with
    the timeout error. *)
Theorem late_response_after_timeout
    (w : World) (data : Wire) (message : Proto.AppMessage)
    (r : Proto.AppResponse) (t : TimerId) (p : PromiseId) :
  reachable w ->
  seqCallbacks (this w) !! Proto.seq r = Some (AsyncFn t p) ->
  promises w !! p = Some Pending ->
  AppMessage_fromBinary data = Normal message ->
  Proto.response message = Some r ->
  let w1 := exec (deliver (SigTimer t)) w in
  let w2 := exec (on_message data) w1 in
  promises w1 !! p = Some (Rejected (RejError timeout_error))
  /\ since w w1 = []
  /\ this w1 = this w
  /\ since w1 w2 = [Invoke (AsyncFn t p) message; Emit (EvMessage message)]
  /\ seqCallbacks (this w2) !! Proto.seq r = None
  /\ promises w2 !! p = Some (Rejected (RejError timeout_error)).
Proof.
  intros Hreach Hcb Hpending Hdecode Hr w1 w2.
  pose proof (reachable_Paired w Hreach) as Hpaired.
  destruct (paired_entries w Hpaired _ _ Hcb) as (ms & armed & Ht).
  assert (armed = true) as ->.
  { destruct armed; [reflexivity|].
    exfalso. exact (paired_disarmed w Hpaired _ _ Ht Hpending). }
  assert (reachable w1) as Hreach1
    by (apply (reachable_step w (Env (SigTimer t))); [exact Hreach | exact I]).
  assert (w1 = exec (settle p (Rejected (RejError timeout_error)))
                 (with_timers (insert t ({| delay := ms; rejects := p |}, false)) w))
    as Hw1.
  { subst w1. unfold exec at 1. rewrite (fire_timer_armed t _ w Ht). reflexivity. }
  assert (promises w1 !! p = Some (Rejected (RejError timeout_error))) as Hp1.
  { rewrite Hw1. unfold exec. rewrite settle_eq. cbn. rewrite Hpending. cbn.
    apply lookup_insert_eq. }
  assert (this w1 = this w /\ trace w1 = trace w) as [Hthis Htrace].
  { rewrite Hw1. unfold exec. rewrite settle_eq. cbn. rewrite Hpending.
    split; reflexivity. }
  split; [exact Hp1|].
  split; [unfold since; rewrite Htrace; apply drop_all|].
  split; [exact Hthis|].
  rewrite <- Hthis in Hcb.
  destruct (async_response_effects w1 data message r t p
              Hreach1 Hdecode Hr Hcb) as (Hsince & Hreg & _ & _).
  fold w2 in Hsince, Hreg.
  split; [exact Hsince|].
  split; [rewrite Hreg; apply lookup_delete_eq|].
  apply (evolves_settled w1 w2); [|exact Hp1|discriminate].
  apply evolves_on_message, evolves_refl.
Qed.

(** X13: without a loaded codec or without a transport handle
    [sendRequestAsync] still hands back a pending promise and arms its
    timer, but sends and registers nothing; the timer going off rejects
    the promise with the timeout error. *)
Theorem sendRequestAsync_without_connection_times_out
    (w : World) (data : Proto.AppRequest) (timeoutMilliseconds : option Z) :
  AppRequest (this w) = None \/ handle_truthy (websocket (this w)) = false ->
  let w1 := exec (sendRequestAsync data timeoutMilliseconds) w in
  result (sendRequestAsync data timeoutMilliseconds) w = Normal (next_promise w)
  /\ w1 = awaiting (default 10000 timeoutMilliseconds) w
  /\ since w w1 = []
  /\ this w1 = this w
  /\ promises (exec (deliver (SigTimer (next_timer w))) w1) !! next_promise w
     = Some (Rejected (RejError timeout_error)).
Proof.
  intros Hunready w1.
  assert (dispatch_error data w = None) as Hnone.
  { unfold dispatch_error.
    destruct (AppRequest (this w)) as [[]|], (websocket (this w));
      cbn in *; try reflexivity; destruct Hunready; discriminate. }
  assert (w1 = awaiting (default 10000 timeoutMilliseconds) w) as Hw1.
  { subst w1. unfold exec at 1. rewrite sendRequestAsync_eq, Hnone. cbn [snd].
    unfold exec. rewrite sendRequest_unready; [reflexivity | exact Hunready]. }
  split; [apply sendRequestAsync_result|].
  split; [exact Hw1|].
  rewrite Hw1.
  split; [unfold since; cbn; apply drop_all|].
  split; [reflexivity|].
  eapply timer_rejects.
  - cbn. apply lookup_insert_eq.
  - reflexivity.
  - cbn. apply lookup_insert_eq.
Qed.

(** X14: a request sent without a callback registers nothing, so the
    response that carries its sequence number runs no callback and is
    raised as a generic ['message'] notification. *)
Theorem response_to_request_without_callback_is_generic
    (w : World) (payload : Proto.AppRequest) (data : Wire)
    (message : Proto.AppMessage) (r : Proto.AppResponse) :
  reachable w ->
  ready w ->
  seq (this w) < MAX_EXACT ->
  AppMessage_fromBinary data = Normal message ->
  Proto.response message = Some r ->
  let w1 := exec (sendRequest payload None) w in
  Proto.seq r = seq (this w1) ->
  seq (this w1) = seq (this w) + 1
  /\ seqCallbacks (this w1) = seqCallbacks (this w)
  /\ since w1 (exec (on_message data) w1) = [Emit (EvMessage message)].
Proof.
  intros Hreach Hready Hbound Hdecode Hr w1 Hseq.
  assert (seq (this w1) = seq (this w) + 1) as Hnew.
  { subst w1. rewrite sendRequest_seq by exact Hready.
    apply pre_increment_exact, Hbound. }
  assert (seqCallbacks (this w1) = seqCallbacks (this w)) as Hreg
    by (subst w1; apply (sendRequest_seqCallbacks payload None w Hready)).
  split; [exact Hnew|]. split; [exact Hreg|].
  pose proof (reachable_Inv w Hreach) as [_ Hkeys Hloaded _].
  assert (seqCallbacks (this w1) !! Proto.seq r = None) as Hnone.
  { rewrite Hreg, Hseq, Hnew.
    destruct (seqCallbacks (this w) !! (seq (this w) + 1)) as [cb|] eqn:Hk;
      [|reflexivity].
    apply Hkeys in Hk. lia. }
  assert (AppMessage (this w1) = Some Proto_AppMessage) as Hcodec1.
  { destruct (sendRequest_fields payload None w) as (_ & _ & Hmsg & _).
    fold w1 in Hmsg. rewrite Hmsg.
    destruct Hloaded as [[_ H]|[H _]]; [exact H | destruct Hready; congruence]. }
  unfold exec.
  rewrite (on_message_unmatched data message w1 Hcodec1 Hdecode)
    by (rewrite Hr; right; exact Hnone).
  apply since_app. reflexivity.
Qed.

End Correlation.

(** ** Several requests in flight *)
Section InFlight.

Context `{P : Platform}.

Lemma sendRequestAsync_ready data ms w :
  ready w ->
  let w1 := exec (sendRequestAsync data ms) w in
  ready w1
  /\ seq (this w1) = pre_increment (seq (this w))
  /\ seqCallbacks (this w1) =
       <[pre_increment (seq (this w)) := AsyncFn (next_timer w) (next_promise w)]>
         (seqCallbacks (this w))
  /\ promises w1 =
       <[next_promise w := match dispatch_error data w with
                           | Some e => Rejected (RejError e)
                           | None => Pending
                           end]> (promises w)
  /\ timers w1 =
       <[next_timer w := ({| delay := default 10000 ms; rejects := next_promise w |}, true)]>
         (timers w).
Proof.
  intros Hready w1. subst w1.
  unfold exec at 1 2 3 4 5. rewrite sendRequestAsync_eq. cbn [snd].
  set (cb := AsyncFn (next_timer w) (next_promise w)).
  assert (ready (awaiting (default 10000 ms) w)) as Hready' by exact Hready.
  destruct (sendRequest_numbered data (Some cb) (awaiting (default 10000 ms) w) Hready')
    as (Hthis & Hprom & Htimers & _).
  pose proof (sendRequest_keeps_ready data (Some cb) _ Hready') as Hready1.
  set (w1 := exec (sendRequest data (Some cb)) (awaiting (default 10000 ms) w)) in *.
  assert (this (match dispatch_error data w with
                | Some e => rejected (next_promise w) e w1
                | None => w1
                end) = this w1) as Hsame by (destruct (dispatch_error data w); reflexivity).
  unfold ready. rewrite !Hsame, Hthis.
  split; [rewrite <- Hthis; exact Hready1|].
  split; [reflexivity|]. split; [reflexivity|].
  destruct (dispatch_error data w) as [e|]; cbn [rejected with_promises promises timers].
  - rewrite Hprom, Htimers. cbn. split; [apply insert_insert_eq | reflexivity].
  - rewrite Hprom, Htimers. split; reflexivity.
Qed.

(** X15: two requests made with [sendRequestAsync] one after the other
    get different promises, different timers and consecutive sequence
    numbers, whether or not their dispatch throws, and a response is
    credited to the right one: the response to the second leaves the
    promise and the registry entry of the first as they are, and settles
    the second promise if it is still pending.  When neither dispatch
    threw, the first promise is pending and the second is settled by the
    response. *)
Theorem responses_are_credited_to_the_right_promise
    (w : World) (first second : Proto.AppRequest) (ms1 ms2 : option Z)
    (data : Wire) (message : Proto.AppMessage) (r : Proto.AppResponse) :
  reachable w ->
  ready w ->
  seq (this w) + 2 <= MAX_EXACT ->
  AppMessage_fromBinary data = Normal message ->
  Proto.response message = Some r ->
  Proto.seq r = seq (this w) + 2 ->
  let p1 := next_promise w in
  let w1 := exec (sendRequestAsync first ms1) w in
  let p2 := next_promise w1 in
  let w2 := exec (sendRequestAsync second ms2) w1 in
  let w3 := exec (on_message data) w2 in
  p1 <> p2
  /\ next_timer w <> next_timer w1
  /\ seqCallbacks (this w2) !! (seq (this w) + 1) = Some (AsyncFn (next_timer w) p1)
  /\ seqCallbacks (this w2) !! (seq (this w) + 2) = Some (AsyncFn (next_timer w1) p2)
  /\ promises w3 !! p1 = promises w2 !! p1
  /\ seqCallbacks (this w3) !! (seq (this w) + 1) = Some (AsyncFn (next_timer w) p1)
  /\ (promises w2 !! p2 = Some Pending -> promises w3 !! p2 = Some (outcome r))
  /\ (dispatch_error first w = None ->
      dispatch_error second w1 = None ->
      promises w3 !! p2 = Some (outcome r) /\ promises w3 !! p1 = Some Pending).
Proof.
  intros Hreach Hready Hbound Hdecode Hr Hseq p1 w1 p2 w2 w3.
  destruct (sendRequestAsync_ready first ms1 w Hready)
    as (Hready1 & Hseq1 & Hreg1 & Hprom1 & Htimers1).
  fold w1 in Hready1, Hseq1, Hreg1, Hprom1, Htimers1.
  destruct (sendRequestAsync_ready second ms2 w1 Hready1)
    as (_ & Hseq2 & Hreg2 & Hprom2 & Htimers2).
  fold w2 in Hseq2, Hreg2, Hprom2, Htimers2. fold p1 in Hreg1, Hprom1, Htimers1.
  fold p2 in Hreg2, Hprom2, Htimers2.
  rewrite pre_increment_exact in Hseq1, Hreg1 by lia.
  rewrite Hseq1, pre_increment_exact in Hreg2 by lia.
  replace (seq (this w) + 1 + 1) with (seq (this w) + 2) in Hreg2 by lia.
  assert (p1 <> p2) as Hp.
  { intros Heq. pose proof (next_promise_fresh w1) as Hfresh. fold p2 in Hfresh.
    rewrite Hprom1, <- Heq, lookup_insert_eq in Hfresh. discriminate. }
  assert (next_timer w <> next_timer w1) as Ht.
  { intros Heq. pose proof (next_timer_fresh w1) as Hfresh.
    rewrite Htimers1, <- Heq, lookup_insert_eq in Hfresh. discriminate. }
  assert (seqCallbacks (this w2) !! (seq (this w) + 1)
          = Some (AsyncFn (next_timer w) p1)) as Hk1.
  { rewrite Hreg2, lookup_insert_ne by lia. rewrite Hreg1. apply lookup_insert_eq. }
  assert (seqCallbacks (this w2) !! (seq (this w) + 2)
          = Some (AsyncFn (next_timer w1) p2)) as Hk2.
  { rewrite Hreg2. apply lookup_insert_eq. }
  assert (reachable w2) as Hreach2.
  { subst w2 w1. rewrite <- !perform_sendRequestAsync, <- !step_method.
    apply reachable_step; [|constructor].
    apply reachable_step; [|constructor].
    exact Hreach. }
  rewrite <- Hseq in Hk2.
  destruct (async_response_effects w2 data message r
              (next_timer w1) p2 Hreach2 Hdecode Hr Hk2)
    as (_ & Hreg3 & Hsettle & Hothers & _).
  fold w3 in Hreg3, Hsettle, Hothers.
  split; [exact Hp|]. split; [exact Ht|]. split; [exact Hk1|].
  split; [rewrite <- Hseq; exact Hk2|].
  split; [apply (Hothers p1 Hp)|].
  split; [rewrite Hreg3, lookup_delete_ne by lia; exact Hk1|].
  split; [exact Hsettle|].
  intros Hfirst Hsecond. rewrite Hfirst in Hprom1. rewrite Hsecond in Hprom2.
  split.
  - apply Hsettle. rewrite Hprom2. apply lookup_insert_eq.
  - rewrite (Hothers p1 Hp), Hprom2, lookup_insert_ne by congruence.
    rewrite Hprom1. apply lookup_insert_eq.
Qed.

(** X16: at the end of the exact integer range the counter stands still,
    so a call with a callback registers under the number of the call
    before it: the earlier callback is replaced and will never run. *)
Theorem callback_is_replaced_at_2_pow_53
    (w : World) (first second : Proto.AppRequest) (cb1 cb2 : callbackFn) :
  ready w ->
  seq (this w) = MAX_EXACT ->
  let w1 := exec (sendRequest first (Some cb1)) w in
  let w2 := exec (sendRequest second (Some cb2)) w1 in
  seqCallbacks (this w1) !! MAX_EXACT = Some cb1
  /\ seqCallbacks (this w2) !! MAX_EXACT = Some cb2
  /\ seqCallbacks (this w2) = <[MAX_EXACT := cb2]> (seqCallbacks (this w))
  /\ seq (this w2) = MAX_EXACT.
Proof.
  intros Hready Hmax w1 w2.
  pose proof (sendRequest_keeps_ready first (Some cb1) w Hready) as Hready1.
  fold w1 in Hready1.
  assert (seq (this w1) = MAX_EXACT) as Hseq1.
  { subst w1. rewrite sendRequest_seq by exact Hready.
    rewrite Hmax. apply pre_increment_saturated. lia. }
  assert (seqCallbacks (this w1) = <[MAX_EXACT := cb1]> (seqCallbacks (this w))) as Hreg1.
  { subst w1. rewrite sendRequest_seqCallbacks by exact Hready.
    rewrite Hmax, pre_increment_saturated by lia. reflexivity. }
  assert (seqCallbacks (this w2) = <[MAX_EXACT := cb2]> (seqCallbacks (this w))) as Hreg2.
  { subst w2. rewrite sendRequest_seqCallbacks by exact Hready1.
    rewrite Hseq1, pre_increment_saturated by lia.
    rewrite Hreg1. apply insert_insert_eq. }
  split; [rewrite Hreg1; apply lookup_insert_eq|].
  split; [rewrite Hreg2; apply lookup_insert_eq|].
  split; [exact Hreg2|].
  subst w2. rewrite sendRequest_seq by exact Hready1.
  rewrite Hseq1. apply pre_increment_saturated. lia.
Qed.

Lemma sendRequest_codec data callback w :
  AppRequest (this (exec (sendRequest data callback) w)) = AppRequest (this w)
  /\ AppMessage (this (exec (sendRequest data callback) w)) = AppMessage (this w).
Proof.
  destruct (sendRequest_fields data callback w) as (_ & Hreq & Hmsg & _).
  split; assumption.
Qed.

Lemma loaded_together_step s :
  preserves (fun w => (AppRequest (this w) = None <-> AppMessage (this w) = None)
                      /\ (websocket (this w) <> HUndefined -> (0 < sockets w)%nat))
            (step s).
Proof.
  apply client_step.
  - intros e w H. exact H.
  - intros f w H. exact H.
  - intros f w H. exact H.
  - intros w. unfold exec. rewrite disconnect_eq. cbn.
    destruct (websocket (this w)) eqn:Hws; intros H;
      [rewrite Hws; exact H | rewrite Hws; exact H |].
    cbn. destruct H as [H1 H2]. split; [exact H1|].
    intros _. apply H2. congruence.
  - intros w _. cbv beta.
    destruct (connect_effects w) as (_ & _ & _ & Hn & Hreq & Hmsg & _).
    rewrite Hn, Hreq, Hmsg. split; [split; discriminate | intros _; lia].
  - intros data callback w H. cbv beta.
    destruct (sendRequest_handle data callback w) as [Hws Hn].
    destruct (sendRequest_codec data callback w) as [Hreq Hmsg].
    rewrite Hws, Hn, Hreq, Hmsg. exact H.
  - intros k w H. exact H.
  - intros k s' w. unfold exec, set_readyState, modify, with_this. cbn.
    destruct (websocket (this w)) as [| |ws] eqn:Hws; intros H;
      [rewrite Hws; exact H | rewrite Hws; exact H |].
    destruct (Nat.eqb (socket_id ws) k); cbn; [|rewrite Hws; exact H].
    destruct H as [H1 H2]. split; [exact H1|].
    intros _. apply H2. congruence.
Qed.

Lemma reachable_loaded_together w :
  reachable w ->
  (AppRequest (this w) = None <-> AppMessage (this w) = None)
  /\ (websocket (this w) <> HUndefined -> (0 < sockets w)%nat).
Proof.
  induction 1 as [server port playerId playerToken proxy|w s _ IH _].
  - cbn. split; [tauto | congruence].
  - apply (loaded_together_step s w IH).
Qed.

(** X17: what holds of every state a client can reach: the counter lies
    between 0 and [2^53]; every registry entry sits under a sequence
    number that was handed out, from 1 up to the counter, never under 0;
    the two codec fields are set together, and once a handle was ever
    set, so are they; the handle's socket is one the client opened. *)
Theorem reachable_states_are_well_formed (w : World) :
  reachable w ->
  0 <= seq (this w) <= MAX_EXACT
  /\ (forall k callback,
        seqCallbacks (this w) !! k = Some callback -> 1 <= k <= seq (this w))
  /\ (AppRequest (this w) = None <-> AppMessage (this w) = None)
  /\ (websocket (this w) <> HUndefined ->
      AppRequest (this w) = Some Proto_AppRequest
      /\ AppMessage (this w) = Some Proto_AppMessage)
  /\ (forall ws, websocket (this w) = HSocket ws -> (socket_id ws < sockets w)%nat).
Proof.
  intros Hreach.
  pose proof (reachable_Inv w Hreach) as [Hseq Hkeys Hcodec Hhandle].
  pose proof (reachable_loaded_together w Hreach) as [Hboth Hsockets].
  split; [exact Hseq|].
  split; [intros k callback Hk; apply Hkeys in Hk; lia|].
  split; [exact Hboth|].
  split; [|exact Hhandle].
  intros Hws. apply Hsockets in Hws.
  destruct Hcodec as [Hloaded|(_ & Hzero & _)]; [exact Hloaded | lia].
Qed.

End InFlight.

(** ** The convenience calls *)
Section ConvenienceCalls.

Context `{P : Platform}.

Lemma typed_payload_effects (payload : Proto.AppRequest)
    (callback : option callbackFn) (w : World) :
  payload !! "seq" = None ->
  payload !! "playerId" = None ->
  payload !! "playerToken" = None ->
  ready w ->
  let w1 := exec (sendRequest payload callback) w in
  exists request,
    (forall ws frame,
        websocket (this w) = HSocket ws ->
        AppRequest_toBinary request = Normal frame ->
        WebSocket_send ws frame = Normal tt ->
        sent_frames (since w w1) = [frame])
    /\ (forall ws e,
          websocket (this w) = HSocket ws ->
          transmit ws request = Throw e ->
          result (sendRequest payload callback) w = Throw e
          /\ sent_frames (since w w1) = [])
    /\ request !! "seq" = Some (VNum (pre_increment (seq (this w))))
    /\ request !! "playerId" = Some (VStr (_playerId (this w)))
    /\ request !! "playerToken" = Some (_playerToken (this w))
    /\ seq (this w1) = pre_increment (seq (this w))
    /\ seqCallbacks (this w1) =
         match callback with
         | Some cb => <[pre_increment (seq (this w)) := cb]> (seqCallbacks (this w))
         | None => seqCallbacks (this w)
         end.
Proof.
  intros Hseq Hid Htoken Hready w1.
  exists (merge_request (pre_increment (seq (this w))) (this w) payload).
  assert (forall ws, websocket (this w) = HSocket ws ->
            sendRequest payload callback w = dispatched payload callback ws w
            /\ sent_frames (since w w1) =
                 match transmit ws (merge_request (pre_increment (seq (this w)))
                                      (this w) payload) with
                 | Normal frame => [frame]
                 | Throw _ => []
                 end) as Hsent.
  { intros ws Hws.
    pose proof (sendRequest_ready payload callback w ws (proj1 Hready) Hws) as Heq.
    split; [exact Heq|].
    pose proof (dispatched_frames payload callback ws w) as Hframes.
    destruct (sendRequest_numbered payload callback w Hready)
      as (_ & _ & _ & _ & suffix & Htrace & _).
    fold w1 in Htrace. rewrite (since_app _ _ _ Htrace).
    rewrite <- Heq in Hframes. fold (exec (sendRequest payload callback) w) in Hframes.
    fold w1 in Hframes. rewrite Htrace, sent_frames_app in Hframes.
    apply app_inv_head in Hframes. exact Hframes. }
  split.
  { intros ws frame Hws Hencode Hsend.
    destruct (Hsent ws Hws) as [_ ->].
    rewrite (transmit_accepted ws _ frame Hencode Hsend). reflexivity. }
  split.
  { intros ws e Hws Hthrow.
    destruct (Hsent ws Hws) as [Heq ->]. rewrite Hthrow.
    split; [|reflexivity].
    unfold result. rewrite Heq. unfold dispatched. rewrite Hthrow. reflexivity. }
  split; [apply merge_request_seq, Hseq|].
  split.
  { unfold merge_request. rewrite lookup_union_r by exact Hid.
    rewrite lookup_insert_ne by discriminate. apply lookup_insert_eq. }
  split.
  { unfold merge_request. rewrite lookup_union_r by exact Htoken.
    rewrite !lookup_insert_ne by discriminate. apply lookup_insert_eq. }
  split; [apply sendRequest_seq, Hready | apply sendRequest_seqCallbacks, Hready].
Qed.

Ltac absent := rewrite ?lookup_insert_ne by discriminate; apply lookup_empty.

(** X18: every convenience call on a client with codec and handle is
    given the next sequence number, and the request it has encoded
    carries that number and the client's own player id and token: none of
    the object literals these calls build names a field of the
    dispatcher.  When the encoder takes the request and [send] the frame,
    that one frame is sent; when the encoder or [send] throws, as the
    encoder does for an entity id that is no [uint32], the call throws
    the same and nothing is sent.  The callback, when there is one, is
    registered under the sequence number either way. *)
Theorem convenience_calls_carry_sequence_and_identity (c : Convenience) (w : World) :
  ready w ->
  let currentSeq := pre_increment (seq (this w)) in
  let w1 := exec (call c) w in
  exists request,
    (forall ws frame,
        websocket (this w) = HSocket ws ->
        AppRequest_toBinary request = Normal frame ->
        WebSocket_send ws frame = Normal tt ->
        sent_frames (since w w1) = [frame])
    /\ (forall ws e,
          websocket (this w) = HSocket ws ->
          transmit ws request = Throw e ->
          result (call c) w = Throw e
          /\ sent_frames (since w w1) = [])
    /\ request !! "seq" = Some (VNum currentSeq)
    /\ request !! "playerId" = Some (VStr (_playerId (this w)))
    /\ request !! "playerToken" = Some (_playerToken (this w))
    /\ seq (this w1) = currentSeq
    /\ seqCallbacks (this w1) =
         match callback_of c with
         | Some cb => <[currentSeq := cb]> (seqCallbacks (this w))
         | None => seqCallbacks (this w)
         end.
Proof.
  intros Hready currentSeq w1. subst w1 currentSeq.
  pose proof (fun payload callback H1 H2 H3 =>
                typed_payload_effects payload callback w H1 H2 H3 Hready) as Hsend.
  cbv zeta in Hsend.
  destruct c; cbn [call callback_of];
    unfold setEntityValue, turnSmartSwitchOn, turnSmartSwitchOff, setEntityValue,
      sendTeamMessage, getEntityInfo, getMap, getTime, getMapMarkers, getInfo,
      getTeamInfo, subscribeToCamera, unsubscribeFromCamera, sendCameraInput;
    apply Hsend; absent.
Qed.

End ConvenienceCalls.

(** ** The older client *)
Section LegacyClient.

Context `{P : Platform} `{L : !Protobufjs}.

Lemma legacy_sendRequest_numbered data callback w :
  let w0 := numbered callback w in
  Legacy.sendRequest data callback w =
  match AppRequest (this w) with
  | None =>
      (Throw (TypeError "Cannot read properties of undefined (reading 'fromObject')"), w0)
  | Some Proto_AppRequest =>
      match fromObject
              (Legacy.merge_payload (pre_increment (seq (this w))) (this w) data) with
      | Throw e => (Throw e, w0)
      | Normal message =>
          match websocket (this w) with
          | HSocket ws =>
              match encode_finish message with
              | Throw e => (Throw e, w0)
              | Normal frame =>
                  match WebSocket_send ws frame with
                  | Throw e => (Throw e, w0)
                  | Normal _ =>
                      (Normal tt,
                       logged (Emit (EvRequest message))
                         (logged (Send (socket_id ws) frame) w0))
                  end
              end
          | HUndefined | HNull =>
              (Throw (TypeError "Cannot read properties of undefined (reading 'send')"), w0)
          end
      end
  end.
Proof.
  unfold Legacy.sendRequest, numbered. unfold_monad. cbn.
  destruct callback as [cb|]; cbn;
    destruct (AppRequest (this w)) as [[]|]; cbn; try reflexivity;
    unfold Legacy.merge_payload; cbn;
    destruct (fromObject _) as [message|e]; cbn; try reflexivity;
    destruct (websocket (this w)) as [| |ws]; try reflexivity;
    destruct (encode_finish message) as [frame|e]; cbn; try reflexivity;
    destruct (WebSocket_send ws frame) as [[]|e]; cbn; try reflexivity;
    unfold with_this, with_trace; cbn; rewrite <- app_assoc; reflexivity.
Qed.

(** X19: the older [sendRequest] has no guard.  Called before the schema
    is loaded it throws a [TypeError], and by then it has already handed
    out a sequence number and registered the callback; nothing is sent
    and nothing notified. *)
Theorem legacy_sendRequest_throws_after_numbering
    (w : World) (data : Proto.AppRequest) (callback : option callbackFn) :
  AppRequest (this w) = None ->
  let w1 := exec (Legacy.sendRequest data callback) w in
  (exists message, result (Legacy.sendRequest data callback) w = Throw (TypeError message))
  /\ seq (this w1) = pre_increment (seq (this w))
  /\ seqCallbacks (this w1) =
       match callback with
       | Some cb => <[pre_increment (seq (this w)) := cb]> (seqCallbacks (this w))
       | None => seqCallbacks (this w)
       end
  /\ since w w1 = [].
Proof.
  intros Hcodec w1. subst w1. unfold result, exec.
  rewrite legacy_sendRequest_numbered, Hcodec. cbn [fst snd].
  split; [eexists; reflexivity|].
  split; [apply numbered_seq|]. split; [apply numbered_seqCallbacks|].
  unfold since. cbn. apply drop_all.
Qed.

(** X20: on a client with schema and socket the older [sendRequest]
    leaves the object exactly as the typed one does: same counter, same
    registry, whether or not either of them throws.  Its payload is
    merged the same way, the caller's fields last.  When [fromObject],
    the encoder and [send] all return, the frame is sent once and the
    object [fromObject] made is notified as ['request']; when one of them
    throws (as [send] does on the socket the older client holds while it
    is still connecting), [sendRequest] throws the same and nothing is
    sent or notified, though the sequence number is used up. *)
Theorem legacy_and_typed_sendRequest_number_alike
    (w : World) (ws : WebSocket) (data : Proto.AppRequest)
    (callback : option callbackFn) :
  AppRequest (this w) = Some Proto_AppRequest ->
  websocket (this w) = HSocket ws ->
  let payload := Legacy.merge_payload (pre_increment (seq (this w))) (this w) data in
  let w1 := exec (Legacy.sendRequest data callback) w in
  this w1 = this (exec (sendRequest data callback) w)
  /\ (forall k v, data !! k = Some v -> payload !! k = Some v)
  /\ (forall message frame,
        fromObject payload = Normal message ->
        encode_finish message = Normal frame ->
        WebSocket_send ws frame = Normal tt ->
        result (Legacy.sendRequest data callback) w = Normal tt
        /\ since w w1 = [Send (socket_id ws) frame; Emit (EvRequest message)])
  /\ (forall e,
        fromObject payload = Throw e
        \/ (exists message,
              fromObject payload = Normal message
              /\ (encode_finish message = Throw e
                  \/ exists frame, encode_finish message = Normal frame
                                   /\ WebSocket_send ws frame = Throw e)) ->
        result (Legacy.sendRequest data callback) w = Throw e
        /\ since w w1 = []).
Proof.
  intros Hcodec Hws payload w1. subst w1. unfold result, exec at 1 3 4.
  rewrite legacy_sendRequest_numbered, Hcodec, Hws. fold payload.
  assert (since w (numbered callback w) = []) as Hnothing
    by (unfold since; cbn; apply drop_all).
  split; [|split; [|split]].
  - destruct (sendRequest_numbered data callback w) as (-> & _);
      [split; [exact Hcodec | exists ws; exact Hws]|].
    destruct (fromObject payload) as [message|e]; [|reflexivity].
    destruct (encode_finish message) as [frame|e]; [|reflexivity].
    destruct (WebSocket_send ws frame) as [[]|e]; reflexivity.
  - intros k v Hk. subst payload. unfold Legacy.merge_payload.
    apply lookup_union_Some_l, Hk.
  - intros message frame -> -> ->. cbn [fst snd]. split; [reflexivity|].
    apply since_app. cbn. rewrite <- app_assoc. reflexivity.
  - intros e [->|(message & -> & [->|(frame & -> & ->)])]; cbn [fst snd];
      (split; [reflexivity | exact Hnothing]).
Qed.

Lemma legacy_invoke_no_calls callback message w :
  Legacy.no_calls callback ->
  Legacy.invoke callback message w = invoke callback message w.
Proof.
  intros Hsimple. destruct callback as [f|t p]; [|reflexivity].
  cbn in Hsimple. specialize (Hsimple message).
  unfold Legacy.invoke, invoke, bind.
  destruct (log (Invoke (UserFn f) message) w) as [[[]|e] w0]; [|reflexivity].
  destruct (f message) as [value|e|c next]; [reflexivity | reflexivity | contradiction].
Qed.

(** X21: with the same decoder, and callbacks that do not call back into
    the client, the older message listener and the typed one do the same
    to every frame. *)
Theorem legacy_and_typed_listener_agree (w : World) (data : Wire) :
  (forall d, decode d = AppMessage_fromBinary d) ->
  AppMessage (this w) = Some Proto_AppMessage ->
  (forall k callback,
      seqCallbacks (this w) !! k = Some callback -> Legacy.no_calls callback) ->
  Legacy.on_message data w = on_message data w.
Proof.
  intros Hdecode Hcodec Hsimple.
  unfold Legacy.on_message, on_message.
  unfold bind, gets, lift, ret, modify, emit, log.
  cbn -[invoke Legacy.invoke]. rewrite Hcodec. cbn -[invoke Legacy.invoke].
  rewrite !Hdecode.
  destruct (AppMessage_fromBinary data) as [message|e]; [|reflexivity].
  destruct (Proto.response message) as [r|]; [|reflexivity].
  destruct (number_truthy (Proto.seq r)); [|reflexivity].
  cbn -[invoke Legacy.invoke].
  destruct (seqCallbacks (this w) !! Proto.seq r) as [callback|] eqn:Hcb;
    [|reflexivity].
  rewrite (legacy_invoke_no_calls callback message w (Hsimple _ _ Hcb)).
  reflexivity.
Qed.

(** X22: the older [connect()] does not tear anything down: when its
    schema load completes on a client that already holds a socket, a
    second socket is opened and becomes the handle, and the first is
    never terminated: it stays open with its listeners on. *)
Theorem legacy_connect_leaves_old_socket_open (w : World) (ws : WebSocket) :
  websocket (this w) = HSocket ws ->
  (socket_id ws < sockets w)%nat ->
  ~ In (socket_id ws) (terminated (trace w)) ->
  let w1 := exec Legacy.on_loaded w in
  since w w1 = [Emit EvConnecting; OpenSocket (sockets w) (target_address (this w))]
  /\ websocket (this w1) =
       HSocket {| socket_id := sockets w; address := target_address (this w);
                  readyState := CONNECTING |}
  /\ ~ one_live_socket w1.
Proof.
  intros Hws Hid Hlive w1.
  assert (w1 = {| this := with_websocket
                            (HSocket {| socket_id := sockets w;
                                        address := target_address (this w);
                                        readyState := CONNECTING |})
                            (with_proto (this w));
                  promises := promises w; timers := timers w;
                  sockets := S (sockets w);
                  trace := trace w ++ [Emit EvConnecting;
                                       OpenSocket (sockets w) (target_address (this w))] |})
    as ->.
  { subst w1. unfold exec, Legacy.on_loaded, new_WebSocket. unfold_monad. cbn.
    rewrite <- app_assoc. reflexivity. }
  split; [apply since_app; reflexivity|].
  split; [reflexivity|].
  intros Hone. destruct (Hone (socket_id ws)) as [(ws' & Hcur & Heq)|Hterm].
  - cbn. lia.
  - cbn in Hcur. injection Hcur as <-. cbn in Heq. lia.
  - cbn [trace] in Hterm. rewrite terminated_app in Hterm.
    apply in_app_or in Hterm as [Hterm|Hterm]; [exact (Hlive Hterm)|].
    cbn in Hterm. exact Hterm.
Qed.

End LegacyClient.

(** ** The further properties on the loopback client *)
Section ExtrasOnLoopback.

Import Loopback LoopbackRuns.

Lemma reconnected_reachable : reachable (P := platform) reconnected.
Proof.
  apply reachable_run; [apply connected_reachable|].
  repeat constructor.
Qed.

Lemma awaited_reachable : reachable (P := platform) awaited.
Proof.
  unfold awaited. rewrite <- perform_sendRequestAsync, <- step_method.
  apply reachable_step; [apply connected_reachable | constructor].
Qed.

Lemma one_socket_after_reconnect : one_live_socket (P := platform) reconnected.
Proof. exact (at_most_one_socket_in_use (P := platform) reconnected reconnected_reachable). Defined.

Lemma close_of_socket_0_after_reconnect :
  deliver (P := platform) (SigClose 0%nat) reconnected
    = (Normal tt, logged (Emit EvDisconnected) reconnected)
  /\ result isConnected (exec (P := platform) (deliver (SigClose 0%nat)) reconnected)
     = result isConnected reconnected.
Proof.
  apply (close_of_replaced_socket_still_notifies (P := platform) reconnected 0%nat).
  - vm_compute. lia.
  - intros ws H. vm_compute in H. injection H as <-. cbn. lia.
Defined.

Lemma outage_keeps_waiting_callback :
  seq (this (run outage (waiting plain))) = seq (this (waiting plain))
  /\ seqCallbacks (this (run outage (waiting plain))) = seqCallbacks (this (waiting plain))
  /\ promises (run outage (waiting plain)) = promises (waiting plain)
  /\ timers (run outage (waiting plain)) = timers (waiting plain).
Proof.
  apply (connection_changes_keep_pending_requests (P := platform) outage (waiting plain)).
  repeat constructor.
Defined.

Lemma callback_served_after_outage :
  let w1 := run outage (waiting plain) in
  let w2 := exec (P := platform) (on_message (P := platform) (response_frame 1 None)) w1 in
  invocations (since w1 w2) = [(plain, message_of 1 None)]
  /\ seqCallbacks (this w2) !! Proto.seq (response_of 1 None) = None.
Proof.
  destruct (pending_callback_survives_reconnect (P := platform) outage (waiting plain)
              (response_frame 1 None) (message_of 1 None) (response_of 1 None) plain
              (waiting_reachable plain plain_user))
    as (Hinv & Hreturns & _).
  - repeat constructor.
  - apply waiting_entry.
  - reflexivity.
  - reflexivity.
  - split; [exact Hinv|]. apply (Hreturns RetVoid). vm_compute. reflexivity.
Defined.

Lemma getTime_is_sent_then_notified :
  let request := merge_request (pre_increment (seq (this connected))) (this connected)
                   getTime in
  let w1 := exec (P := platform) (sendRequest getTime None) connected in
  result (P := platform) (sendRequest getTime None) connected = Normal tt
  /\ since connected w1 =
       [@Send platform (socket_id socket) (RequestFrame request);
        Emit (EvRequest request)].
Proof.
  destruct (sendRequest_sends_once_then_notifies (P := platform) connected socket
              getTime None eq_refl eq_refl) as (_ & _ & Hsent & _).
  destruct (Hsent (RequestFrame
                     (merge_request (pre_increment (seq (this connected)))
                        (this connected) getTime))
                  (merge_request (pre_increment (seq (this connected)))
                     (this connected) getTime))
    as (Hres & Hsince & _).
  - vm_compute. reflexivity.
  - reflexivity.
  - reflexivity.
  - split; [exact Hres | exact Hsince].
Defined.

Lemma response_frame_is_delivered_once :
  let w := waiting plain in
  let w1 := exec (P := platform) (on_message (P := platform) (response_frame 1 None)) w in
  (result (on_message (P := platform) (response_frame 1 None)) w = Normal tt
   /\ invocations (since w w1) = []
   /\ message_notifications (since w w1) = [message_of 1 None]
   /\ seqCallbacks (this w1) = seqCallbacks (this w))
  \/ exists r callback,
       Proto.response (message_of 1 None) = Some r
       /\ seqCallbacks (this w) !! Proto.seq r = Some callback
       /\ invocations (since w w1) = [(callback, message_of 1 None)]
       /\ match return_value callback (message_of 1 None) w with
          | Normal value =>
              result (on_message (P := platform) (response_frame 1 None)) w = Normal tt
              /\ message_notifications (since w w1) =
                   (if truthy value then [] else [message_of 1 None])
          | Throw e =>
              result (on_message (P := platform) (response_frame 1 None)) w = Throw e
              /\ message_notifications (since w w1) = []
          end.
Proof.
  apply (decoded_frame_is_delivered_once (P := platform) (waiting plain)
           (response_frame 1 None) (message_of 1 None)).
  - reflexivity.
  - reflexivity.
Defined.

Lemma malformed_frame_on_connected_client :
  deliver (P := platform) (@SigMessage platform 0%nat Malformed) connected
  = (Throw (Error "illegal tag"), connected).
Proof.
  apply (malformed_frame_throws_and_changes_nothing (P := platform) connected 0%nat
           Malformed (Error "illegal tag")).
  - apply connected_reachable.
  - vm_compute. lia.
  - reflexivity.
Defined.

Lemma awaited_entry :
  seqCallbacks (this awaited) !! Proto.seq (response_of 1 None)
  = Some (AsyncFn 0%nat 0%nat).
Proof. vm_compute. reflexivity. Qed.

Lemma awaited_pending : promises awaited !! 0%nat = Some Pending.
Proof. vm_compute. reflexivity. Qed.

Lemma awaited_response_settles_promise_0 :
  let w1 := exec (P := platform) (on_message (P := platform) (response_frame 1 None))
              awaited in
  since awaited w1 = [Invoke (AsyncFn 0%nat 0%nat) (message_of 1 None);
                      Emit (EvMessage (message_of 1 None))]
  /\ seqCallbacks (this w1) =
       delete (Proto.seq (response_of 1 None)) (seqCallbacks (this awaited))
  /\ (promises awaited !! 0%nat = Some Pending ->
      promises w1 !! 0%nat = Some (outcome (response_of 1 None)))
  /\ (forall q, q <> 0%nat -> promises w1 !! q = promises awaited !! q)
  /\ (forall t', t' <> 0%nat -> timers w1 !! t' = timers awaited !! t')
  /\ (forall timer armed, timers awaited !! 0%nat = Some (timer, armed) ->
        timers w1 !! 0%nat = Some (timer, false)).
Proof.
  apply (response_settles_its_own_promise_only (P := platform) awaited
           (response_frame 1 None) (message_of 1 None) (response_of 1 None)
           0%nat 0%nat).
  - apply awaited_reachable.
  - reflexivity.
  - reflexivity.
  - apply awaited_entry.
Defined.

Lemma awaited_late_response :
  let w1 := exec (P := platform) (deliver (SigTimer 0%nat)) awaited in
  let w2 := exec (P := platform) (on_message (P := platform) (response_frame 1 None)) w1 in
  promises w1 !! 0%nat = Some (Rejected (RejError timeout_error))
  /\ since awaited w1 = []
  /\ this w1 = this awaited
  /\ since w1 w2 = [Invoke (AsyncFn 0%nat 0%nat) (message_of 1 None);
                    Emit (EvMessage (message_of 1 None))]
  /\ seqCallbacks (this w2) !! Proto.seq (response_of 1 None) = None
  /\ promises w2 !! 0%nat = Some (Rejected (RejError timeout_error)).
Proof.
  apply (late_response_after_timeout (P := platform) awaited
           (response_frame 1 None) (message_of 1 None) (response_of 1 None)
           0%nat 0%nat).
  - apply awaited_reachable.
  - apply awaited_entry.
  - apply awaited_pending.
  - reflexivity.
  - reflexivity.
Defined.

Lemma promise_before_connect_times_out :
  let w1 := exec (P := platform) (sendRequestAsync getTime (Some 50)) constructed in
  result (sendRequestAsync getTime (Some 50)) constructed
    = Normal (next_promise constructed)
  /\ w1 = awaiting (default 10000 (Some 50)) constructed
  /\ since constructed w1 = []
  /\ this w1 = this constructed
  /\ promises (exec (deliver (SigTimer (next_timer constructed))) w1)
       !! next_promise constructed
     = Some (Rejected (RejError timeout_error)).
Proof.
  apply (sendRequestAsync_without_connection_times_out (P := platform) constructed
           getTime (Some 50)).
  left. reflexivity.
Defined.

Lemma response_without_callback_on_loopback :
  let w1 := exec (P := platform) (sendRequest getTime None) connected in
  seq (this w1) = seq (this connected) + 1
  /\ seqCallbacks (this w1) = seqCallbacks (this connected)
  /\ since w1 (exec (on_message (P := platform) (response_frame 1 None)) w1)
     = [Emit (EvMessage (message_of 1 None))].
Proof.
  intros w1.
  assert (seq (this connected) < MAX_EXACT) as Hbelow by (vm_compute; reflexivity).
  pose proof (response_to_request_without_callback_is_generic (P := platform) connected
                getTime (response_frame 1 None) (message_of 1 None) (response_of 1 None)
                connected_reachable connected_ready Hbelow eq_refl eq_refl) as H.
  cbv zeta in H. apply H.
  vm_compute. reflexivity.
Defined.

Lemma second_response_settles_second_promise :
  let p1 := next_promise connected in
  let w1 := exec (P := platform) (sendRequestAsync getTime None) connected in
  let p2 := next_promise w1 in
  let w2 := exec (P := platform) (sendRequestAsync getTime None) w1 in
  let w3 := exec (P := platform) (on_message (P := platform) (response_frame 2 None)) w2 in
  p1 <> p2
  /\ promises w3 !! p2 = Some (outcome (response_of 2 None))
  /\ promises w3 !! p1 = Some Pending.
Proof.
  assert (seq (this connected) + 2 <= MAX_EXACT) as Hbound by (vm_compute; discriminate).
  destruct (responses_are_credited_to_the_right_promise (P := platform) connected
              getTime getTime None None
              (response_frame 2 None) (message_of 2 None) (response_of 2 None)
              connected_reachable connected_ready Hbound eq_refl eq_refl eq_refl)
    as (Hdistinct & _ & _ & _ & _ & _ & _ & Hboth).
  split; [exact Hdistinct|].
  apply Hboth; vm_compute; reflexivity.
Defined.

Lemma second_callback_replaces_first_at_limit :
  let w1 := exec (P := platform) (sendRequest getTime (Some plain)) saturated in
  let w2 := exec (P := platform) (sendRequest getTime (Some suppressing)) w1 in
  seqCallbacks (this w1) !! MAX_EXACT = Some plain
  /\ seqCallbacks (this w2) !! MAX_EXACT = Some suppressing
  /\ seqCallbacks (this w2) = <[MAX_EXACT := suppressing]> (seqCallbacks (this saturated))
  /\ seq (this w2) = MAX_EXACT.
Proof.
  apply (callback_is_replaced_at_2_pow_53 (P := platform) saturated getTime getTime
           plain suppressing).
  - apply saturated_ready.
  - reflexivity.
Defined.

Lemma connected_client_is_well_formed :
  0 <= seq (this connected) <= MAX_EXACT
  /\ (forall k callback,
        seqCallbacks (this connected) !! k = Some callback ->
        1 <= k <= seq (this connected))
  /\ (AppRequest (this connected) = None <-> AppMessage (this connected) = None)
  /\ (websocket (this connected) <> HUndefined ->
      AppRequest (this connected) = Some Proto_AppRequest
      /\ AppMessage (this connected) = Some Proto_AppMessage)
  /\ (forall ws, websocket (this connected) = HSocket ws ->
                 (socket_id ws < sockets connected)%nat).
Proof.
  exact (reachable_states_are_well_formed (P := platform) connected connected_reachable).
Defined.

Lemma turnSmartSwitchOn_carries_identity :
  let c := TurnSmartSwitchOn (VNum 1234567) (Some plain) in
  let currentSeq := pre_increment (seq (this connected)) in
  let w1 := exec (P := platform) (call c) connected in
  exists request,
    (forall ws frame,
        websocket (this connected) = HSocket ws ->
        AppRequest_toBinary (Platform := platform) request = Normal frame ->
        WebSocket_send ws frame = Normal tt ->
        sent_frames (since connected w1) = [frame])
    /\ (forall ws e,
          websocket (this connected) = HSocket ws ->
          transmit (P := platform) ws request = Throw e ->
          result (call c) connected = Throw e
          /\ sent_frames (since connected w1) = [])
    /\ request !! "seq" = Some (VNum currentSeq)
    /\ request !! "playerId" = Some (VStr (_playerId (this connected)))
    /\ request !! "playerToken" = Some (_playerToken (this connected))
    /\ seq (this w1) = currentSeq
    /\ seqCallbacks (this w1) =
         match callback_of c with
         | Some cb => <[currentSeq := cb]> (seqCallbacks (this connected))
         | None => seqCallbacks (this connected)
         end.
Proof.
  apply (convenience_calls_carry_sequence_and_identity (P := platform)
           (TurnSmartSwitchOn (VNum 1234567) (Some plain)) connected).
  apply connected_ready.
Defined.

End ExtrasOnLoopback.

Section LegacyOnLoopback.

Import Loopback.

Lemma legacy_sendRequest_before_load :
  let w1 := exec (P := platform)
              (Legacy.sendRequest (L := LegacyLoopback.protobufjs) getTime (Some plain))
              LegacyLoopback.constructed in
  (exists message,
      result (Legacy.sendRequest (L := LegacyLoopback.protobufjs) getTime (Some plain))
        LegacyLoopback.constructed = Throw (TypeError message))
  /\ seq (this w1) = pre_increment (seq (this LegacyLoopback.constructed))
  /\ seqCallbacks (this w1) =
       <[pre_increment (seq (this LegacyLoopback.constructed)) := plain]>
         (seqCallbacks (this LegacyLoopback.constructed))
  /\ since LegacyLoopback.constructed w1 = [].
Proof.
  apply (legacy_sendRequest_throws_after_numbering (P := platform)
           (L := LegacyLoopback.protobufjs) LegacyLoopback.constructed getTime
           (Some plain)).
  reflexivity.
Defined.

Lemma legacy_sendRequest_after_open :
  let w := LegacyLoopback.opened in
  let payload := Legacy.merge_payload (pre_increment (seq (this w))) (this w) getTime in
  let w1 := exec (P := platform)
              (Legacy.sendRequest (L := LegacyLoopback.protobufjs) getTime (Some plain)) w in
  this w1 = this (exec (P := platform) (sendRequest getTime (Some plain)) w)
  /\ result (Legacy.sendRequest (L := LegacyLoopback.protobufjs) getTime (Some plain)) w
     = Normal tt
  /\ since w w1
     = [@Send platform 0%nat (RequestFrame payload); Emit (EvRequest payload)].
Proof.
  destruct (legacy_and_typed_sendRequest_number_alike (P := platform)
              (L := LegacyLoopback.protobufjs) LegacyLoopback.opened
              LegacyLoopback.open_socket getTime (Some plain) eq_refl eq_refl)
    as (Hsame & _ & Hsent & _).
  split; [exact Hsame|].
  exact (Hsent _ _ eq_refl eq_refl eq_refl).
Defined.

Lemma legacy_waiting_registry :
  seqCallbacks (this (LegacyLoopback.waiting plain)) = {[ 1 := plain ]}.
Proof. vm_compute. reflexivity. Qed.

Lemma legacy_listener_on_loopback :
  Legacy.on_message (P := platform) (L := LegacyLoopback.protobufjs)
    (response_frame 1 None) (LegacyLoopback.waiting plain)
  = on_message (P := platform) (response_frame 1 None) (LegacyLoopback.waiting plain).
Proof.
  apply (legacy_and_typed_listener_agree (P := platform)
           (L := LegacyLoopback.protobufjs) (LegacyLoopback.waiting plain)
           (response_frame 1 None)).
  - intros d. reflexivity.
  - reflexivity.
  - intros k callback. rewrite legacy_waiting_registry.
    intros Hk. apply lookup_singleton_Some in Hk as [_ <-].
    intros message. exact I.
Defined.

Lemma legacy_second_load_leaves_socket_0 :
  let w := LegacyLoopback.loaded in
  let w1 := exec (P := platform) Legacy.on_loaded w in
  since w w1 = [Emit EvConnecting; OpenSocket (sockets w) (target_address (this w))]
  /\ websocket (this w1) =
       HSocket {| socket_id := sockets w; address := target_address (this w);
                  readyState := CONNECTING |}
  /\ ~ one_live_socket w1.
Proof.
  apply (legacy_connect_leaves_old_socket_open (P := platform) LegacyLoopback.loaded
           LegacyLoopback.socket).
  - reflexivity.
  - vm_compute. lia.
  - vm_compute. tauto.
Defined.

End LegacyOnLoopback.
